(** * Cache replacement engines: LIRS, LIRS-WSR (two variants) and LRU

    Shallow embedding of the Go sources

      - [src/unnamed/part_000]   (package lirs)
      - [src/lirswsr/lirswsr.go] (package lirswsr, two concatenated variants)
      - [src/lru/lru.go]         (package lru)

    Every engine is a record of its fields; a method with a pointer receiver
    becomes a function from the record to the updated record, and a method
    that returns [err error] returns the pair of the error and the record. *)

From Stdlib Require Import ZArith List Lia Bool.
From stdpp Require Import base option list gmap fin_maps strings.

Open Scope Z_scope.

(** ** Go's [int] on a 64-bit target *)

Module GoInt.

Definition min_int : Z := - 2 ^ 63.
Definition max_int : Z := 2 ^ 63 - 1.

Definition in_range (z : Z) : Prop := min_int <= z <= max_int.

(** Two's complement wrap-around of a mathematical integer. *)
Definition wrap (z : Z) : Z := (z + 2 ^ 63) mod 2 ^ 64 - 2 ^ 63.

Definition add (a b : Z) : Z := wrap (a + b).
Definition sub (a b : Z) : Z := wrap (a - b).
Definition mul (a b : Z) : Z := wrap (a * b).
(** Go's [/] truncates toward zero. *)
Definition quot (a b : Z) : Z := wrap (Z.quot a b).

Global Arguments wrap : simpl never.
Global Arguments add : simpl never.
Global Arguments sub : simpl never.
Global Arguments mul : simpl never.
Global Arguments quot : simpl never.

End GoInt.

(** Go's [error] interface, as built by [errors.New]; [None] is [nil]. *)
Definition error : Type := string.

(** ** The access record *)

Module simulator.

(** Modelled from the spec: the declaration of [simulator.Trace] (package
    [golang/simulator]) is not among the sources.  The engines read its
    fields [Addr] and [Op]; the spec gives the input record as
    [{address: integer, operation: one of {"R","W"}}]. *)
Record Trace : Type := mkTrace { Addr : Z; Op : string }.

End simulator.

(** ** The recency ordered container *)

Module OrderedMap.

(** Modelled from the spec: the type [orderedmap.OrderedMap] of
    [github.com/secnot/orderedmap] is imported by the engines and is not
    among the sources.  The model follows the contract of the spec's
    section 4.1: an associative container that keeps its entries ordered
    oldest to newest.  It is a list of key/value pairs, oldest first, with
    at most one pair per key. *)
Section Container.
Context {V : Type}.

Definition t : Type := list (Z * V).

Definition NewOrderedMap : t := [].

(** [get(key) -> maybe entry]. *)
Fixpoint Get (key : Z) (om : t) : option V :=
  match om with
  | [] => None
  | (k, v) :: om' => if decide (k = key) then Some v else Get key om'
  end.

Fixpoint overwrite (key : Z) (value : V) (om : t) : t :=
  match om with
  | [] => []
  | (k, v) :: om' =>
      if decide (k = key) then (k, value) :: om'
      else (k, v) :: overwrite key value om'
  end.

(** [setOrUpdate(key, value)]: inserts at the newest position if the key
    is absent, otherwise overwrites the value and keeps the position. *)
Definition Set_ (key : Z) (value : V) (om : t) : t :=
  match Get key om with
  | Some _ => overwrite key value om
  | None => om ++ [(key, value)]
  end.

(** [remove(key)]. *)
Definition Delete (key : Z) (om : t) : t :=
  List.filter (fun e => negb (bool_decide (fst e = key))) om.

(** [len()]. *)
Definition Len (om : t) : Z := Z.of_nat (length om).

Definition GetFirst (om : t) : option (Z * V) :=
  match om with
  | [] => None
  | e :: _ => Some e
  end.

(** [removeOldest() -> (key, value) or empty-signal]. *)
Definition PopFirst (om : t) : option (Z * V) * t :=
  match om with
  | [] => (None, [])
  | e :: om' => (Some e, om')
  end.

(** [moveToNewest(key)]: relocates an existing entry to the newest
    position without changing its value; an absent key is reported as an
    error (which every caller in the engines drops) and changes
    nothing. *)
Definition MoveLast (key : Z) (om : t) : t :=
  match Get key om with
  | Some v => Delete key om ++ [(key, v)]
  | None => om
  end.

(** [iterateOldestToNewest()]: the finite sequence of entries, oldest
    first, as the container stands when the iterator is made. *)
Definition Iter (om : t) : list (Z * V) := om.

Definition keys (om : t) : list Z := List.map fst om.

(** At most one pair per key. *)
Definition wf (om : t) : Prop := NoDup (keys om).

End Container.

Global Arguments t : clear implicits.

End OrderedMap.

(** ** The LIRS engine ([src/unnamed/part_000]) *)

Module LIRS.

Record LIRS : Type := mkLIRS {
  cacheSize : Z;
  LIRSize : Z;
  HIRSize : Z;
  hit : Z;
  miss : Z;
  writeCount : Z;
  orderedStack : OrderedMap.t Z;
  orderedList : OrderedMap.t Z;
  LIR : gmap Z Z;
  HIR : gmap Z Z;
  cache : gmap Z bool
}.

Definition with_hit (x : Z) (o : LIRS) : LIRS :=
  mkLIRS (cacheSize o) (LIRSize o) (HIRSize o) x (miss o) (writeCount o)
         (orderedStack o) (orderedList o) (LIR o) (HIR o) (cache o).
Definition with_miss (x : Z) (o : LIRS) : LIRS :=
  mkLIRS (cacheSize o) (LIRSize o) (HIRSize o) (hit o) x (writeCount o)
         (orderedStack o) (orderedList o) (LIR o) (HIR o) (cache o).
Definition with_writeCount (x : Z) (o : LIRS) : LIRS :=
  mkLIRS (cacheSize o) (LIRSize o) (HIRSize o) (hit o) (miss o) x
         (orderedStack o) (orderedList o) (LIR o) (HIR o) (cache o).
Definition with_orderedStack (x : OrderedMap.t Z) (o : LIRS) : LIRS :=
  mkLIRS (cacheSize o) (LIRSize o) (HIRSize o) (hit o) (miss o) (writeCount o)
         x (orderedList o) (LIR o) (HIR o) (cache o).
Definition with_orderedList (x : OrderedMap.t Z) (o : LIRS) : LIRS :=
  mkLIRS (cacheSize o) (LIRSize o) (HIRSize o) (hit o) (miss o) (writeCount o)
         (orderedStack o) x (LIR o) (HIR o) (cache o).
Definition with_LIR (x : gmap Z Z) (o : LIRS) : LIRS :=
  mkLIRS (cacheSize o) (LIRSize o) (HIRSize o) (hit o) (miss o) (writeCount o)
         (orderedStack o) (orderedList o) x (HIR o) (cache o).
Definition with_HIR (x : gmap Z Z) (o : LIRS) : LIRS :=
  mkLIRS (cacheSize o) (LIRSize o) (HIRSize o) (hit o) (miss o) (writeCount o)
         (orderedStack o) (orderedList o) (LIR o) x (cache o).

(** [NewLIRS]; [None] is the [log.Fatal] exit. *)
Definition NewLIRS (cacheSize HIRSize : Z) : option LIRS :=
  if decide (HIRSize > 100 ∨ HIRSize < 0) then None
  else
    let LIRCapacity := GoInt.quot (GoInt.mul (GoInt.sub 100 HIRSize) cacheSize) 100 in
    let HIRCapacity := GoInt.quot (GoInt.mul HIRSize cacheSize) 100 in
    Some (mkLIRS cacheSize LIRCapacity HIRCapacity 0 0 0
                 OrderedMap.NewOrderedMap OrderedMap.NewOrderedMap ∅ ∅ ∅).

Definition addToStack (block : Z) (o : LIRS) : LIRS :=
  match OrderedMap.Get block (orderedStack o) with
  | Some _ => with_orderedStack (OrderedMap.MoveLast block (orderedStack o)) o
  | None => with_orderedStack (OrderedMap.Set_ block 1 (orderedStack o)) o
  end.

Definition addToList (block : Z) (o : LIRS) : LIRS :=
  let o :=
    if decide (OrderedMap.Len (orderedList o) = HIRSize o)
    then with_orderedList (snd (OrderedMap.PopFirst (orderedList o))) o
    else o in
  with_orderedList (OrderedMap.Set_ block 1 (orderedList o)) o.

Definition removeFromList (block : Z) (o : LIRS) : LIRS :=
  with_orderedList (OrderedMap.Delete block (orderedList o)) o.

Definition makeLIR (block : Z) (o : LIRS) : LIRS :=
  let o := with_LIR (<[block := 1]> (LIR o)) o in
  let o := removeFromList block o in
  with_HIR (delete block (HIR o)) o.

Definition makeHIR (block : Z) (o : LIRS) : LIRS :=
  let o := with_HIR (<[block := 1]> (HIR o)) o in
  with_LIR (delete block (LIR o)) o.

(** The loop of [stackPruning]: [it] is what the iterator still has to
    yield.  The iterator was made before the first pop and each pop removes
    the entry it has just yielded, so it walks the entries the stack had at
    the call. *)
Fixpoint stackPruning_loop (it : list (Z * Z)) (o : LIRS) : LIRS :=
  match it with
  | [] => o
  | (k, _) :: it' =>
      match LIR o !! k with
      | Some _ => o
      | None =>
          stackPruning_loop it'
            (with_orderedStack (snd (OrderedMap.PopFirst (orderedStack o))) o)
      end
  end.

Definition stackPruning (o : LIRS) : LIRS :=
  stackPruning_loop (OrderedMap.Iter (orderedStack o)) o.

Definition condition1 (removeLIR : bool) (o : LIRS) : option error * LIRS :=
  match OrderedMap.PopFirst (orderedStack o) with
  | (None, _) => (Some "orderedStack is empty"%string, o)
  | (Some (key, _), st) =>
      let o := with_orderedStack st o in
      let o :=
        if removeLIR then
          let o := makeHIR key o in
          let o := with_orderedList (OrderedMap.Set_ key 1 (orderedList o)) o in
          with_orderedList (OrderedMap.MoveLast key (orderedList o)) o
        else o in
      (None, stackPruning o)
  end.

(** The callers below drop the [err] of [condition1], as the source does. *)
Definition handleLIRBlock (block : Z) (o : LIRS) : option error * LIRS :=
  let o := with_hit (GoInt.add (hit o) 1) o in
  match OrderedMap.GetFirst (orderedStack o) with
  | None => (Some "orderedStack is empty"%string, o)
  | Some (key, _) =>
      let o := if decide (key = block) then snd (condition1 false o) else o in
      (None, addToStack block o)
  end.

Definition handleHIRResidentBlock (block : Z) (o : LIRS) : LIRS :=
  let o := with_hit (GoInt.add (hit o) 1) o in
  let o :=
    match OrderedMap.Get block (orderedStack o) with
    | Some _ =>
        let o := makeLIR block o in
        let o := removeFromList block o in
        snd (condition1 true o)
    | None =>
        with_orderedList (OrderedMap.MoveLast block (orderedList o)) o
    end in
  addToStack block o.

Definition handleHIRNonResidentBlock (block : Z) (o : LIRS) : LIRS :=
  let o := with_miss (GoInt.add (miss o) 1) o in
  let o := addToList block o in
  let o :=
    match OrderedMap.Get block (orderedStack o) with
    | Some _ =>
        let o := makeLIR block o in
        let o := removeFromList block o in
        snd (condition1 true o)
    | None => makeHIR block o
    end in
  addToStack block o.

(** [Get]: the error a handler returns is dropped at each call, and both
    [return] statements return [nil]. *)
Definition Get (trace : simulator.Trace) (o : LIRS) : option error * LIRS :=
  let block := simulator.Addr trace in
  let op := simulator.Op trace in
  let o :=
    if decide (op = "W"%string)
    then with_writeCount (GoInt.add (writeCount o) 1) o else o in
  if decide (Z.of_nat (size (LIR o)) < LIRSize o) then
    let o := with_miss (GoInt.add (miss o) 1) o in
    let o :=
      match LIR o !! block with
      | Some _ =>
          let o := with_miss (GoInt.sub (miss o) 1) o in
          with_hit (GoInt.add (hit o) 1) o
      | None => o
      end in
    let o := addToStack block o in
    let o := makeLIR block o in
    (None, o)
  else
    let o :=
      match LIR o !! block with
      | Some _ => snd (handleLIRBlock block o)
      | None =>
          match OrderedMap.Get block (orderedList o) with
          | Some _ => handleHIRResidentBlock block o
          | None => handleHIRNonResidentBlock block o
          end
      end in
    (None, o).

(** The driver: the records of a trace are fed one at a time. *)
Definition run (tr : list simulator.Trace) (o : LIRS) : LIRS :=
  fold_left (fun o t => snd (Get t o)) tr o.

End LIRS.

(** ** The LIRS-WSR engine, first variant ([src/lirswsr/lirswsr.go], first file) *)

Module LIRSWSR.

Record BlockInfo : Type := mkBlockInfo {
  Address : Z;
  Operation : string;
  DirtyPage : bool;
  ColdFlag : bool;
  Access : Z
}.

(** The values stored in [orderedList] are of type [interface{}]: the
    engine stores a [*BlockInfo] in [addToList] and the integer [1] in
    [condition1] and [condition3]. *)
Inductive ListValue : Type :=
| ListBlock (b : BlockInfo)
| ListInt (n : Z).

Record LIRSWSR : Type := mkLIRSWSR {
  cacheSize : Z;
  LIRSize : Z;
  HIRSize : Z;
  hit : Z;
  miss : Z;
  writeCount : Z;
  orderedStack : OrderedMap.t BlockInfo;
  orderedList : OrderedMap.t ListValue;
  LIR : gmap Z Z;
  HIR : gmap Z Z;
  cache : gmap Z bool
}.

Definition with_hit (x : Z) (o : LIRSWSR) : LIRSWSR :=
  mkLIRSWSR (cacheSize o) (LIRSize o) (HIRSize o) x (miss o) (writeCount o)
            (orderedStack o) (orderedList o) (LIR o) (HIR o) (cache o).
Definition with_miss (x : Z) (o : LIRSWSR) : LIRSWSR :=
  mkLIRSWSR (cacheSize o) (LIRSize o) (HIRSize o) (hit o) x (writeCount o)
            (orderedStack o) (orderedList o) (LIR o) (HIR o) (cache o).
Definition with_writeCount (x : Z) (o : LIRSWSR) : LIRSWSR :=
  mkLIRSWSR (cacheSize o) (LIRSize o) (HIRSize o) (hit o) (miss o) x
            (orderedStack o) (orderedList o) (LIR o) (HIR o) (cache o).
Definition with_orderedStack (x : OrderedMap.t BlockInfo) (o : LIRSWSR) : LIRSWSR :=
  mkLIRSWSR (cacheSize o) (LIRSize o) (HIRSize o) (hit o) (miss o) (writeCount o)
            x (orderedList o) (LIR o) (HIR o) (cache o).
Definition with_orderedList (x : OrderedMap.t ListValue) (o : LIRSWSR) : LIRSWSR :=
  mkLIRSWSR (cacheSize o) (LIRSize o) (HIRSize o) (hit o) (miss o) (writeCount o)
            (orderedStack o) x (LIR o) (HIR o) (cache o).
Definition with_LIR (x : gmap Z Z) (o : LIRSWSR) : LIRSWSR :=
  mkLIRSWSR (cacheSize o) (LIRSize o) (HIRSize o) (hit o) (miss o) (writeCount o)
            (orderedStack o) (orderedList o) x (HIR o) (cache o).
Definition with_HIR (x : gmap Z Z) (o : LIRSWSR) : LIRSWSR :=
  mkLIRSWSR (cacheSize o) (LIRSize o) (HIRSize o) (hit o) (miss o) (writeCount o)
            (orderedStack o) (orderedList o) (LIR o) x (cache o).

(** [NewLIRSWSR]; [None] is the [log.Fatal] exit. *)
Definition NewLIRSWSR (cacheSize HIRSize : Z) : option LIRSWSR :=
  if decide (HIRSize > 100 ∨ HIRSize < 0) then None
  else
    let LIRCapacity := GoInt.quot (GoInt.mul (GoInt.sub 100 HIRSize) cacheSize) 100 in
    let HIRCapacity := GoInt.quot (GoInt.mul HIRSize cacheSize) 100 in
    Some (mkLIRSWSR cacheSize LIRCapacity HIRCapacity 0 0 0
                    OrderedMap.NewOrderedMap OrderedMap.NewOrderedMap ∅ ∅ ∅).

(** [&BlockInfo{ColdFlag: true, Access: 0}]: the fields the literal leaves
    out take Go's zero values. *)
Definition coldBlockInfo : BlockInfo := mkBlockInfo 0 "" false true 0.

Definition addToList (block : Z) (op : string) (o : LIRSWSR) : LIRSWSR :=
  let o :=
    if decide (OrderedMap.Len (orderedList o) = HIRSize o)
    then with_orderedList (snd (OrderedMap.PopFirst (orderedList o))) o
    else o in
  if decide (op = "W"%string) then
    let o := with_writeCount (GoInt.add (writeCount o) 1) o in
    with_orderedList
      (OrderedMap.Set_ block (ListBlock (mkBlockInfo block op true true 0))
                       (orderedList o)) o
  else
    with_orderedList
      (OrderedMap.Set_ block (ListBlock (mkBlockInfo block op false true 0))
                       (orderedList o)) o.

(** The stack holds pointers to [BlockInfo]; the [Access++] on the entry
    found writes through that pointer: the entry keeps its position and
    its other fields. *)
Definition addToStack (block : Z) (op : string) (o : LIRSWSR) : LIRSWSR :=
  match OrderedMap.Get block (orderedStack o) with
  | Some blockInfo =>
      let blockInfo' :=
        mkBlockInfo (Address blockInfo) (Operation blockInfo)
                    (DirtyPage blockInfo) (ColdFlag blockInfo)
                    (GoInt.add (Access blockInfo) 1) in
      let o := with_orderedStack
                 (OrderedMap.overwrite block blockInfo' (orderedStack o)) o in
      with_orderedStack (OrderedMap.MoveLast block (orderedStack o)) o
  | None =>
      if decide (op = "W"%string) then
        let o := with_writeCount (GoInt.add (writeCount o) 1) o in
        with_orderedStack
          (OrderedMap.Set_ block (mkBlockInfo block op true true 0)
                           (orderedStack o)) o
      else
        with_orderedStack
          (OrderedMap.Set_ block (mkBlockInfo block op false true 0)
                           (orderedStack o)) o
  end.

Definition removeFromList (block : Z) (o : LIRSWSR) : LIRSWSR :=
  with_orderedList (OrderedMap.Delete block (orderedList o)) o.

Definition makeLIR (block : Z) (o : LIRSWSR) : LIRSWSR :=
  let o := with_HIR (delete block (HIR o)) o in
  with_LIR (<[block := 1]> (LIR o)) o.

Definition makeHIR (block : Z) (o : LIRSWSR) : LIRSWSR :=
  let o := with_LIR (delete block (LIR o)) o in
  with_HIR (<[block := 1]> (HIR o)) o.

Fixpoint stackPruning_loop (it : list (Z * BlockInfo)) (o : LIRSWSR) : LIRSWSR :=
  match it with
  | [] => o
  | (k, _) :: it' =>
      match LIR o !! k with
      | Some _ => o
      | None =>
          stackPruning_loop it'
            (with_orderedStack (snd (OrderedMap.PopFirst (orderedStack o))) o)
      end
  end.

Definition stackPruning (o : LIRSWSR) : LIRSWSR :=
  stackPruning_loop (OrderedMap.Iter (orderedStack o)) o.

Definition isBlockCold (block : Z) (o : LIRSWSR) : bool :=
  match OrderedMap.Get block (orderedStack o) with
  | Some blockInfo => bool_decide (Access blockInfo < 2)
  | None => false
  end.

Definition isBlockDirty (block : Z) (o : LIRSWSR) : bool :=
  match OrderedMap.Get block (orderedStack o) with
  | Some blockInfo => DirtyPage blockInfo
  | None => false
  end.

Definition condition1 (removeLIR : bool) (o : LIRSWSR) : option error * LIRSWSR :=
  match OrderedMap.PopFirst (orderedStack o) with
  | (None, _) => (Some "orderedStack is empty"%string, o)
  | (Some (key, _), st) =>
      let o := with_orderedStack st o in
      let o :=
        if removeLIR then
          let block := key in
          if isBlockDirty block o || isBlockCold block o then
            let o := with_hit (GoInt.add (hit o) 1) o in
            let o := makeHIR block o in
            let o := with_orderedList
                       (OrderedMap.Set_ block (ListInt 1) (orderedList o)) o in
            with_orderedList (OrderedMap.MoveLast block (orderedList o)) o
          else
            let o := with_orderedStack
                       (OrderedMap.Set_ block coldBlockInfo (orderedStack o)) o in
            with_orderedStack (OrderedMap.MoveLast block (orderedStack o)) o
        else o in
      (None, stackPruning o)
  end.

Definition condition3 (removeLIR : bool) (o : LIRSWSR) : option error * LIRSWSR :=
  match OrderedMap.PopFirst (orderedStack o) with
  | (None, _) => (Some "orderedStack is empty"%string, o)
  | (Some (key, _), st) =>
      let o := with_orderedStack st o in
      let o :=
        if removeLIR then
          let block := key in
          if isBlockDirty block o || isBlockCold block o then
            let o := makeHIR block o in
            let o := with_orderedList
                       (OrderedMap.Set_ block (ListInt 1) (orderedList o)) o in
            with_orderedList (OrderedMap.MoveLast block (orderedList o)) o
          else
            let o := with_orderedStack
                       (OrderedMap.Set_ block coldBlockInfo (orderedStack o)) o in
            with_orderedStack (OrderedMap.MoveLast block (orderedStack o)) o
        else o in
      (None, stackPruning o)
  end.

(** The body of [if removeLIR] in [condition1] ([countHit = true]) and in
    [condition3] ([countHit = false]), under one name, for the facts that
    hold of both. *)
Definition demote (countHit : bool) (block : Z) (o : LIRSWSR) : LIRSWSR :=
  if isBlockDirty block o || isBlockCold block o then
    let o := if countHit then with_hit (GoInt.add (hit o) 1) o else o in
    let o := makeHIR block o in
    let o := with_orderedList
               (OrderedMap.Set_ block (ListInt 1) (orderedList o)) o in
    with_orderedList (OrderedMap.MoveLast block (orderedList o)) o
  else
    let o := with_orderedStack
               (OrderedMap.Set_ block coldBlockInfo (orderedStack o)) o in
    with_orderedStack (OrderedMap.MoveLast block (orderedStack o)) o.

Definition handleLIRBlock (block : Z) (op : string) (o : LIRSWSR)
  : option error * LIRSWSR :=
  let o := with_hit (GoInt.add (hit o) 1) o in
  match OrderedMap.GetFirst (orderedStack o) with
  | None => (Some "orderedStack is empty"%string, o)
  | Some (key, _) =>
      let o := if decide (key = block) then snd (condition1 false o) else o in
      let o := addToStack block op o in
      let o := with_orderedStack
                 (OrderedMap.Set_ block coldBlockInfo (orderedStack o)) o in
      (None, o)
  end.

Definition handleHIRResidentBlock (block : Z) (op : string) (o : LIRSWSR) : LIRSWSR :=
  let o :=
    match OrderedMap.Get block (orderedStack o) with
    | Some _ =>
        let o := makeLIR block o in
        let o := removeFromList block o in
        snd (condition1 true o)
    | None =>
        with_orderedList (OrderedMap.MoveLast block (orderedList o)) o
    end in
  addToStack block op o.

Definition handleHIRNonResidentBlock (block : Z) (op : string) (o : LIRSWSR) : LIRSWSR :=
  let o := with_miss (GoInt.add (miss o) 1) o in
  let o := addToList block op o in
  let o :=
    match OrderedMap.Get block (orderedStack o) with
    | Some _ =>
        let o := makeLIR block o in
        let o := removeFromList block o in
        snd (condition3 true o)
    | None => makeHIR block o
    end in
  addToStack block op o.

Definition Get (trace : simulator.Trace) (o : LIRSWSR) : option error * LIRSWSR :=
  let block := simulator.Addr trace in
  let op := simulator.Op trace in
  if decide (Z.of_nat (size (LIR o)) < LIRSize o) then
    let o := with_miss (GoInt.add (miss o) 1) o in
    let o :=
      match LIR o !! block with
      | Some _ =>
          let o := with_miss (GoInt.sub (miss o) 1) o in
          with_hit (GoInt.add (hit o) 1) o
      | None => o
      end in
    let o := addToStack block op o in
    let o := makeLIR block o in
    (None, o)
  else
    let o :=
      match LIR o !! block with
      | Some _ => snd (handleLIRBlock block op o)
      | None =>
          match OrderedMap.Get block (orderedList o) with
          | Some _ => handleHIRResidentBlock block op o
          | None => handleHIRNonResidentBlock block op o
          end
      end in
    (None, o).

Definition run (tr : list simulator.Trace) (o : LIRSWSR) : LIRSWSR :=
  fold_left (fun o t => snd (Get t o)) tr o.

End LIRSWSR.

(** ** The LIRS-WSR engine, second variant ([src/lirswsr/lirswsr.go], second file) *)

Module LIRSWSR2.

Record BlockInfo : Type := mkBlockInfo {
  Address : Z;
  Operation : string;
  DirtyPage : bool;
  ColdFlag : bool;
  access : Z
}.

Inductive ListValue : Type :=
| ListBlock (b : BlockInfo)
| ListInt (n : Z).

Record LIRSWSR : Type := mkLIRSWSR {
  cacheSize : Z;
  LIRSize : Z;
  HIRSize : Z;
  hit : Z;
  miss : Z;
  writeCount : Z;
  orderedStack : OrderedMap.t BlockInfo;
  orderedList : OrderedMap.t ListValue;
  LIR : gmap Z Z;
  HIR : gmap Z Z;
  cache : gmap Z bool
}.

Definition with_hit (x : Z) (o : LIRSWSR) : LIRSWSR :=
  mkLIRSWSR (cacheSize o) (LIRSize o) (HIRSize o) x (miss o) (writeCount o)
            (orderedStack o) (orderedList o) (LIR o) (HIR o) (cache o).
Definition with_miss (x : Z) (o : LIRSWSR) : LIRSWSR :=
  mkLIRSWSR (cacheSize o) (LIRSize o) (HIRSize o) (hit o) x (writeCount o)
            (orderedStack o) (orderedList o) (LIR o) (HIR o) (cache o).
Definition with_writeCount (x : Z) (o : LIRSWSR) : LIRSWSR :=
  mkLIRSWSR (cacheSize o) (LIRSize o) (HIRSize o) (hit o) (miss o) x
            (orderedStack o) (orderedList o) (LIR o) (HIR o) (cache o).
Definition with_orderedStack (x : OrderedMap.t BlockInfo) (o : LIRSWSR) : LIRSWSR :=
  mkLIRSWSR (cacheSize o) (LIRSize o) (HIRSize o) (hit o) (miss o) (writeCount o)
            x (orderedList o) (LIR o) (HIR o) (cache o).
Definition with_orderedList (x : OrderedMap.t ListValue) (o : LIRSWSR) : LIRSWSR :=
  mkLIRSWSR (cacheSize o) (LIRSize o) (HIRSize o) (hit o) (miss o) (writeCount o)
            (orderedStack o) x (LIR o) (HIR o) (cache o).
Definition with_LIR (x : gmap Z Z) (o : LIRSWSR) : LIRSWSR :=
  mkLIRSWSR (cacheSize o) (LIRSize o) (HIRSize o) (hit o) (miss o) (writeCount o)
            (orderedStack o) (orderedList o) x (HIR o) (cache o).
Definition with_HIR (x : gmap Z Z) (o : LIRSWSR) : LIRSWSR :=
  mkLIRSWSR (cacheSize o) (LIRSize o) (HIRSize o) (hit o) (miss o) (writeCount o)
            (orderedStack o) (orderedList o) (LIR o) x (cache o).

Definition NewLIRSWSR (cacheSize HIRSize : Z) : option LIRSWSR :=
  if decide (HIRSize > 100 ∨ HIRSize < 0) then None
  else
    let LIRCapacity := GoInt.quot (GoInt.mul (GoInt.sub 100 HIRSize) cacheSize) 100 in
    let HIRCapacity := GoInt.quot (GoInt.mul HIRSize cacheSize) 100 in
    Some (mkLIRSWSR cacheSize LIRCapacity HIRCapacity 0 0 0
                    OrderedMap.NewOrderedMap OrderedMap.NewOrderedMap ∅ ∅ ∅).

(** [&BlockInfo{ColdFlag: true, access: 0}], and the same literal with
    [access] left out: the missing fields take Go's zero values. *)
Definition coldBlockInfo : BlockInfo := mkBlockInfo 0 "" false true 0.

Definition addToList (block : Z) (op : string) (o : LIRSWSR) : LIRSWSR :=
  let o :=
    if decide (OrderedMap.Len (orderedList o) = HIRSize o)
    then with_orderedList (snd (OrderedMap.PopFirst (orderedList o))) o
    else o in
  if decide (op = "W"%string) then
    let o := with_writeCount (GoInt.add (writeCount o) 1) o in
    with_orderedList
      (OrderedMap.Set_ block (ListBlock (mkBlockInfo block op true true 0))
                       (orderedList o)) o
  else
    with_orderedList
      (OrderedMap.Set_ block (ListBlock (mkBlockInfo block op false true 0))
                       (orderedList o)) o.

Definition addToStack (block : Z) (op : string) (o : LIRSWSR) : LIRSWSR :=
  match OrderedMap.Get block (orderedStack o) with
  | Some _ => with_orderedStack (OrderedMap.MoveLast block (orderedStack o)) o
  | None =>
      if decide (op = "W"%string) then
        let blockInfo := mkBlockInfo block op true true 0 in
        let o := with_writeCount (GoInt.add (writeCount o) 1) o in
        with_orderedStack (OrderedMap.Set_ block blockInfo (orderedStack o)) o
      else
        let blockInfo := mkBlockInfo block op false true 0 in
        with_orderedStack (OrderedMap.Set_ block blockInfo (orderedStack o)) o
  end.

Definition removeFromList (block : Z) (o : LIRSWSR) : LIRSWSR :=
  with_orderedList (OrderedMap.Delete block (orderedList o)) o.

Definition makeLIR (block : Z) (o : LIRSWSR) : LIRSWSR :=
  let o := with_HIR (delete block (HIR o)) o in
  with_LIR (<[block := 1]> (LIR o)) o.

Definition makeHIR (block : Z) (o : LIRSWSR) : LIRSWSR :=
  let o := with_LIR (delete block (LIR o)) o in
  with_HIR (<[block := 1]> (HIR o)) o.

Fixpoint stackPruning_loop (it : list (Z * BlockInfo)) (o : LIRSWSR) : LIRSWSR :=
  match it with
  | [] => o
  | (k, _) :: it' =>
      match LIR o !! k with
      | Some _ => o
      | None =>
          stackPruning_loop it'
            (with_orderedStack (snd (OrderedMap.PopFirst (orderedStack o))) o)
      end
  end.

Definition stackPruning (o : LIRSWSR) : LIRSWSR :=
  stackPruning_loop (OrderedMap.Iter (orderedStack o)) o.

Definition isColdFlag (block : Z) (o : LIRSWSR) : bool :=
  match OrderedMap.Get block (orderedStack o) with
  | Some blockInfo => bool_decide (access blockInfo < 2)
  | None => false
  end.

Definition isDirtyPage (block : Z) (o : LIRSWSR) : bool :=
  match OrderedMap.Get block (orderedStack o) with
  | Some blockInfo => DirtyPage blockInfo
  | None => false
  end.

Definition isBlockColdDirty (block : Z) (o : LIRSWSR) : bool :=
  match OrderedMap.Get block (orderedStack o) with
  | Some blockInfo => ColdFlag blockInfo && DirtyPage blockInfo
  | None => false
  end.

(** The [access++] writes through the pointer the stack holds. *)
Definition incrementAccess (block : Z) (o : LIRSWSR) : LIRSWSR :=
  match OrderedMap.Get block (orderedStack o) with
  | Some blockInfo =>
      let blockInfo' :=
        mkBlockInfo (Address blockInfo) (Operation blockInfo)
                    (DirtyPage blockInfo) (ColdFlag blockInfo)
                    (GoInt.add (access blockInfo) 1) in
      with_orderedStack
        (OrderedMap.overwrite block blockInfo' (orderedStack o)) o
  | None => o
  end.

Definition condition1 (removeLIR : bool) (o : LIRSWSR) : option error * LIRSWSR :=
  match OrderedMap.PopFirst (orderedStack o) with
  | (None, _) => (Some "orderedStack is empty"%string, o)
  | (Some (key, _), st) =>
      let o := with_orderedStack st o in
      let o :=
        if removeLIR then
          let block := key in
          if isBlockColdDirty block o || isColdFlag block o then
            let o := makeHIR block o in
            let o := with_orderedList
                       (OrderedMap.Set_ block (ListInt 1) (orderedList o)) o in
            with_orderedList (OrderedMap.MoveLast block (orderedList o)) o
          else
            let o := with_miss (GoInt.add (miss o) 1) o in
            let o := with_orderedStack
                       (OrderedMap.Set_ block coldBlockInfo (orderedStack o)) o in
            with_orderedStack (OrderedMap.MoveLast block (orderedStack o)) o
        else o in
      (None, stackPruning o)
  end.

Definition condition3 (removeLIR : bool) (o : LIRSWSR) : option error * LIRSWSR :=
  match OrderedMap.PopFirst (orderedStack o) with
  | (None, _) => (Some "orderedStack is empty"%string, o)
  | (Some (key, _), st) =>
      let o := with_orderedStack st o in
      let o :=
        if removeLIR then
          let block := key in
          if isBlockColdDirty block o || isColdFlag block o then
            let o := makeHIR block o in
            let o := with_orderedList
                       (OrderedMap.Set_ block (ListInt 1) (orderedList o)) o in
            with_orderedList (OrderedMap.MoveLast block (orderedList o)) o
          else
            let o := with_miss (GoInt.add (miss o) 1) o in
            let o := with_orderedStack
                       (OrderedMap.Set_ block coldBlockInfo (orderedStack o)) o in
            with_orderedStack (OrderedMap.MoveLast block (orderedStack o)) o
        else o in
      (None, stackPruning o)
  end.

(** The body of [if removeLIR], which [condition1] and [condition3] share in
    this variant, under one name. *)
Definition demote (block : Z) (o : LIRSWSR) : LIRSWSR :=
  if isBlockColdDirty block o || isColdFlag block o then
    let o := makeHIR block o in
    let o := with_orderedList
               (OrderedMap.Set_ block (ListInt 1) (orderedList o)) o in
    with_orderedList (OrderedMap.MoveLast block (orderedList o)) o
  else
    let o := with_miss (GoInt.add (miss o) 1) o in
    let o := with_orderedStack
               (OrderedMap.Set_ block coldBlockInfo (orderedStack o)) o in
    with_orderedStack (OrderedMap.MoveLast block (orderedStack o)) o.

Definition handleLIRBlock (block : Z) (op : string) (o : LIRSWSR)
  : option error * LIRSWSR :=
  let o := with_hit (GoInt.add (hit o) 1) o in
  match OrderedMap.GetFirst (orderedStack o) with
  | None => (Some "orderedStack is empty"%string, o)
  | Some (key, _) =>
      let o := if decide (key = block) then snd (condition1 false o) else o in
      let o := addToStack block op o in
      let o := with_orderedStack
                 (OrderedMap.Set_ block coldBlockInfo (orderedStack o)) o in
      (None, incrementAccess block o)
  end.

Definition handleHIRResidentBlock (block : Z) (op : string) (o : LIRSWSR) : LIRSWSR :=
  let o := with_hit (GoInt.add (hit o) 1) o in
  let o :=
    match OrderedMap.Get block (orderedStack o) with
    | Some _ =>
        let o := makeLIR block o in
        let o := removeFromList block o in
        snd (condition1 true o)
    | None =>
        let o := with_orderedList
                   (OrderedMap.MoveLast block (orderedList o)) o in
        snd (condition1 true o)
    end in
  let o := addToStack block op o in
  incrementAccess block o.

Definition handleHIRNonResidentBlock (block : Z) (op : string) (o : LIRSWSR) : LIRSWSR :=
  let o := with_miss (GoInt.add (miss o) 1) o in
  let o := addToList block op o in
  let o :=
    match OrderedMap.Get block (orderedStack o) with
    | Some _ =>
        let o := makeLIR block o in
        let o := removeFromList block o in
        snd (condition3 true o)
    | None => makeHIR block o
    end in
  let o := addToStack block op o in
  let o := with_orderedStack
             (OrderedMap.Set_ block coldBlockInfo (orderedStack o)) o in
  incrementAccess block o.

Definition Get (trace : simulator.Trace) (o : LIRSWSR) : option error * LIRSWSR :=
  let block := simulator.Addr trace in
  let op := simulator.Op trace in
  if decide (Z.of_nat (size (LIR o)) < LIRSize o) then
    let o := with_miss (GoInt.add (miss o) 1) o in
    let o :=
      match LIR o !! block with
      | Some _ =>
          let o := with_miss (GoInt.sub (miss o) 1) o in
          with_hit (GoInt.add (hit o) 1) o
      | None => o
      end in
    let o := addToStack block op o in
    let o := makeLIR block o in
    (None, o)
  else
    let o :=
      match LIR o !! block with
      | Some _ => snd (handleLIRBlock block op o)
      | None =>
          match OrderedMap.Get block (orderedList o) with
          | Some _ => handleHIRResidentBlock block op o
          | None => handleHIRNonResidentBlock block op o
          end
      end in
    (None, o).

Definition run (tr : list simulator.Trace) (o : LIRSWSR) : LIRSWSR :=
  fold_left (fun o t => snd (Get t o)) tr o.

End LIRSWSR2.

(** ** The LRU engine ([src/lru/lru.go]) *)

Module LRU.

(** A node without its [elem] handle.  The handle of a node points at the
    element of [lrulist] that carries the node; [lrulist] holds one element
    per node of [tlba] and nodes are told apart by [lba], so the element a
    handle points at is the one with the node's [lba]. *)
Record NodeLba : Type := mkNodeLba {
  lba : Z;
  lastaccess : Z;
  op : string
}.

(** [tlba] is a left-leaning red-black tree ordered by [Less], that is by
    [lba]: a finite map from [lba] to the node.  [lrulist] is a
    [container/list] list, front first. *)
Record LRU : Type := mkLRU {
  maxlen : Z;
  available : Z;
  totalaccess : Z;
  hit : Z;
  miss : Z;
  pagefault : Z;
  write : Z;
  tlba : gmap Z NodeLba;
  lrulist : list NodeLba
}.

Definition NewLRU (cacheSize : Z) : LRU :=
  mkLRU cacheSize cacheSize 0 0 0 0 0 ∅ [].

(** [lrulist.Remove(e)] for the element that carries the node [lba]. *)
Definition list_Remove (a : Z) (l : list NodeLba) : list NodeLba :=
  List.filter (fun n => negb (bool_decide (lba n = a))) l.

(** [lrulist.Back()]: [nil] on an empty list. *)
Definition list_Back (l : list NodeLba) : option NodeLba := last l.

(** [put] with the address it evicted, if any.  [None] is the run-time
    panic of [el.Value] on the [nil] that [Back] returns for an empty
    list.  Both calls of [InsertNoReplace] come after a failed [tlba.Get]
    of the same [lba], so they add a key the tree does not hold. *)
Definition put_evict (data : NodeLba) (lru : LRU)
  : option (bool * option Z * LRU) :=
  match tlba lru !! lba data with
  | Some dd =>
      let hit' := GoInt.add (hit lru) 1 in
      let write' :=
        if decide (op data = "W"%string) then GoInt.add (write lru) 1
        else write lru in
      let l := dd :: list_Remove (lba dd) (lrulist lru) in
      Some (true, None,
            mkLRU (maxlen lru) (available lru) (totalaccess lru) hit'
                  (miss lru) (pagefault lru) write' (tlba lru) l)
  | None =>
      let miss' := GoInt.add (miss lru) 1 in
      let write' := GoInt.add (write lru) 1 in
      if decide (available lru > 0) then
        Some (false, None,
              mkLRU (maxlen lru) (GoInt.sub (available lru) 1)
                    (totalaccess lru) (hit lru) miss' (pagefault lru) write'
                    (<[lba data := data]> (tlba lru))
                    (data :: lrulist lru))
      else
        match list_Back (lrulist lru) with
        | None => None
        | Some el =>
            let t := delete (lba el) (tlba lru) in
            let l := list_Remove (lba el) (lrulist lru) in
            Some (false, Some (lba el),
                  mkLRU (maxlen lru) (available lru) (totalaccess lru)
                        (hit lru) miss' (GoInt.add (pagefault lru) 1) write'
                        (<[lba data := data]> t)
                        (data :: l))
        end
  end.

Definition put (data : NodeLba) (lru : LRU) : option (bool * LRU) :=
  (fun r => (fst (fst r), snd r)) <$> put_evict data lru.

(** [Get] with the address evicted; the result of [put] is dropped. *)
Definition Get_evict (trace : simulator.Trace) (lru : LRU)
  : option (option Z * LRU) :=
  let lru := mkLRU (maxlen lru) (available lru)
                   (GoInt.add (totalaccess lru) 1) (hit lru) (miss lru)
                   (pagefault lru) (write lru) (tlba lru) (lrulist lru) in
  let obj := mkNodeLba (simulator.Addr trace) (totalaccess lru)
                       (simulator.Op trace) in
  (fun r => (snd (fst r), snd r)) <$> put_evict obj lru.

Definition Get (trace : simulator.Trace) (lru : LRU) : option (option error * LRU) :=
  (fun r => (None, snd r)) <$> Get_evict trace lru.

(** The driver; [None] once a [Get] has panicked. *)
Definition run (tr : list simulator.Trace) (lru : LRU) : option LRU :=
  fold_left (fun o t => o ≫= fun lru => snd <$> Get t lru) tr (Some lru).

Definition resident (lru : LRU) : list Z := List.map lba (lrulist lru).

(** [Less]: the order the tree keeps its nodes in. *)
Definition Less (x than : NodeLba) : bool := lba x <? lba than.

End LRU.

(** ** Traces and the properties the theorems speak of *)

Definition R (a : Z) : simulator.Trace := simulator.mkTrace a "R".
Definition W (a : Z) : simulator.Trace := simulator.mkTrace a "W".

(** The oldest entry of a stack, if any, is in the LIR set. *)
Definition bottom_in {V : Type} (lir : gmap Z Z) (st : OrderedMap.t V) : Prop :=
  match OrderedMap.GetFirst st with
  | None => True
  | Some (k, _) => is_Some (lir !! k)
  end.

(** The two capacity bounds of the LIRS engines. *)
Definition within_capacity {V : Type}
    (lir : gmap Z Z) (q : OrderedMap.t V) (lirCap hirCap : Z) : Prop :=
  Z.of_nat (size lir) <= lirCap ∧ OrderedMap.Len q <= hirCap.

(** The evictions of an LRU run, one entry per access. *)
Fixpoint LRU_evictions (tr : list simulator.Trace) (lru : LRU.LRU)
  : option (list (option Z) * LRU.LRU) :=
  match tr with
  | [] => Some ([], lru)
  | t :: tr' =>
      match LRU.Get_evict t lru with
      | None => None
      | Some (e, lru') =>
          match LRU_evictions tr' lru' with
          | None => None
          | Some (es, lru'') => Some (e :: es, lru'')
          end
      end
  end.



(** The state of the LRU engine is consistent: the free capacity and the
    recency list add up to [maxlen], the list holds each address once, and
    the tree indexes exactly the nodes of the list. *)
Definition LRU_inv (lru : LRU.LRU) : Prop :=
  0 <= LRU.available lru ∧
  Z.of_nat (length (LRU.lrulist lru)) + LRU.available lru = LRU.maxlen lru ∧
  GoInt.in_range (LRU.maxlen lru) ∧
  NoDup (LRU.resident lru) ∧
  (∀ a, is_Some (LRU.tlba lru !! a) <-> a ∈ LRU.resident lru) ∧
  (∀ a n, LRU.tlba lru !! a = Some n -> LRU.lba n = a) ∧
  size (LRU.tlba lru) = length (LRU.lrulist lru).

(** What truncating division leaves of the split of [c] into the capacities
    [L] and [H] at [h] percent. *)
Definition capacity_split (c h L H : Z) : Prop :=
  L = Z.quot ((100 - h) * c) 100 ∧ H = Z.quot (h * c) 100 ∧
  c - 1 <= L + H <= c ∧ (L + H = c <-> (h * c) mod 100 = 0).

(** No address is in both residency classes. *)
Definition classes_disjoint (lir hir : gmap Z Z) : Prop :=
  ∀ k, lir !! k = None ∨ hir !! k = None.

(** Every address of a class has an entry in a container. *)
Definition held_in {V : Type} (cls : gmap Z Z) (om : OrderedMap.t V) : Prop :=
  ∀ k, is_Some (cls !! k) -> is_Some (OrderedMap.Get k om).

(** Every key of a container is an address of a class. *)
Definition keys_in {V : Type} (om : OrderedMap.t V) (cls : gmap Z Z) : Prop :=
  ∀ k, is_Some (OrderedMap.Get k om) -> is_Some (cls !! k).

(** The counters of the LRU engine after [n] accesses. *)
Definition LRU_counted (lru : LRU.LRU) (n : Z) : Prop :=
  LRU.totalaccess lru = n ∧
  LRU.hit lru + LRU.miss lru = n ∧
  0 <= LRU.hit lru ∧ 0 <= LRU.pagefault lru ∧
  LRU.miss lru = Z.of_nat (length (LRU.lrulist lru)) + LRU.pagefault lru ∧
  LRU.miss lru <= LRU.write lru <= n.

(** A full LRU engine of capacity two: address 2 was accessed last. *)
Definition LRU_filled : LRU.LRU :=
  LRU.mkLRU 2 0 2 0 2 0 2
            {[ 1 := LRU.mkNodeLba 1 1 "R"; 2 := LRU.mkNodeLba 2 2 "W" ]}
            [LRU.mkNodeLba 2 2 "W"; LRU.mkNodeLba 1 1 "R"].

(** The three LIRS engines of capacity four, half of it for HIR blocks,
    after the accesses that fill the LIR set: addresses 1 and 2 are LIR. *)
Definition LIRS_filled : LIRS.LIRS :=
  LIRS.run [R 1; W 2] (LIRS.mkLIRS 4 2 2 0 0 0 [] [] ∅ ∅ ∅).

Definition LIRSWSR_filled : LIRSWSR.LIRSWSR :=
  LIRSWSR.run [R 1; W 2] (LIRSWSR.mkLIRSWSR 4 2 2 0 0 0 [] [] ∅ ∅ ∅).

Definition LIRSWSR2_filled : LIRSWSR2.LIRSWSR :=
  LIRSWSR2.run [R 1; W 2] (LIRSWSR2.mkLIRSWSR 4 2 2 0 0 0 [] [] ∅ ∅ ∅).

(** [Get] of the first LIRS-WSR variant hands the access to
    [handleHIRResidentBlock]: the LIR set is full and the block is in list
    Q and not in the LIR set. *)
Definition LIRSWSR_hir_resident (trace : simulator.Trace) (o : LIRSWSR.LIRSWSR)
  : bool :=
  negb (bool_decide (Z.of_nat (size (LIRSWSR.LIR o)) < LIRSWSR.LIRSize o)) &&
  negb (bool_decide (is_Some (LIRSWSR.LIR o !! simulator.Addr trace))) &&
  bool_decide (is_Some (OrderedMap.Get (simulator.Addr trace)
                                       (LIRSWSR.orderedList o))).

(** [Get] of the second LIRS-WSR variant reaches a call of
    [condition1 true] or [condition3 true]: the LIR set is full, the block
    is not in it, and the block is in list Q or in stack S. *)
Definition LIRSWSR2_demotes (trace : simulator.Trace) (o : LIRSWSR2.LIRSWSR)
  : bool :=
  negb (bool_decide (Z.of_nat (size (LIRSWSR2.LIR o)) < LIRSWSR2.LIRSize o)) &&
  negb (bool_decide (is_Some (LIRSWSR2.LIR o !! simulator.Addr trace))) &&
  (bool_decide (is_Some (OrderedMap.Get (simulator.Addr trace)
                                        (LIRSWSR2.orderedList o))) ||
   bool_decide (is_Some (OrderedMap.Get (simulator.Addr trace)
                                        (LIRSWSR2.orderedStack o)))).

(** The accesses of a run that are handed to [handleHIRResidentBlock]. *)
Fixpoint LIRSWSR_hir_resident_accesses
    (tr : list simulator.Trace) (o : LIRSWSR.LIRSWSR) : nat :=
  match tr with
  | [] => 0
  | t :: tr' =>
      ((if LIRSWSR_hir_resident t o then 1 else 0)
       + LIRSWSR_hir_resident_accesses tr' (snd (LIRSWSR.Get t o)))%nat
  end.

(** The accesses of a run that reach a demotion. *)
Fixpoint LIRSWSR2_demotions
    (tr : list simulator.Trace) (o : LIRSWSR2.LIRSWSR) : nat :=
  match tr with
  | [] => 0
  | t :: tr' =>
      ((if LIRSWSR2_demotes t o then 1 else 0)
       + LIRSWSR2_demotions tr' (snd (LIRSWSR2.Get t o)))%nat
  end.

(** * Facts *)

Local Set Warnings "-clear-no-such-hyp".

(** ** Go integers *)

Module GoIntFacts.
Import GoInt.

Lemma wrap_id z : in_range z -> wrap z = z.
Proof.
  unfold in_range, min_int, max_int, wrap. intros H.
  rewrite Z.mod_small; lia.
Qed.

Lemma wrap_in_range z : in_range (wrap z).
Proof.
  unfold in_range, min_int, max_int, wrap.
  pose proof (Z.mod_pos_bound (z + 2 ^ 63) (2 ^ 64)). lia.
Qed.

Lemma add_id a b : in_range (a + b) -> add a b = a + b.
Proof. apply wrap_id. Qed.

Lemma sub_id a b : in_range (a - b) -> sub a b = a - b.
Proof. apply wrap_id. Qed.

Lemma mul_id a b : in_range (a * b) -> mul a b = a * b.
Proof. apply wrap_id. Qed.

Lemma quot_id a b : in_range (Z.quot a b) -> quot a b = Z.quot a b.
Proof. apply wrap_id. Qed.

End GoIntFacts.

(** ** The ordered container *)

Module OrderedMapFacts.
Import OrderedMap.

Section Facts.
Context {V : Type}.
Implicit Types (om : OrderedMap.t V) (k key : Z) (v : V).

Lemma Get_None_keys key om : Get key om = None <-> key ∉ keys om.
Proof.
  induction om as [|[k v] om IH]; simpl.
  - split; [intros _; apply not_elem_of_nil | done].
  - rewrite not_elem_of_cons. destruct (decide (k = key)) as [->|Hne].
    + split; [done | intros [? _]; done].
    + rewrite IH. split; [intros ?; split; [congruence | done] | intros [_ ?]; done].
Qed.

Lemma Get_Some_keys key om : is_Some (Get key om) <-> key ∈ keys om.
Proof.
  destruct (Get key om) eqn:E.
  - split; [intros _ | eauto].
    destruct (decide (key ∈ keys om)) as [|Hn]; [done|].
    apply Get_None_keys in Hn. congruence.
  - apply Get_None_keys in E. split; [intros [? ?]; done | done].
Qed.

Lemma keys_overwrite key v om : keys (overwrite key v om) = keys om.
Proof.
  induction om as [|[k w] om IH]; simpl; [done|].
  destruct (decide (k = key)); simpl; [done | by rewrite IH].
Qed.

Lemma length_overwrite key v om : length (overwrite key v om) = length om.
Proof.
  induction om as [|[k w] om IH]; simpl; [done|].
  destruct (decide (k = key)); simpl; [done | by rewrite IH].
Qed.

Lemma Get_overwrite key v om :
  is_Some (Get key om) -> Get key (overwrite key v om) = Some v.
Proof.
  induction om as [|[k w] om IH]; simpl; [intros [? ?]; done|].
  destruct (decide (k = key)) as [->|Hne]; simpl.
  - by rewrite decide_True.
  - rewrite decide_False by done. apply IH.
Qed.

Lemma Get_app_None key om om' :
  Get key om = None -> Get key (om ++ om') = Get key om'.
Proof.
  induction om as [|[k w] om IH]; simpl; [done|].
  destruct (decide (k = key)); [done | apply IH].
Qed.

Lemma Get_snoc_fresh key v om :
  Get key om = None -> Get key (om ++ [(key, v)]) = Some v.
Proof.
  intros H. rewrite Get_app_None by done. simpl. by rewrite decide_True.
Qed.

Lemma Get_Set_eq key v om : Get key (Set_ key v om) = Some v.
Proof.
  unfold Set_. destruct (Get key om) eqn:E.
  - apply Get_overwrite. eauto.
  - by apply Get_snoc_fresh.
Qed.

Lemma length_Set_le key v om : (length (Set_ key v om) <= S (length om))%nat.
Proof.
  unfold Set_. destruct (Get key om).
  - rewrite length_overwrite. lia.
  - rewrite length_app. simpl. lia.
Qed.

Lemma length_Set_present key v om :
  is_Some (Get key om) -> length (Set_ key v om) = length om.
Proof.
  intros [w E]. unfold Set_. rewrite E. apply length_overwrite.
Qed.

Lemma keys_Delete key om :
  keys (Delete key om) = List.filter (fun k => negb (bool_decide (k = key))) (keys om).
Proof.
  induction om as [|[k w] om IH]; simpl; [done|].
  destruct (bool_decide (k = key)); simpl; by rewrite IH.
Qed.

Lemma length_Delete_le key om : (length (Delete key om) <= length om)%nat.
Proof. apply List.filter_length_le. Qed.

Lemma length_Delete_lt key om :
  is_Some (Get key om) -> (length (Delete key om) < length om)%nat.
Proof.
  induction om as [|[k w] om IH]; simpl; [intros [? ?]; done|].
  destruct (decide (k = key)) as [->|Hne].
  - intros _. rewrite bool_decide_eq_true_2 by done. simpl.
    pose proof (length_Delete_le key om). unfold Delete in *. lia.
  - intros H. rewrite bool_decide_eq_false_2 by done. simpl.
    specialize (IH H). unfold Delete in *. lia.
Qed.

Lemma Get_Delete_eq key om : Get key (Delete key om) = None.
Proof.
  induction om as [|[k w] om IH]; simpl; [done|].
  destruct (decide (k = key)) as [->|Hne].
  - rewrite bool_decide_eq_true_2 by done. simpl. apply IH.
  - rewrite bool_decide_eq_false_2 by done. simpl.
    rewrite decide_False by done. apply IH.
Qed.

Lemma length_MoveLast_le key om : (length (MoveLast key om) <= length om)%nat.
Proof.
  unfold MoveLast. destruct (Get key om) eqn:E; [|done].
  rewrite length_app. simpl.
  assert (is_Some (Get key om)) as H by eauto.
  apply length_Delete_lt in H. lia.
Qed.

Lemma length_PopFirst_le om : (length (snd (PopFirst om)) <= length om)%nat.
Proof. destruct om; simpl; lia. Qed.

Lemma Len_nonneg om : 0 <= Len om.
Proof. unfold Len. lia. Qed.

Lemma wf_nil : wf (@NewOrderedMap V).
Proof. apply NoDup_nil_2. Qed.

Lemma wf_overwrite key v om : wf om -> wf (overwrite key v om).
Proof. unfold wf. by rewrite keys_overwrite. Qed.

Lemma wf_snoc key v om : wf om -> Get key om = None -> wf (om ++ [(key, v)]).
Proof.
  unfold wf, keys. intros Hnd Hg. rewrite List.map_app. simpl.
  apply NoDup_app. split; [done|]. split.
  - intros x Hx Hx'. apply list_elem_of_singleton in Hx'. subst x.
    by apply Get_None_keys in Hg.
  - apply NoDup_singleton.
Qed.

Lemma wf_Set key v om : wf om -> wf (Set_ key v om).
Proof.
  intros H. unfold Set_. destruct (Get key om) eqn:E.
  - by apply wf_overwrite.
  - by apply wf_snoc.
Qed.

Lemma wf_Delete key om : wf om -> wf (Delete key om).
Proof.
  unfold wf. rewrite keys_Delete. intros H.
  induction H as [|k l Hk Hl IH]; simpl; [apply NoDup_nil_2|].
  destruct (bool_decide (k = key)); simpl; [done|].
  apply NoDup_cons. split; [|done].
  intros Hin. apply Hk. apply list_elem_of_In in Hin.
  apply List.filter_In in Hin as [Hin _]. by apply list_elem_of_In.
Qed.

Lemma wf_MoveLast key om : wf om -> wf (MoveLast key om).
Proof.
  intros H. unfold MoveLast. destruct (Get key om) eqn:E; [|done].
  apply wf_snoc; [by apply wf_Delete | apply Get_Delete_eq].
Qed.

Lemma wf_PopFirst om : wf om -> wf (snd (PopFirst om)).
Proof.
  destruct om as [|[k w] om]; simpl; [done|].
  unfold wf. simpl. intros H. by apply NoDup_cons in H as [_ H].
Qed.

(** Once popped, the oldest key is gone from the container. *)
Lemma Get_popped key v om : wf ((key, v) :: om) -> Get key om = None.
Proof.
  unfold wf. simpl. intros H. apply NoDup_cons in H as [H _].
  by apply Get_None_keys.
Qed.

End Facts.
End OrderedMapFacts.

(** ** Construction: the capacity split *)

Section Capacities.
Import GoInt GoIntFacts.

Local Ltac exists_three_then_split Hs :=
  do 3 eexists;
  split; [reflexivity|]; split; [reflexivity|]; split; [reflexivity|];
  simpl; split; [exact Hs|]; split; exact Hs.

Lemma capacity_split_arith c h :
  0 < c -> 0 <= h <= 100 -> 100 * c <= max_int ->
  capacity_split c h (quot (mul (sub 100 h) c) 100) (quot (mul h c) 100).
Proof.
  intros Hc Hh Hmax.
  assert (Hmax' : max_int = 2 ^ 63 - 1) by reflexivity.
  assert (Hmin' : min_int = - 2 ^ 63) by reflexivity.
  assert (0 < 2 ^ 63) by lia.
  rewrite sub_id by (unfold in_range; lia).
  assert (0 <= (100 - h) * c <= 100 * c) by nia.
  assert (0 <= h * c <= 100 * c) by nia.
  rewrite !mul_id by (unfold in_range; lia).
  unfold quot. rewrite !Z.quot_div_nonneg by lia.
  assert (0 <= (100 - h) * c / 100 <= (100 - h) * c)
    by (split; [apply Z.div_pos; lia | apply Z.div_le_upper_bound; lia]).
  assert (0 <= h * c / 100 <= h * c)
    by (split; [apply Z.div_pos; lia | apply Z.div_le_upper_bound; lia]).
  rewrite !wrap_id by (unfold in_range; lia).
  unfold capacity_split. rewrite !Z.quot_div_nonneg by lia.
  split; [done|]. split; [done|].
  clear Hmax Hmax' Hmin'.
  pose proof (Z.div_mod ((100 - h) * c) 100 ltac:(lia)).
  pose proof (Z.div_mod (h * c) 100 ltac:(lia)).
  pose proof (Z.mod_pos_bound ((100 - h) * c) 100 ltac:(lia)).
  pose proof (Z.mod_pos_bound (h * c) 100 ltac:(lia)).
  split; [lia|]. split; lia.
Qed.

(** C8, as the code has it: the two truncated quotients add up to
    [cacheSize] exactly when [hirPercent * cacheSize] is a multiple of 100,
    and to [cacheSize - 1] otherwise; this holds for the constructors of
    the LIRS engine and of both LIRS-WSR variants. *)
Theorem capacities_sum_amended (cacheSize hirPercent : Z) :
  0 < cacheSize -> 0 <= hirPercent <= 100 -> 100 * cacheSize <= max_int ->
  ∃ o o1 o2,
    LIRS.NewLIRS cacheSize hirPercent = Some o ∧
    LIRSWSR.NewLIRSWSR cacheSize hirPercent = Some o1 ∧
    LIRSWSR2.NewLIRSWSR cacheSize hirPercent = Some o2 ∧
    capacity_split cacheSize hirPercent (LIRS.LIRSize o) (LIRS.HIRSize o) ∧
    capacity_split cacheSize hirPercent (LIRSWSR.LIRSize o1) (LIRSWSR.HIRSize o1) ∧
    capacity_split cacheSize hirPercent (LIRSWSR2.LIRSize o2) (LIRSWSR2.HIRSize o2).
Proof.
  intros Hc Hh Hmax.
  pose proof (capacity_split_arith cacheSize hirPercent Hc Hh Hmax) as Hs.
  unfold LIRS.NewLIRS, LIRSWSR.NewLIRSWSR, LIRSWSR2.NewLIRSWSR.
  destruct (decide (hirPercent > 100 ∨ hirPercent < 0)) as [Hbad|_]; [lia|].
  exists_three_then_split Hs.
Qed.

Lemma capacities_sum_amended_witness :
  ∃ o o1 o2,
    LIRS.NewLIRS 3 50 = Some o ∧
    LIRSWSR.NewLIRSWSR 3 50 = Some o1 ∧
    LIRSWSR2.NewLIRSWSR 3 50 = Some o2 ∧
    capacity_split 3 50 (LIRS.LIRSize o) (LIRS.HIRSize o) ∧
    capacity_split 3 50 (LIRSWSR.LIRSize o1) (LIRSWSR.HIRSize o1) ∧
    capacity_split 3 50 (LIRSWSR2.LIRSize o2) (LIRSWSR2.HIRSize o2).
Proof.
  apply (capacities_sum_amended 3 50); [lia | lia | vm_compute; discriminate].
Defined.

(** C8 as stated fails: at [cacheSize = 1] and [hirPercent = 50] both
    capacities are 0. *)
Lemma capacities_sum_counterexample :
  ∃ o o1 o2,
    LIRS.NewLIRS 1 50 = Some o ∧
    LIRSWSR.NewLIRSWSR 1 50 = Some o1 ∧
    LIRSWSR2.NewLIRSWSR 1 50 = Some o2 ∧
    LIRS.LIRSize o + LIRS.HIRSize o ≠ 1 ∧
    LIRSWSR.LIRSize o1 + LIRSWSR.HIRSize o1 ≠ 1 ∧
    LIRSWSR2.LIRSize o2 + LIRSWSR2.HIRSize o2 ≠ 1.
Proof.
  do 3 eexists. repeat split; try reflexivity; vm_compute; discriminate.
Qed.

End Capacities.

(** ** The LIRS engine *)

Module LIRSFacts.
Import GoInt GoIntFacts OrderedMap OrderedMapFacts LIRS.

(** Pruning touches the stack only. *)
Lemma lirs_stackPruning_loop_frame it o :
  ∃ st, stackPruning_loop it o = with_orderedStack st o.
Proof.
  revert o. induction it as [|[k v] it IH]; intros o; simpl.
  - exists (orderedStack o). by destruct o.
  - destruct (LIR o !! k).
    + exists (orderedStack o). by destruct o.
    + destruct (IH (with_orderedStack (snd (PopFirst (orderedStack o))) o)) as [st ->].
      by exists st.
Qed.

Lemma lirs_stackPruning_frame o : ∃ st, stackPruning o = with_orderedStack st o.
Proof. apply lirs_stackPruning_loop_frame. Qed.

(** While the iterator and the stack agree, the loop stops on an empty
    stack or on an oldest entry that is in the LIR set. *)
Lemma lirs_stackPruning_loop_bottom it o :
  orderedStack o = it ->
  bottom_in (LIR (stackPruning_loop it o)) (orderedStack (stackPruning_loop it o)).
Proof.
  revert o. induction it as [|[k v] it IH]; intros o Hst; simpl.
  - unfold bottom_in. by rewrite Hst.
  - destruct (LIR o !! k) eqn:E.
    + unfold bottom_in. rewrite Hst. simpl. eauto.
    + apply IH. simpl. by rewrite Hst.
Qed.

Lemma lirs_stackPruning_bottom o :
  bottom_in (LIR (stackPruning o)) (orderedStack (stackPruning o)).
Proof. by apply lirs_stackPruning_loop_bottom. Qed.

Lemma lirs_condition1_bottom removeLIR o :
  match condition1 removeLIR o with
  | (Some _, o') => o' = o ∧ orderedStack o = []
  | (None, o') => bottom_in (LIR o') (orderedStack o')
  end.
Proof.
  unfold condition1. destruct (orderedStack o) as [|[key v] st] eqn:E; simpl.
  - done.
  - apply lirs_stackPruning_bottom.
Qed.

(** What [condition1] leaves alone. *)
Lemma lirs_condition1_counters removeLIR o :
  let o' := snd (condition1 removeLIR o) in
  hit o' = hit o ∧ miss o' = miss o ∧ writeCount o' = writeCount o ∧
  LIRSize o' = LIRSize o ∧ HIRSize o' = HIRSize o.
Proof.
  unfold condition1. destruct (PopFirst (orderedStack o)) as [[[key v]|] st]; simpl.
  - match goal with |- context [stackPruning ?x] =>
      destruct (lirs_stackPruning_frame x) as [st' ->] end.
    by destruct removeLIR.
  - done.
Qed.

Lemma lirs_condition1_writeCount removeLIR o :
  writeCount (snd (condition1 removeLIR o)) = writeCount o.
Proof. apply lirs_condition1_counters. Qed.

Lemma lirs_condition1_list_false o :
  orderedList (snd (condition1 false o)) = orderedList o.
Proof.
  unfold condition1. destruct (PopFirst (orderedStack o)) as [[[key v]|] st]; simpl.
  - match goal with |- context [stackPruning ?x] =>
      destruct (lirs_stackPruning_frame x) as [st' ->] end. done.
  - done.
Qed.

Lemma lirs_condition1_list_true o :
  (length (orderedList (snd (condition1 true o))) <= S (length (orderedList o)))%nat.
Proof.
  unfold condition1. destruct (PopFirst (orderedStack o)) as [[[key v]|] st]; simpl.
  - match goal with |- context [stackPruning ?x] =>
      destruct (lirs_stackPruning_frame x) as [st' ->] end. simpl.
    etrans; [apply length_MoveLast_le | apply length_Set_le].
  - lia.
Qed.

Lemma lirs_addToStack_frame block o :
  ∃ st, addToStack block o = with_orderedStack st o.
Proof. unfold addToStack. destruct (OrderedMap.Get block (orderedStack o)); eauto. Qed.

Lemma lirs_addToList_length block o :
  1 <= HIRSize o -> Len (orderedList o) <= HIRSize o ->
  Len (orderedList (addToList block o)) <= HIRSize o ∧
  is_Some (OrderedMap.Get block (orderedList (addToList block o))).
Proof.
  unfold addToList, Len. intros H1 Hle.
  destruct (decide (Z.of_nat (length (orderedList o)) = HIRSize o)) as [Heq|Hne]; simpl.
  - split; [|rewrite Get_Set_eq; eauto].
    pose proof (length_Set_le block 1 (snd (PopFirst (orderedList o)))) as HS.
    destruct (orderedList o) as [|e q]; simpl in *; lia.
  - split; [|rewrite Get_Set_eq; eauto].
    pose proof (length_Set_le block 1 (orderedList o)). lia.
Qed.

Ltac lirs_int_simpl :=
  repeat match goal with
    | |- context [add ?a ?b] =>
        rewrite (add_id a b) by (unfold in_range, min_int, max_int in *; lia)
    | |- context [sub ?a ?b] =>
        rewrite (sub_id a b) by (unfold in_range, min_int, max_int in *; lia)
    end;
  unfold max_int, min_int in *.

(** One [Get] counts one hit or one miss. *)
Lemma lirs_Get_counts trace o :
  0 <= hit o -> 0 <= miss o -> hit o + miss o < max_int ->
  let o' := snd (LIRS.Get trace o) in
  hit o' + miss o' = hit o + miss o + 1 ∧ hit o <= hit o' ∧ miss o <= miss o'.
Proof.
  intros Hh Hm Hmax. unfold LIRS.Get.
  set (o1 := if decide (simulator.Op trace = "W"%string)
             then with_writeCount (GoInt.add (writeCount o) 1) o else o).
  assert (Hh1 : hit o1 = hit o) by (subst o1; by destruct (decide _)).
  assert (Hm1 : miss o1 = miss o) by (subst o1; by destruct (decide _)).
  rewrite <- Hh1, <- Hm1 in *. clearbody o1. clear Hh1 Hm1 o.
  destruct (decide (Z.of_nat (size (LIR o1)) < LIRSize o1)); simpl.
  - match goal with |- context [addToStack ?b ?x] =>
      destruct (lirs_addToStack_frame b x) as [st ->] end.
    simpl. destruct (LIR o1 !! simulator.Addr trace); simpl; lirs_int_simpl; lia.
  - destruct (LIR o1 !! simulator.Addr trace).
    + unfold handleLIRBlock. simpl.
      destruct (GetFirst (orderedStack o1)) as [[key v]|]; simpl;
        [|lirs_int_simpl; lia].
      match goal with |- context [addToStack ?b ?x] =>
        destruct (lirs_addToStack_frame b x) as [st ->] end.
      simpl. destruct (decide (key = simulator.Addr trace)); simpl.
      * destruct (lirs_condition1_counters false (with_hit (add (hit o1) 1) o1))
          as (-> & -> & _). simpl. lirs_int_simpl; lia.
      * lirs_int_simpl; lia.
    + destruct (OrderedMap.Get (simulator.Addr trace) (orderedList o1)).
      * unfold handleHIRResidentBlock.
        match goal with |- context [addToStack ?b ?x] =>
          destruct (lirs_addToStack_frame b x) as [st ->] end.
        simpl. destruct (OrderedMap.Get _ (orderedStack _)); simpl.
        -- match goal with |- context [condition1 true ?x] =>
             destruct (lirs_condition1_counters true x) as (-> & -> & _) end.
           simpl. lirs_int_simpl; lia.
        -- lirs_int_simpl; lia.
      * unfold handleHIRNonResidentBlock.
        match goal with |- context [addToStack ?b ?x] =>
          destruct (lirs_addToStack_frame b x) as [st ->] end.
        simpl. destruct (OrderedMap.Get _ (orderedStack _)); simpl.
        -- match goal with |- context [condition1 true ?x] =>
             destruct (lirs_condition1_counters true x) as (-> & -> & _) end.
           unfold addToList. simpl. destruct (decide _); simpl; lirs_int_simpl; lia.
        -- unfold addToList. simpl. destruct (decide _); simpl; lirs_int_simpl; lia.
Qed.

Lemma lirs_run_counts tr : ∀ o k,
  0 <= hit o -> 0 <= miss o -> hit o + miss o = k ->
  k + Z.of_nat (length tr) <= max_int ->
  hit o <= hit (run tr o) ∧ miss o <= miss (run tr o) ∧
  hit (run tr o) + miss (run tr o) = k + Z.of_nat (length tr).
Proof.
  induction tr as [|t tr IH]; intros o k Hh Hm Hk Hmax; simpl in *.
  - lia.
  - destruct (lirs_Get_counts t o Hh Hm ltac:(lia)) as (Hs & Hh' & Hm').
    destruct (IH (snd (LIRS.Get t o)) (k + 1)) as (? & ? & ?);
      try lia; unfold run; lia.
Qed.

(** The capacities are fixed at construction. *)
Lemma lirs_Get_sizes trace o :
  LIRSize (snd (LIRS.Get trace o)) = LIRSize o ∧
  HIRSize (snd (LIRS.Get trace o)) = HIRSize o.
Proof.
  unfold LIRS.Get.
  set (o1 := if decide (simulator.Op trace = "W"%string)
             then with_writeCount (GoInt.add (writeCount o) 1) o else o).
  assert (Hl : LIRSize o1 = LIRSize o) by (subst o1; by destruct (decide _)).
  assert (Hc : HIRSize o1 = HIRSize o) by (subst o1; by destruct (decide _)).
  rewrite <- Hl, <- Hc. clearbody o1. clear Hl Hc o.
  destruct (decide (Z.of_nat (size (LIR o1)) < LIRSize o1)); simpl.
  - match goal with |- context [addToStack ?b ?x] =>
      destruct (lirs_addToStack_frame b x) as [st ->] end.
    simpl. by destruct (LIR o1 !! simulator.Addr trace).
  - destruct (LIR o1 !! simulator.Addr trace).
    + unfold handleLIRBlock. simpl.
      destruct (GetFirst (orderedStack o1)) as [[key v]|]; simpl; [|done].
      match goal with |- context [addToStack ?b ?x] =>
        destruct (lirs_addToStack_frame b x) as [st ->] end.
      simpl. destruct (decide (key = simulator.Addr trace)); simpl; [|done].
      destruct (lirs_condition1_counters false (with_hit (add (hit o1) 1) o1))
        as (_ & _ & _ & -> & ->). done.
    + destruct (OrderedMap.Get (simulator.Addr trace) (orderedList o1)).
      * unfold handleHIRResidentBlock.
        match goal with |- context [addToStack ?b ?x] =>
          destruct (lirs_addToStack_frame b x) as [st ->] end.
        simpl. destruct (OrderedMap.Get _ (orderedStack _)); simpl; [|done].
        match goal with |- context [condition1 true ?x] =>
          destruct (lirs_condition1_counters true x) as (_ & _ & _ & -> & ->) end.
        done.
      * unfold handleHIRNonResidentBlock.
        match goal with |- context [addToStack ?b ?x] =>
          destruct (lirs_addToStack_frame b x) as [st ->] end.
        simpl. destruct (OrderedMap.Get _ (orderedStack _)); simpl.
        -- match goal with |- context [condition1 true ?x] =>
             destruct (lirs_condition1_counters true x) as (_ & _ & _ & -> & ->) end.
           unfold addToList. simpl. by destruct (decide _).
        -- unfold addToList. simpl. by destruct (decide _).
Qed.

(** One [Get] keeps list Q within a capacity of at least one. *)
Lemma lirs_Get_list_bound trace o :
  1 <= HIRSize o -> Len (orderedList o) <= HIRSize o ->
  Len (orderedList (snd (LIRS.Get trace o))) <= HIRSize o.
Proof.
  intros H1 Hle. unfold LIRS.Get.
  set (o1 := if decide (simulator.Op trace = "W"%string)
             then with_writeCount (GoInt.add (writeCount o) 1) o else o).
  assert (Hq : orderedList o1 = orderedList o) by (subst o1; by destruct (decide _)).
  assert (Hc : HIRSize o1 = HIRSize o) by (subst o1; by destruct (decide _)).
  rewrite <- Hq, <- Hc in *. clearbody o1. clear Hq Hc o.
  unfold Len in *.
  destruct (decide (Z.of_nat (size (LIR o1)) < LIRSize o1)); simpl.
  - match goal with |- context [addToStack ?b ?x] =>
      destruct (lirs_addToStack_frame b x) as [st ->] end.
    simpl.
    assert (orderedList (match LIR o1 !! simulator.Addr trace with
              | Some _ => with_hit (add (hit o1) 1)
                            (with_miss (sub (add (miss o1) 1) 1) (with_miss (add (miss o1) 1) o1))
              | None => with_miss (add (miss o1) 1) o1 end) = orderedList o1) as ->
      by (by destruct (LIR o1 !! _)).
    pose proof (length_Delete_le (simulator.Addr trace) (orderedList o1)). lia.
  - destruct (LIR o1 !! simulator.Addr trace).
    + unfold handleLIRBlock. simpl.
      destruct (GetFirst (orderedStack o1)) as [[key v]|]; simpl; [|done].
      match goal with |- context [addToStack ?b ?x] =>
        destruct (lirs_addToStack_frame b x) as [st ->] end.
      simpl. destruct (decide (key = simulator.Addr trace)); simpl; [|done].
      by rewrite lirs_condition1_list_false.
    + destruct (OrderedMap.Get (simulator.Addr trace) (orderedList o1)) eqn:EQ.
      * unfold handleHIRResidentBlock.
        match goal with |- context [addToStack ?b ?x] =>
          destruct (lirs_addToStack_frame b x) as [st ->] end.
        simpl. destruct (OrderedMap.Get _ (orderedStack _)); simpl.
        -- match goal with |- context [condition1 true ?x] =>
             pose proof (lirs_condition1_list_true x) as Hc end.
           simpl in Hc.
           pose proof (length_Delete_le (simulator.Addr trace)
                         (Delete (simulator.Addr trace) (orderedList o1))).
           pose proof (length_Delete_lt (simulator.Addr trace) (orderedList o1)
                         ltac:(eauto)).
           lia.
        -- pose proof (length_MoveLast_le (simulator.Addr trace) (orderedList o1)).
           lia.
      * unfold handleHIRNonResidentBlock.
        match goal with |- context [addToStack ?b ?x] =>
          destruct (lirs_addToStack_frame b x) as [st ->] end.
        destruct (lirs_addToList_length (simulator.Addr trace)
                    (with_miss (add (miss o1) 1) o1) H1 Hle) as [Hlen Hin].
        change (HIRSize (with_miss (add (miss o1) 1) o1)) with (HIRSize o1) in Hlen.
        set (o2 := addToList (simulator.Addr trace)
                     (with_miss (add (miss o1) 1) o1)) in *.
        clearbody o2. unfold Len in Hlen.
        destruct (OrderedMap.Get _ (orderedStack o2)); simpl; [|done].
        pose proof (lirs_condition1_list_true
                      (removeFromList (simulator.Addr trace)
                         (makeLIR (simulator.Addr trace) o2))) as Hc.
        simpl in Hc.
        pose proof (length_Delete_le (simulator.Addr trace)
                      (Delete (simulator.Addr trace) (orderedList o2))).
        pose proof (length_Delete_lt (simulator.Addr trace) (orderedList o2) Hin).
        lia.
Qed.

Lemma lirs_run_list_bound tr : ∀ o,
  1 <= HIRSize o -> Len (orderedList o) <= HIRSize o ->
  HIRSize (run tr o) = HIRSize o ∧
  Len (orderedList (run tr o)) <= HIRSize o.
Proof.
  induction tr as [|t tr IH]; intros o H1 Hle; simpl; [done|].
  destruct (lirs_Get_sizes t o) as [_ Hs].
  destruct (IH (snd (LIRS.Get t o))) as [IH1 IH2].
  - by rewrite Hs.
  - rewrite Hs. by apply lirs_Get_list_bound.
  - rewrite Hs in IH1, IH2. exact (conj IH1 IH2).
Qed.

Lemma lirs_condition1_true_LIR o key v st :
  orderedStack o = (key, v) :: st ->
  LIR (snd (condition1 true o)) = delete key (LIR o).
Proof.
  intros E. unfold condition1. rewrite E. simpl.
  match goal with |- context [stackPruning ?x] =>
    destruct (lirs_stackPruning_frame x) as [st' ->] end.
  done.
Qed.

Lemma lirs_promote_size (lir : gmap Z Z) block key :
  lir !! block = None -> is_Some (lir !! key) ->
  size (delete key (<[block := 1]> lir)) = size lir.
Proof.
  intros Hb Hk.
  assert (key ≠ block) by (intros ->; destruct Hk; congruence).
  rewrite map_size_delete_Some by (by rewrite lookup_insert_ne).
  by rewrite map_size_insert_None.
Qed.

(** A [Get] that starts within the LIR capacity, with the oldest entry of S
    in the LIR set, ends within the LIR capacity: the promotion puts one
    block in and the demotion takes the oldest entry of S out. *)
Lemma lirs_Get_LIR_bound trace o :
  Z.of_nat (size (LIR o)) <= LIRSize o ->
  bottom_in (LIR o) (orderedStack o) ->
  Z.of_nat (size (LIR (snd (LIRS.Get trace o)))) <= LIRSize o.
Proof.
  intros Hle Hbot. unfold LIRS.Get.
  set (o1 := if decide (simulator.Op trace = "W"%string)
             then with_writeCount (GoInt.add (writeCount o) 1) o else o).
  assert (Hl : LIR o1 = LIR o) by (subst o1; by destruct (decide _)).
  assert (Hc : LIRSize o1 = LIRSize o) by (subst o1; by destruct (decide _)).
  assert (Hs : orderedStack o1 = orderedStack o) by (subst o1; by destruct (decide _)).
  rewrite <- Hl, <- Hc, <- Hs in *. clearbody o1. clear Hl Hc Hs o.
  set (block := simulator.Addr trace).
  destruct (decide (Z.of_nat (size (LIR o1)) < LIRSize o1)) as [Hlt|Hge]; simpl.
  - match goal with |- context [addToStack ?b ?x] =>
      destruct (lirs_addToStack_frame b x) as [st ->] end.
    simpl.
    assert (LIR (match LIR o1 !! block with
                 | Some _ => with_hit (add (hit o1) 1)
                               (with_miss (sub (add (miss o1) 1) 1)
                                  (with_miss (add (miss o1) 1) o1))
                 | None => with_miss (add (miss o1) 1) o1 end) = LIR o1) as ->
      by (by destruct (LIR o1 !! _)).
    rewrite map_size_insert. destruct (LIR o1 !! block); simpl; lia.
  - destruct (LIR o1 !! block) eqn:EL.
    + unfold handleLIRBlock. simpl.
      destruct (GetFirst (orderedStack o1)) as [[key v]|]; simpl; [|done].
      match goal with |- context [addToStack ?b ?x] =>
        destruct (lirs_addToStack_frame b x) as [st ->] end.
      simpl. destruct (decide (key = block)); simpl; [|done].
      unfold condition1. simpl.
      destruct (PopFirst (orderedStack o1)) as [[[k' v']|] st']; simpl; [|done].
      match goal with |- context [stackPruning ?x] =>
        destruct (lirs_stackPruning_frame x) as [st'' ->] end.
      done.
    + assert (Hprom : ∀ x : LIRS,
                LIR x = LIR o1 -> orderedStack x = orderedStack o1 ->
                is_Some (OrderedMap.Get block (orderedStack x)) ->
                Z.of_nat (size (LIR (snd (condition1 true
                            (removeFromList block (makeLIR block x))))))
                  <= LIRSize o1).
      { intros x HxL HxS [w Hw]. rewrite HxS in Hw.
        destruct (orderedStack o1) as [|[key v] st] eqn:ES; [done|].
        rewrite (lirs_condition1_true_LIR _ key v st) by (simpl; by rewrite HxS).
        simpl. rewrite HxL. unfold bottom_in in Hbot. simpl in Hbot.
        rewrite lirs_promote_size by done. done. }
      destruct (OrderedMap.Get block (orderedList o1)).
      * unfold handleHIRResidentBlock.
        match goal with |- context [addToStack ?b ?x] =>
          destruct (lirs_addToStack_frame b x) as [st ->] end.
        simpl. destruct (OrderedMap.Get block (orderedStack o1)) eqn:EG; simpl; [|done].
        apply (Hprom (with_hit (add (hit o1) 1) o1)); simpl; eauto.
      * unfold handleHIRNonResidentBlock.
        match goal with |- context [addToStack ?b ?x] =>
          destruct (lirs_addToStack_frame b x) as [st ->] end.
        assert (Hfr : LIR (addToList block (with_miss (add (miss o1) 1) o1)) = LIR o1 ∧
                      orderedStack (addToList block (with_miss (add (miss o1) 1) o1))
                        = orderedStack o1)
          by (unfold addToList; simpl; by destruct (decide _)).
        destruct Hfr as [HfL HfS].
        set (o2 := addToList block (with_miss (add (miss o1) 1) o1)) in *.
        clearbody o2. simpl.
        destruct (OrderedMap.Get block (orderedStack o2)) eqn:EG; simpl.
        -- apply (Hprom o2); eauto.
        -- rewrite HfL. rewrite map_size_delete_None by done. done.
Qed.

(** C6, as the code has it: [Get] adds one to [writeCount] on every access
    whose operation is "W", whether or not the block already is in stack S,
    and leaves [writeCount] alone on every other operation. *)
Theorem lirs_write_per_access_amended (trace : simulator.Trace) (o : LIRS) :
  writeCount (snd (LIRS.Get trace o)) =
    if decide (simulator.Op trace = "W"%string)
    then GoInt.add (writeCount o) 1 else writeCount o.
Proof.
  unfold Get.
  set (o1 := if decide (simulator.Op trace = "W"%string)
             then with_writeCount (GoInt.add (writeCount o) 1) o else o).
  assert (Hw : writeCount o1 =
               if decide (simulator.Op trace = "W"%string)
               then GoInt.add (writeCount o) 1 else writeCount o)
    by (subst o1; by destruct (decide _)).
  rewrite <- Hw. clearbody o1. clear Hw.
  destruct (decide (Z.of_nat (size (LIR o1)) < LIRSize o1)); simpl.
  - match goal with |- context [addToStack ?b ?x] =>
      destruct (lirs_addToStack_frame b x) as [st ->] end.
    simpl. by destruct (LIR o1 !! simulator.Addr trace).
  - destruct (LIR o1 !! simulator.Addr trace).
    + unfold handleLIRBlock. simpl.
      destruct (GetFirst (orderedStack o1)) as [[key v]|]; simpl; [|done].
      match goal with |- context [addToStack ?b ?x] =>
        destruct (lirs_addToStack_frame b x) as [st ->] end.
      simpl. destruct (decide (key = simulator.Addr trace)); [|done].
      by rewrite lirs_condition1_writeCount.
    + destruct (OrderedMap.Get (simulator.Addr trace) (orderedList o1)).
      * unfold handleHIRResidentBlock.
        match goal with |- context [addToStack ?b ?x] =>
          destruct (lirs_addToStack_frame b x) as [st ->] end.
        simpl. destruct (OrderedMap.Get _ (orderedStack _)); [|done].
        by rewrite lirs_condition1_writeCount.
      * unfold handleHIRNonResidentBlock.
        match goal with |- context [addToStack ?b ?x] =>
          destruct (lirs_addToStack_frame b x) as [st ->] end.
        simpl. destruct (OrderedMap.Get _ (orderedStack _)).
        -- rewrite lirs_condition1_writeCount.
           unfold addToList. simpl. by destruct (decide _).
        -- unfold addToList. simpl. by destruct (decide _).
Qed.

(** C6 as stated fails: the second write of block 1 finds it in stack S and
    still increments [writeCount]. *)
Lemma lirs_write_first_only_counterexample :
  ∃ o, NewLIRS 4 50 = Some o ∧
       is_Some (OrderedMap.Get 1 (orderedStack (run [W 1] o))) ∧
       writeCount (run [W 1] o) = 1 ∧
       writeCount (snd (LIRS.Get (W 1) (run [W 1] o))) = 2.
Proof.
  eexists. split; [reflexivity|]. split; [vm_compute; eauto|].
  split; vm_compute; reflexivity.
Qed.

End LIRSFacts.

(** ** The LIRS-WSR engine, first variant *)

Module LIRSWSRFacts.
Import GoInt GoIntFacts OrderedMap OrderedMapFacts LIRSWSR.

Ltac wsr_int_simpl :=
  repeat match goal with
    | |- context [add ?a ?b] =>
        rewrite (add_id a b) by (unfold in_range, min_int, max_int in *; lia)
    | |- context [sub ?a ?b] =>
        rewrite (sub_id a b) by (unfold in_range, min_int, max_int in *; lia)
    end;
  unfold max_int, min_int in *.

Lemma wsr_stackPruning_loop_frame it o :
  ∃ st, stackPruning_loop it o = with_orderedStack st o.
Proof.
  revert o. induction it as [|[k v] it IH]; intros o; simpl.
  - exists (orderedStack o). by destruct o.
  - destruct (LIR o !! k).
    + exists (orderedStack o). by destruct o.
    + destruct (IH (with_orderedStack (snd (PopFirst (orderedStack o))) o)) as [st ->].
      by exists st.
Qed.

Lemma wsr_stackPruning_frame o : ∃ st, stackPruning o = with_orderedStack st o.
Proof. apply wsr_stackPruning_loop_frame. Qed.

Lemma wsr_stackPruning_loop_bottom it o :
  orderedStack o = it ->
  bottom_in (LIR (stackPruning_loop it o)) (orderedStack (stackPruning_loop it o)).
Proof.
  revert o. induction it as [|[k v] it IH]; intros o Hst; simpl.
  - unfold bottom_in. by rewrite Hst.
  - destruct (LIR o !! k) eqn:E.
    + unfold bottom_in. rewrite Hst. simpl. eauto.
    + apply IH. simpl. by rewrite Hst.
Qed.

Lemma wsr_stackPruning_bottom o :
  bottom_in (LIR (stackPruning o)) (orderedStack (stackPruning o)).
Proof. by apply wsr_stackPruning_loop_bottom. Qed.

Lemma wsr_condition1_bottom removeLIR o :
  match condition1 removeLIR o with
  | (Some _, o') => o' = o ∧ orderedStack o = []
  | (None, o') => bottom_in (LIR o') (orderedStack o')
  end.
Proof.
  unfold condition1. destruct (orderedStack o) as [|[key v] st] eqn:E; simpl.
  - done.
  - apply wsr_stackPruning_bottom.
Qed.

Lemma wsr_condition3_bottom removeLIR o :
  match condition3 removeLIR o with
  | (Some _, o') => o' = o ∧ orderedStack o = []
  | (None, o') => bottom_in (LIR o') (orderedStack o')
  end.
Proof.
  unfold condition3. destruct (orderedStack o) as [|[key v] st] eqn:E; simpl.
  - done.
  - apply wsr_stackPruning_bottom.
Qed.

Lemma wsr_condition1_demote removeLIR o :
  condition1 removeLIR o =
    match PopFirst (orderedStack o) with
    | (None, _) => (Some "orderedStack is empty"%string, o)
    | (Some (key, _), st) =>
        (None, stackPruning
                 (if removeLIR then demote true key (with_orderedStack st o)
                  else with_orderedStack st o))
    end.
Proof. unfold condition1. by destruct removeLIR. Qed.

Lemma wsr_condition3_demote removeLIR o :
  condition3 removeLIR o =
    match PopFirst (orderedStack o) with
    | (None, _) => (Some "orderedStack is empty"%string, o)
    | (Some (key, _), st) =>
        (None, stackPruning
                 (if removeLIR then demote false key (with_orderedStack st o)
                  else with_orderedStack st o))
    end.
Proof. unfold condition3. by destruct removeLIR. Qed.

(** The test of [demote] looks the block up in the stack: for a block that
    is not there both [isBlockDirty] and [isBlockCold] answer [false], and
    the block is put back on the stack. *)
Lemma wsr_demote_absent countHit block o :
  OrderedMap.Get block (orderedStack o) = None ->
  demote countHit block o =
    with_orderedStack
      (MoveLast block (Set_ block coldBlockInfo (orderedStack o))) o.
Proof.
  intros H. unfold demote, isBlockDirty, isBlockCold. by rewrite H.
Qed.

Lemma wsr_demote_counters countHit block o :
  let o' := demote countHit block o in
  (hit o' = hit o ∨ countHit = true ∧ hit o' = add (hit o) 1) ∧
  miss o' = miss o ∧ writeCount o' = writeCount o ∧
  LIRSize o' = LIRSize o ∧ HIRSize o' = HIRSize o ∧
  (length (orderedList o') <= S (length (orderedList o)))%nat.
Proof.
  unfold demote. destruct (isBlockDirty block o || isBlockCold block o); simpl.
  - destruct countHit; simpl;
      (split; [eauto|]); repeat (split; [done|]);
      (etrans; [apply length_MoveLast_le | apply length_Set_le]).
  - split; [eauto|]. repeat (split; [done|]). lia.
Qed.

Lemma wsr_condition1_counters removeLIR o :
  let o' := snd (condition1 removeLIR o) in
  (hit o' = hit o ∨ removeLIR = true ∧ hit o' = add (hit o) 1) ∧
  miss o' = miss o ∧ writeCount o' = writeCount o ∧
  LIRSize o' = LIRSize o ∧ HIRSize o' = HIRSize o ∧
  (length (orderedList o') <= S (length (orderedList o)))%nat.
Proof.
  cbv zeta. rewrite wsr_condition1_demote. destruct (PopFirst (orderedStack o)) as [[[key v]|] st]; simpl.
  - match goal with |- context [stackPruning ?x] =>
      destruct (wsr_stackPruning_frame x) as [st' ->] end.
    simpl. destruct removeLIR.
    + destruct (wsr_demote_counters true key (with_orderedStack st o))
        as (Hh & ? & ? & ? & ? & ?).
      split; [destruct Hh as [?|[_ ?]]; eauto|]. done.
    + simpl. split; [eauto|]. repeat (split; [done|]). lia.
  - split; [eauto|]. repeat (split; [done|]). lia.
Qed.

Lemma wsr_condition3_counters removeLIR o :
  let o' := snd (condition3 removeLIR o) in
  hit o' = hit o ∧ miss o' = miss o ∧ writeCount o' = writeCount o ∧
  LIRSize o' = LIRSize o ∧ HIRSize o' = HIRSize o ∧
  (length (orderedList o') <= S (length (orderedList o)))%nat.
Proof.
  cbv zeta. rewrite wsr_condition3_demote. destruct (PopFirst (orderedStack o)) as [[[key v]|] st]; simpl.
  - match goal with |- context [stackPruning ?x] =>
      destruct (wsr_stackPruning_frame x) as [st' ->] end.
    simpl. destruct removeLIR.
    + destruct (wsr_demote_counters false key (with_orderedStack st o))
        as (Hh & ? & ? & ? & ? & ?).
      split; [destruct Hh as [?|[? _]]; [done | discriminate]|]. done.
    + simpl. repeat (split; [done|]). lia.
  - repeat (split; [done|]). lia.
Qed.

Lemma wsr_condition1_false o :
  let o' := snd (condition1 false o) in
  hit o' = hit o ∧ orderedList o' = orderedList o.
Proof.
  cbv zeta. rewrite wsr_condition1_demote. destruct (PopFirst (orderedStack o)) as [[[key v]|] st]; simpl.
  - match goal with |- context [stackPruning ?x] =>
      destruct (wsr_stackPruning_frame x) as [st' ->] end. done.
  - done.
Qed.

Lemma wsr_addToStack_frame block op o :
  ∃ st w, addToStack block op o = with_orderedStack st (with_writeCount w o).
Proof.
  unfold addToStack. destruct (OrderedMap.Get block (orderedStack o)).
  - eexists _, (writeCount o). by destruct o.
  - destruct (decide (op = "W"%string)).
    + by eexists _, _.
    + eexists _, (writeCount o). by destruct o.
Qed.

Lemma wsr_addToList_frame block op o :
  ∃ q w, addToList block op o = with_orderedList q (with_writeCount w o).
Proof.
  unfold addToList.
  destruct (decide (Len (orderedList o) = HIRSize o));
    destruct (decide (op = "W"%string)); simpl.
  - by eexists _, _.
  - eexists _, (writeCount o). by destruct o.
  - by eexists _, _.
  - eexists _, (writeCount o). by destruct o.
Qed.

Lemma wsr_addToList_length block op o :
  1 <= HIRSize o -> Len (orderedList o) <= HIRSize o ->
  Len (orderedList (addToList block op o)) <= HIRSize o ∧
  is_Some (OrderedMap.Get block (orderedList (addToList block op o))).
Proof.
  unfold addToList, Len. intros H1 Hle.
  destruct (decide (Z.of_nat (length (orderedList o)) = HIRSize o)) as [Heq|Hne];
    destruct (decide (op = "W"%string)); simpl;
    (split; [|rewrite Get_Set_eq; eauto]).
  all: match goal with |- context [Set_ ?b ?v ?q] =>
         pose proof (length_Set_le b v q) as HS end.
  all: destruct (orderedList o) as [|? ?]; simpl in *; lia.
Qed.

Ltac wsr_frame_addToStack :=
  match goal with |- context [addToStack ?b ?op ?x] =>
    destruct (wsr_addToStack_frame b op x) as (? & ? & ->) end.

(** One [Get] counts at most one hit or miss, and takes nothing back. *)
Lemma wsr_Get_counts trace o :
  0 <= hit o -> 0 <= miss o -> hit o + miss o < max_int ->
  let o' := snd (LIRSWSR.Get trace o) in
  hit o <= hit o' ∧ miss o <= miss o' ∧
  hit o' + miss o' <= hit o + miss o + 1.
Proof.
  intros Hh Hm Hmax. unfold LIRSWSR.Get.
  destruct (decide (Z.of_nat (size (LIR o)) < LIRSize o)); simpl.
  - wsr_frame_addToStack.
    simpl. destruct (LIR o !! simulator.Addr trace); simpl; wsr_int_simpl; lia.
  - destruct (LIR o !! simulator.Addr trace).
    + unfold handleLIRBlock. simpl.
      destruct (GetFirst (orderedStack o)) as [[key v]|]; simpl;
        [|wsr_int_simpl; lia].
      wsr_frame_addToStack.
      simpl. destruct (decide (key = simulator.Addr trace)); simpl.
      * destruct (wsr_condition1_false (with_hit (add (hit o) 1) o)) as [-> _].
        destruct (wsr_condition1_counters false (with_hit (add (hit o) 1) o))
          as (_ & -> & _). simpl. wsr_int_simpl; lia.
      * wsr_int_simpl; lia.
    + destruct (OrderedMap.Get (simulator.Addr trace) (orderedList o)).
      * unfold handleHIRResidentBlock. wsr_frame_addToStack.
        simpl. destruct (OrderedMap.Get _ (orderedStack _)); simpl; [|lia].
        match goal with |- context [condition1 true ?x] =>
          destruct (wsr_condition1_counters true x) as (Hc & -> & _) end.
        simpl in *. destruct Hc as [->|[_ ->]]; wsr_int_simpl; lia.
      * unfold handleHIRNonResidentBlock. wsr_frame_addToStack.
        destruct (wsr_addToList_frame (simulator.Addr trace) (simulator.Op trace)
                    (with_miss (add (miss o) 1) o)) as (q & w & ->).
        simpl. destruct (OrderedMap.Get _ (orderedStack _)); simpl.
        -- match goal with |- context [condition3 true ?x] =>
             destruct (wsr_condition3_counters true x) as (-> & -> & _) end.
           simpl. wsr_int_simpl; lia.
        -- wsr_int_simpl; lia.
Qed.

Lemma wsr_run_counts tr : ∀ o k,
  0 <= hit o -> 0 <= miss o -> hit o + miss o <= k ->
  k + Z.of_nat (length tr) <= max_int ->
  hit o <= hit (run tr o) ∧ miss o <= miss (run tr o) ∧
  hit (run tr o) + miss (run tr o) <= k + Z.of_nat (length tr).
Proof.
  induction tr as [|t tr IH]; intros o k Hh Hm Hk Hmax; simpl in *.
  - lia.
  - destruct (wsr_Get_counts t o Hh Hm ltac:(lia)) as (Hh' & Hm' & Hs).
    destruct (IH (snd (LIRSWSR.Get t o)) (k + 1)) as (? & ? & ?);
      try lia; unfold run; lia.
Qed.

(** Outside the HIR-resident path one [Get] counts exactly one hit or
    miss. *)
Lemma wsr_Get_counts_exact trace o :
  0 <= hit o -> 0 <= miss o -> hit o + miss o < max_int ->
  LIRSWSR_hir_resident trace o = false ->
  hit (snd (LIRSWSR.Get trace o)) + miss (snd (LIRSWSR.Get trace o))
    = hit o + miss o + 1.
Proof.
  intros Hh Hm Hmax. unfold LIRSWSR_hir_resident, LIRSWSR.Get.
  destruct (decide (Z.of_nat (size (LIR o)) < LIRSize o)); simpl.
  - intros _. wsr_frame_addToStack.
    simpl. destruct (LIR o !! simulator.Addr trace); simpl; wsr_int_simpl; lia.
  - rewrite bool_decide_eq_false_2 by done. simpl.
    destruct (LIR o !! simulator.Addr trace) eqn:EL.
    + intros _. unfold handleLIRBlock. simpl.
      destruct (GetFirst (orderedStack o)) as [[key v]|]; simpl;
        [|wsr_int_simpl; lia].
      wsr_frame_addToStack.
      simpl. destruct (decide (key = simulator.Addr trace)); simpl.
      * destruct (wsr_condition1_false (with_hit (add (hit o) 1) o)) as [-> _].
        destruct (wsr_condition1_counters false (with_hit (add (hit o) 1) o))
          as (_ & -> & _). simpl. wsr_int_simpl; lia.
      * wsr_int_simpl; lia.
    + rewrite bool_decide_eq_false_2 by (intros [? ?]; done). simpl.
      destruct (OrderedMap.Get (simulator.Addr trace) (orderedList o)) eqn:EQ.
      * rewrite bool_decide_eq_true_2 by eauto. done.
      * intros _. unfold handleHIRNonResidentBlock. wsr_frame_addToStack.
        destruct (wsr_addToList_frame (simulator.Addr trace) (simulator.Op trace)
                    (with_miss (add (miss o) 1) o)) as (q & w & ->).
        simpl. destruct (OrderedMap.Get _ (orderedStack _)); simpl.
        -- match goal with |- context [condition3 true ?x] =>
             destruct (wsr_condition3_counters true x) as (-> & -> & _) end.
           simpl. wsr_int_simpl; lia.
        -- wsr_int_simpl; lia.
Qed.

Lemma wsr_run_counts_resident tr : ∀ o,
  0 <= hit o -> 0 <= miss o ->
  hit o + miss o + Z.of_nat (length tr) <= max_int ->
  hit o + miss o + Z.of_nat (length tr)
    - Z.of_nat (LIRSWSR_hir_resident_accesses tr o)
    <= hit (run tr o) + miss (run tr o).
Proof.
  induction tr as [|t tr IH]; intros o Hh Hm Hmax; simpl in *.
  - lia.
  - destruct (wsr_Get_counts t o Hh Hm ltac:(lia)) as (Hh' & Hm' & Hs).
    pose proof (IH (snd (LIRSWSR.Get t o)) ltac:(lia) ltac:(lia) ltac:(lia)) as HI.
    unfold run in *.
    destruct (LIRSWSR_hir_resident t o) eqn:E.
    + lia.
    + pose proof (wsr_Get_counts_exact t o Hh Hm ltac:(lia) E). lia.
Qed.

Lemma wsr_Get_sizes trace o :
  LIRSize (snd (LIRSWSR.Get trace o)) = LIRSize o ∧
  HIRSize (snd (LIRSWSR.Get trace o)) = HIRSize o.
Proof.
  unfold LIRSWSR.Get.
  destruct (decide (Z.of_nat (size (LIR o)) < LIRSize o)); simpl.
  - wsr_frame_addToStack. simpl. by destruct (LIR o !! simulator.Addr trace).
  - destruct (LIR o !! simulator.Addr trace).
    + unfold handleLIRBlock. simpl.
      destruct (GetFirst (orderedStack o)) as [[key v]|]; simpl; [|done].
      wsr_frame_addToStack.
      simpl. destruct (decide (key = simulator.Addr trace)); simpl; [|done].
      destruct (wsr_condition1_counters false (with_hit (add (hit o) 1) o))
        as (_ & _ & _ & -> & -> & _). done.
    + destruct (OrderedMap.Get (simulator.Addr trace) (orderedList o)).
      * unfold handleHIRResidentBlock. wsr_frame_addToStack.
        simpl. destruct (OrderedMap.Get _ (orderedStack _)); simpl; [|done].
        match goal with |- context [condition1 true ?x] =>
          destruct (wsr_condition1_counters true x) as (_ & _ & _ & -> & -> & _) end.
        done.
      * unfold handleHIRNonResidentBlock. wsr_frame_addToStack.
        destruct (wsr_addToList_frame (simulator.Addr trace) (simulator.Op trace)
                    (with_miss (add (miss o) 1) o)) as (q & w & ->).
        simpl. destruct (OrderedMap.Get _ (orderedStack _)); simpl; [|done].
        match goal with |- context [condition3 true ?x] =>
          destruct (wsr_condition3_counters true x) as (_ & _ & _ & -> & -> & _) end.
        done.
Qed.

Lemma wsr_Get_list_bound trace o :
  1 <= HIRSize o -> Len (orderedList o) <= HIRSize o ->
  Len (orderedList (snd (LIRSWSR.Get trace o))) <= HIRSize o.
Proof.
  intros H1 Hle. unfold LIRSWSR.Get. unfold Len in *.
  destruct (decide (Z.of_nat (size (LIR o)) < LIRSize o)); simpl.
  - wsr_frame_addToStack. simpl. by destruct (LIR o !! simulator.Addr trace).
  - destruct (LIR o !! simulator.Addr trace).
    + unfold handleLIRBlock. simpl.
      destruct (GetFirst (orderedStack o)) as [[key v]|]; simpl; [|done].
      wsr_frame_addToStack.
      simpl. destruct (decide (key = simulator.Addr trace)); simpl; [|done].
      by destruct (wsr_condition1_false (with_hit (add (hit o) 1) o)) as [_ ->].
    + destruct (OrderedMap.Get (simulator.Addr trace) (orderedList o)) eqn:EQ.
      * unfold handleHIRResidentBlock. wsr_frame_addToStack.
        simpl. destruct (OrderedMap.Get _ (orderedStack _)); simpl.
        -- match goal with |- context [condition1 true ?x] =>
             destruct (wsr_condition1_counters true x) as (_ & _ & _ & _ & _ & Hc) end.
           simpl in Hc.
           pose proof (length_Delete_lt (simulator.Addr trace) (orderedList o)
                         ltac:(eauto)).
           lia.
        -- pose proof (length_MoveLast_le (simulator.Addr trace) (orderedList o)).
           lia.
      * unfold handleHIRNonResidentBlock. wsr_frame_addToStack.
        destruct (wsr_addToList_length (simulator.Addr trace) (simulator.Op trace)
                    (with_miss (add (miss o) 1) o) H1 Hle) as [Hlen Hin].
        change (HIRSize (with_miss (add (miss o) 1) o)) with (HIRSize o) in Hlen.
        set (o2 := addToList (simulator.Addr trace) (simulator.Op trace)
                     (with_miss (add (miss o) 1) o)) in *.
        clearbody o2. unfold Len in Hlen.
        simpl. destruct (OrderedMap.Get _ (orderedStack o2)); simpl; [|done].
        match goal with |- context [condition3 true ?x] =>
          destruct (wsr_condition3_counters true x) as (_ & _ & _ & _ & _ & Hc) end.
        simpl in Hc.
        pose proof (length_Delete_lt (simulator.Addr trace) (orderedList o2) Hin).
        lia.
Qed.

Lemma wsr_run_list_bound tr : ∀ o,
  1 <= HIRSize o -> Len (orderedList o) <= HIRSize o ->
  HIRSize (run tr o) = HIRSize o ∧
  Len (orderedList (run tr o)) <= HIRSize o.
Proof.
  induction tr as [|t tr IH]; intros o H1 Hle; simpl; [done|].
  destruct (wsr_Get_sizes t o) as [_ Hs].
  destruct (IH (snd (LIRSWSR.Get t o))) as [IH1 IH2].
  - by rewrite Hs.
  - rewrite Hs. by apply wsr_Get_list_bound.
  - rewrite Hs in IH1, IH2. exact (conj IH1 IH2).
Qed.

(** C10: in the steady state, a write to a block that is in none of the
    LIR set, list Q and stack S adds exactly two to [writeCount]: one in
    [addToList], which puts the block into Q with [DirtyPage] set, and one
    in [addToStack], which puts it into S with [DirtyPage] set. *)
Theorem wsr_fresh_write_counts_twice (block : Z) (o : LIRSWSR) :
  ¬ Z.of_nat (size (LIR o)) < LIRSize o ->
  LIR o !! block = None ->
  OrderedMap.Get block (orderedList o) = None ->
  OrderedMap.Get block (orderedStack o) = None ->
  in_range (writeCount o) -> in_range (writeCount o + 2) ->
  let o' := snd (LIRSWSR.Get (simulator.mkTrace block "W") o) in
  writeCount o' = writeCount o + 2 ∧
  writeCount (addToList block "W" o) = writeCount o + 1 ∧
  OrderedMap.Get block (orderedList o') =
    Some (ListBlock (mkBlockInfo block "W" true true 0)) ∧
  OrderedMap.Get block (orderedStack o') =
    Some (mkBlockInfo block "W" true true 0).
Proof.
  intros Hfull Hlir Hq Hs Hr Hr2. unfold LIRSWSR.Get. simpl.
  rewrite decide_False by done. rewrite Hlir, Hq.
  unfold handleHIRNonResidentBlock, addToList. simpl.
  set (q := orderedList
              (if decide (Len (orderedList o) = HIRSize o)
               then with_orderedList (snd (PopFirst (orderedList o)))
                      (with_miss (add (miss o) 1) o)
               else with_miss (add (miss o) 1) o)).
  assert (Hq' : OrderedMap.Get block q = None).
  { subst q. destruct (decide _); simpl; [|done].
    destruct (orderedList o) as [|[k v] q']; simpl in *; [done|].
    by destruct (decide (k = block)). }
  assert (Hfr : ∀ (x : LIRSWSR),
    (if decide (Len (orderedList o) = HIRSize o)
     then with_orderedList (snd (PopFirst (orderedList o)))
            (with_miss (add (miss o) 1) o)
     else with_miss (add (miss o) 1) o) = x ->
    orderedStack x = orderedStack o ∧ writeCount x = writeCount o).
  { intros x <-. by destruct (decide _). }
  destruct (Hfr _ eq_refl) as [Hst Hw].
  set (o1 := if decide (Len (orderedList o) = HIRSize o)
             then with_orderedList (snd (PopFirst (orderedList o)))
                    (with_miss (add (miss o) 1) o)
             else with_miss (add (miss o) 1) o) in *.
  clearbody o1. clear Hfr. simpl. rewrite Hst, Hs. simpl.
  unfold addToStack. simpl. rewrite Hst, Hs. simpl.
  rewrite Hw. rewrite !Get_Set_eq.
  assert (writeCount
            (if decide (Len (orderedList o) = HIRSize o)
             then with_orderedList (snd (PopFirst (orderedList o))) o
             else o) = writeCount o) as -> by (by destruct (decide _)).
  assert (add (writeCount o) 1 = writeCount o + 1) as ->
    by (apply add_id; unfold in_range, min_int, max_int in *; lia).
  assert (add (writeCount o + 1) 1 = writeCount o + 2) as ->
    by (rewrite add_id; [lia | unfold in_range, min_int, max_int in *; lia]).
  done.
Qed.

Lemma wsr_fresh_write_counts_twice_witness :
  ∃ o, NewLIRSWSR 4 50 = Some o ∧
    let s := run [R 1; R 2] o in
    let s' := snd (LIRSWSR.Get (W 3) s) in
    writeCount s' = writeCount s + 2 ∧
    writeCount (addToList 3 "W" s) = writeCount s + 1 ∧
    OrderedMap.Get 3 (orderedList s') =
      Some (ListBlock (mkBlockInfo 3 "W" true true 0)) ∧
    OrderedMap.Get 3 (orderedStack s') = Some (mkBlockInfo 3 "W" true true 0).
Proof.
  eexists. split; [reflexivity|].
  apply (wsr_fresh_write_counts_twice 3 (run [R 1; R 2]
           (mkLIRSWSR 4 2 2 0 0 0 NewOrderedMap NewOrderedMap ∅ ∅ ∅)));
    vm_compute; try reflexivity; intuition discriminate.
Defined.

End LIRSWSRFacts.

(** ** The LIRS-WSR engine, second variant *)

Module LIRSWSR2Facts.
Import GoInt GoIntFacts OrderedMap OrderedMapFacts LIRSWSR2.

Ltac wsr2_int_simpl :=
  repeat match goal with
    | |- context [add ?a ?b] =>
        rewrite (add_id a b) by (unfold in_range, min_int, max_int in *; lia)
    | |- context [sub ?a ?b] =>
        rewrite (sub_id a b) by (unfold in_range, min_int, max_int in *; lia)
    end;
  unfold max_int, min_int in *.

Lemma wsr2_stackPruning_loop_frame it o :
  ∃ st, stackPruning_loop it o = with_orderedStack st o ∧
        (wf (orderedStack o) -> wf st).
Proof.
  revert o. induction it as [|[k v] it IH]; intros o; simpl.
  - exists (orderedStack o). by destruct o.
  - destruct (LIR o !! k).
    + exists (orderedStack o). by destruct o.
    + destruct (IH (with_orderedStack (snd (PopFirst (orderedStack o))) o))
        as (st & -> & Hwf).
      exists st. split; [done|]. intros H. apply Hwf. simpl. by apply wf_PopFirst.
Qed.

Lemma wsr2_stackPruning_frame o :
  ∃ st, stackPruning o = with_orderedStack st o ∧ (wf (orderedStack o) -> wf st).
Proof. apply wsr2_stackPruning_loop_frame. Qed.

Lemma wsr2_stackPruning_loop_bottom it o :
  orderedStack o = it ->
  bottom_in (LIR (stackPruning_loop it o)) (orderedStack (stackPruning_loop it o)).
Proof.
  revert o. induction it as [|[k v] it IH]; intros o Hst; simpl.
  - unfold bottom_in. by rewrite Hst.
  - destruct (LIR o !! k) eqn:E.
    + unfold bottom_in. rewrite Hst. simpl. eauto.
    + apply IH. simpl. by rewrite Hst.
Qed.

Lemma wsr2_stackPruning_bottom o :
  bottom_in (LIR (stackPruning o)) (orderedStack (stackPruning o)).
Proof. by apply wsr2_stackPruning_loop_bottom. Qed.

Lemma wsr2_condition1_bottom removeLIR o :
  match condition1 removeLIR o with
  | (Some _, o') => o' = o ∧ orderedStack o = []
  | (None, o') => bottom_in (LIR o') (orderedStack o')
  end.
Proof.
  unfold condition1. destruct (orderedStack o) as [|[key v] st] eqn:E; simpl.
  - done.
  - apply wsr2_stackPruning_bottom.
Qed.

Lemma wsr2_condition3_bottom removeLIR o :
  match condition3 removeLIR o with
  | (Some _, o') => o' = o ∧ orderedStack o = []
  | (None, o') => bottom_in (LIR o') (orderedStack o')
  end.
Proof.
  unfold condition3. destruct (orderedStack o) as [|[key v] st] eqn:E; simpl.
  - done.
  - apply wsr2_stackPruning_bottom.
Qed.

Lemma wsr2_condition3_eq removeLIR o : condition3 removeLIR o = condition1 removeLIR o.
Proof. reflexivity. Qed.

Lemma wsr2_condition1_demote removeLIR o :
  condition1 removeLIR o =
    match PopFirst (orderedStack o) with
    | (None, _) => (Some "orderedStack is empty"%string, o)
    | (Some (key, _), st) =>
        (None, stackPruning
                 (if removeLIR then demote key (with_orderedStack st o)
                  else with_orderedStack st o))
    end.
Proof. unfold condition1. by destruct removeLIR. Qed.

(** As in the first variant, the test of [demote] fails for a block that
    is not on the stack, and the block is put back on the stack; here the
    branch taken also counts a miss. *)
Lemma wsr2_demote_absent block o :
  OrderedMap.Get block (orderedStack o) = None ->
  demote block o =
    with_orderedStack
      (MoveLast block (Set_ block coldBlockInfo (orderedStack o)))
      (with_miss (add (miss o) 1) o).
Proof.
  intros H. unfold demote, isBlockColdDirty, isColdFlag. by rewrite H.
Qed.

Lemma wsr2_demote_counters block o :
  let o' := demote block o in
  hit o' = hit o ∧ (miss o' = miss o ∨ miss o' = add (miss o) 1) ∧
  writeCount o' = writeCount o ∧
  LIRSize o' = LIRSize o ∧ HIRSize o' = HIRSize o ∧
  (wf (orderedStack o) -> wf (orderedStack o')).
Proof.
  unfold demote. destruct (isBlockColdDirty block o || isColdFlag block o); simpl.
  - split; [done|]. split; [eauto|]. done.
  - split; [done|]. split; [eauto|]. repeat (split; [done|]).
    intros H. by apply wf_MoveLast, wf_Set.
Qed.

Lemma wsr2_condition1_counters removeLIR o :
  let o' := snd (condition1 removeLIR o) in
  hit o' = hit o ∧
  (miss o' = miss o ∨ removeLIR = true ∧ miss o' = add (miss o) 1) ∧
  writeCount o' = writeCount o ∧
  LIRSize o' = LIRSize o ∧ HIRSize o' = HIRSize o ∧
  (wf (orderedStack o) -> wf (orderedStack o')).
Proof.
  cbv zeta. rewrite wsr2_condition1_demote. destruct (orderedStack o) as [|[key v] st] eqn:E; simpl.
  - split; [done|]. split; [eauto|]. repeat (split; [done|]). by rewrite E.
  - match goal with |- context [stackPruning ?x] =>
      destruct (wsr2_stackPruning_frame x) as (st' & -> & Hwf) end.
    simpl. destruct removeLIR.
    + destruct (wsr2_demote_counters key (with_orderedStack st o))
        as (? & Hm & ? & ? & ? & Hwf').
      split; [done|]. split; [destruct Hm; eauto|]. repeat (split; [done|]).
      intros Hst. apply Hwf, Hwf'. simpl.
      by apply (wf_PopFirst ((key, v) :: st)).
    + simpl. split; [done|]. split; [eauto|]. repeat (split; [done|]).
      intros Hst. apply Hwf. simpl.
      by apply (wf_PopFirst ((key, v) :: st)).
Qed.

(** On a stack with one entry per key, a demotion never reaches list Q or
    the LIR and HIR sets. *)
Lemma wsr2_condition1_true_keeps_classes o :
  wf (orderedStack o) ->
  let o' := snd (condition1 true o) in
  orderedList o' = orderedList o ∧ LIR o' = LIR o ∧ HIR o' = HIR o.
Proof.
  intros Hwf. cbv zeta. rewrite wsr2_condition1_demote.
  destruct (orderedStack o) as [|[key v] st] eqn:E; simpl; [done|].
  match goal with |- context [stackPruning ?x] =>
    destruct (wsr2_stackPruning_frame x) as (st' & -> & _) end.
  rewrite wsr2_demote_absent by (simpl; by eapply Get_popped).
  done.
Qed.

Lemma wsr2_condition1_false o :
  let o' := snd (condition1 false o) in
  hit o' = hit o ∧ miss o' = miss o ∧ orderedList o' = orderedList o.
Proof.
  cbv zeta. rewrite wsr2_condition1_demote. destruct (PopFirst (orderedStack o)) as [[[key v]|] st]; simpl.
  - match goal with |- context [stackPruning ?x] =>
      destruct (wsr2_stackPruning_frame x) as (st' & -> & _) end. done.
  - done.
Qed.

Lemma wsr2_addToStack_frame block op o :
  ∃ st w, addToStack block op o = with_orderedStack st (with_writeCount w o) ∧
          (wf (orderedStack o) -> wf st).
Proof.
  unfold addToStack. destruct (OrderedMap.Get block (orderedStack o)).
  - eexists _, (writeCount o). split; [by destruct o | apply wf_MoveLast].
  - destruct (decide (op = "W"%string)).
    + eexists _, _. split; [done | apply wf_Set].
    + eexists _, (writeCount o). split; [by destruct o | apply wf_Set].
Qed.

Lemma wsr2_incrementAccess_frame block o :
  ∃ st, incrementAccess block o = with_orderedStack st o ∧
        (wf (orderedStack o) -> wf st).
Proof.
  unfold incrementAccess. destruct (OrderedMap.Get block (orderedStack o)).
  - eexists. split; [done | apply wf_overwrite].
  - exists (orderedStack o). by destruct o.
Qed.

Lemma wsr2_addToList_frame block op o :
  ∃ q w, addToList block op o = with_orderedList q (with_writeCount w o).
Proof.
  unfold addToList.
  destruct (decide (Len (orderedList o) = HIRSize o));
    destruct (decide (op = "W"%string)); simpl.
  - by eexists _, _.
  - eexists _, (writeCount o). by destruct o.
  - by eexists _, _.
  - eexists _, (writeCount o). by destruct o.
Qed.

Lemma wsr2_addToList_length block op o :
  1 <= HIRSize o -> Len (orderedList o) <= HIRSize o ->
  Len (orderedList (addToList block op o)) <= HIRSize o.
Proof.
  unfold addToList, Len. intros H1 Hle.
  destruct (decide (Z.of_nat (length (orderedList o)) = HIRSize o)) as [Heq|Hne];
    destruct (decide (op = "W"%string)); simpl.
  all: match goal with |- context [Set_ ?b ?v ?q] =>
         pose proof (length_Set_le b v q) as HS end.
  all: destruct (orderedList o) as [|? ?]; simpl in *; lia.
Qed.

Ltac wsr2_frame_addToStack H :=
  match goal with |- context [addToStack ?b ?op ?x] =>
    destruct (wsr2_addToStack_frame b op x) as (? & ? & -> & H) end.

Ltac wsr2_frame_incrementAccess H :=
  match goal with |- context [incrementAccess ?b ?x] =>
    destruct (wsr2_incrementAccess_frame b x) as (? & -> & H) end.

(** One [Get] counts one or two hits and misses, and takes nothing back. *)
Lemma wsr2_Get_counts trace o :
  0 <= hit o -> 0 <= miss o -> hit o + miss o + 1 < max_int ->
  let o' := snd (LIRSWSR2.Get trace o) in
  hit o <= hit o' ∧ miss o <= miss o' ∧
  hit o + miss o + 1 <= hit o' + miss o' <= hit o + miss o + 2.
Proof.
  intros Hh Hm Hmax. unfold LIRSWSR2.Get.
  destruct (decide (Z.of_nat (size (LIR o)) < LIRSize o)); simpl.
  - wsr2_frame_addToStack Hw.
    simpl. destruct (LIR o !! simulator.Addr trace); simpl; wsr2_int_simpl; lia.
  - destruct (LIR o !! simulator.Addr trace).
    + unfold handleLIRBlock. simpl.
      destruct (GetFirst (orderedStack o)) as [[key v]|]; simpl;
        [|wsr2_int_simpl; lia].
      wsr2_frame_addToStack Hw1. wsr2_frame_incrementAccess Hw2.
      simpl. destruct (decide (key = simulator.Addr trace)); simpl.
      * destruct (wsr2_condition1_false (with_hit (add (hit o) 1) o)) as (-> & -> & _).
        simpl. wsr2_int_simpl; lia.
      * wsr2_int_simpl; lia.
    + destruct (OrderedMap.Get (simulator.Addr trace) (orderedList o)).
      * unfold handleHIRResidentBlock.
        wsr2_frame_addToStack Hw1. wsr2_frame_incrementAccess Hw2.
        simpl. destruct (OrderedMap.Get (simulator.Addr trace) (orderedStack o)); simpl.
        all: match goal with |- context [condition1 true ?x] =>
          destruct (wsr2_condition1_counters true x) as (-> & Hc & _) end.
        all: simpl in *; destruct Hc as [->|[_ ->]]; wsr2_int_simpl; lia.
      * unfold handleHIRNonResidentBlock.
        wsr2_frame_addToStack Hw1. wsr2_frame_incrementAccess Hw2.
        destruct (wsr2_addToList_frame (simulator.Addr trace) (simulator.Op trace)
                    (with_miss (add (miss o) 1) o)) as (q & w & ->).
        simpl. destruct (OrderedMap.Get (simulator.Addr trace) (orderedStack o)); simpl.
        -- rewrite wsr2_condition3_eq.
           match goal with |- context [condition1 true ?x] =>
             destruct (wsr2_condition1_counters true x) as (-> & Hc & _) end.
           simpl in *. destruct Hc as [->|[_ ->]]; wsr2_int_simpl; lia.
        -- wsr2_int_simpl; lia.
Qed.

Lemma wsr2_run_counts tr : ∀ o k,
  0 <= hit o -> 0 <= miss o -> hit o + miss o <= k ->
  k + 2 * Z.of_nat (length tr) < max_int ->
  hit o <= hit (run tr o) ∧ miss o <= miss (run tr o) ∧
  hit o + miss o + Z.of_nat (length tr) <= hit (run tr o) + miss (run tr o) ∧
  hit (run tr o) + miss (run tr o) <= k + 2 * Z.of_nat (length tr).
Proof.
  induction tr as [|t tr IH]; intros o k Hh Hm Hk Hmax; simpl in *.
  - lia.
  - destruct (wsr2_Get_counts t o Hh Hm ltac:(lia)) as (Hh' & Hm' & Hs).
    destruct (IH (snd (LIRSWSR2.Get t o)) (k + 2)) as (? & ? & ? & ?);
      try lia; unfold run; lia.
Qed.

(** An access that reaches no demotion counts exactly one hit or miss. *)
Lemma wsr2_Get_counts_exact trace o :
  0 <= hit o -> 0 <= miss o -> hit o + miss o + 1 < max_int ->
  LIRSWSR2_demotes trace o = false ->
  hit (snd (LIRSWSR2.Get trace o)) + miss (snd (LIRSWSR2.Get trace o))
    = hit o + miss o + 1.
Proof.
  intros Hh Hm Hmax. unfold LIRSWSR2_demotes, LIRSWSR2.Get.
  destruct (decide (Z.of_nat (size (LIR o)) < LIRSize o)); simpl.
  - intros _. wsr2_frame_addToStack Hw.
    simpl. destruct (LIR o !! simulator.Addr trace); simpl; wsr2_int_simpl; lia.
  - rewrite bool_decide_eq_false_2 by done. simpl.
    destruct (LIR o !! simulator.Addr trace) eqn:EL.
    + intros _. unfold handleLIRBlock. simpl.
      destruct (GetFirst (orderedStack o)) as [[key v]|]; simpl;
        [|wsr2_int_simpl; lia].
      wsr2_frame_addToStack Hw1. wsr2_frame_incrementAccess Hw2.
      simpl. destruct (decide (key = simulator.Addr trace)); simpl.
      * destruct (wsr2_condition1_false (with_hit (add (hit o) 1) o)) as (-> & -> & _).
        simpl. wsr2_int_simpl; lia.
      * wsr2_int_simpl; lia.
    + rewrite bool_decide_eq_false_2 by (intros [? ?]; done). simpl.
      destruct (OrderedMap.Get (simulator.Addr trace) (orderedList o)) eqn:EQ.
      * rewrite bool_decide_eq_true_2 by eauto. done.
      * rewrite ?bool_decide_eq_false_2 by (intros [? ?]; done). simpl.
        unfold handleHIRNonResidentBlock.
        wsr2_frame_addToStack Hw1. wsr2_frame_incrementAccess Hw2.
        destruct (wsr2_addToList_frame (simulator.Addr trace) (simulator.Op trace)
                    (with_miss (add (miss o) 1) o)) as (q & w & ->).
        simpl. destruct (OrderedMap.Get (simulator.Addr trace) (orderedStack o)) eqn:ES;
          simpl.
        -- rewrite ?bool_decide_eq_true_2 by eauto. done.
        -- intros _. wsr2_int_simpl; lia.
Qed.

Lemma wsr2_run_counts_demotions tr : ∀ o,
  0 <= hit o -> 0 <= miss o ->
  hit o + miss o + 2 * Z.of_nat (length tr) < max_int ->
  hit (run tr o) + miss (run tr o)
    <= hit o + miss o + Z.of_nat (length tr)
       + Z.of_nat (LIRSWSR2_demotions tr o).
Proof.
  induction tr as [|t tr IH]; intros o Hh Hm Hmax; simpl in *.
  - lia.
  - destruct (wsr2_Get_counts t o Hh Hm ltac:(lia)) as (Hh' & Hm' & Hs).
    pose proof (IH (snd (LIRSWSR2.Get t o)) ltac:(lia) ltac:(lia) ltac:(lia)) as HI.
    unfold run in *.
    destruct (LIRSWSR2_demotes t o) eqn:E.
    + lia.
    + pose proof (wsr2_Get_counts_exact t o Hh Hm ltac:(lia) E). lia.
Qed.

(** The invariant that keeps list Q within a capacity of at least one:
    the stack has one entry per key, so no demotion writes to Q. *)
Lemma wsr2_Get_inv trace o :
  wf (orderedStack o) ->
  1 <= HIRSize o -> Len (orderedList o) <= HIRSize o ->
  let o' := snd (LIRSWSR2.Get trace o) in
  wf (orderedStack o') ∧ HIRSize o' = HIRSize o ∧
  Len (orderedList o') <= HIRSize o.
Proof.
  intros Hwf H1 Hle. unfold LIRSWSR2.Get. unfold Len in *.
  destruct (decide (Z.of_nat (size (LIR o)) < LIRSize o)); simpl.
  - wsr2_frame_addToStack Hw. simpl.
    assert (Hst : ∀ x y : LIRSWSR,
              orderedStack x = orderedStack o -> orderedStack y = orderedStack o ->
              orderedStack (match LIR o !! simulator.Addr trace with
                            | Some _ => x | None => y end) = orderedStack o)
      by (intros; by destruct (LIR o !! _)).
    split; [apply Hw; by rewrite Hst|].
    by destruct (LIR o !! simulator.Addr trace).
  - destruct (LIR o !! simulator.Addr trace).
    + unfold handleLIRBlock. simpl.
      destruct (GetFirst (orderedStack o)) as [[key v]|]; simpl; [|done].
      wsr2_frame_addToStack Hw1. wsr2_frame_incrementAccess Hw2.
      simpl in *. destruct (decide (key = simulator.Addr trace)); simpl in *.
      * destruct (wsr2_condition1_false (with_hit (add (hit o) 1) o)) as (_ & _ & ->).
        destruct (wsr2_condition1_counters false (with_hit (add (hit o) 1) o))
          as (_ & _ & _ & _ & -> & Hwc).
        split; [|done]. by apply Hw2, wf_Set, Hw1, Hwc.
      * split; [|done]. by apply Hw2, wf_Set, Hw1.
    + destruct (OrderedMap.Get (simulator.Addr trace) (orderedList o)) eqn:EQ.
      * unfold handleHIRResidentBlock.
        wsr2_frame_addToStack Hw1. wsr2_frame_incrementAccess Hw2.
        simpl in *. destruct (OrderedMap.Get (simulator.Addr trace) (orderedStack o)); simpl in *.
        all: match goal with |- context [condition1 true ?x] =>
          destruct (wsr2_condition1_counters true x) as (_ & _ & _ & _ & -> & Hwc);
          destruct (wsr2_condition1_true_keeps_classes x) as (-> & _ & _);
            [exact Hwf|] end.
        all: simpl in *; split; [by apply Hw2, Hw1, Hwc|]; split; [done|].
        -- pose proof (length_Delete_le (simulator.Addr trace) (orderedList o)).
           lia.
        -- pose proof (length_MoveLast_le (simulator.Addr trace) (orderedList o)).
           lia.
      * unfold handleHIRNonResidentBlock.
        wsr2_frame_addToStack Hw1. wsr2_frame_incrementAccess Hw2.
        pose proof (wsr2_addToList_length (simulator.Addr trace) (simulator.Op trace)
                      (with_miss (add (miss o) 1) o) H1 Hle) as Hlen.
        destruct (wsr2_addToList_frame (simulator.Addr trace) (simulator.Op trace)
                    (with_miss (add (miss o) 1) o)) as (q & w & Hfr).
        rewrite Hfr in *. unfold Len in Hlen.
        simpl in *. destruct (OrderedMap.Get (simulator.Addr trace) (orderedStack o)); simpl in *.
        -- rewrite !wsr2_condition3_eq in *.
           match goal with |- context [condition1 true ?x] =>
             destruct (wsr2_condition1_counters true x) as (_ & _ & _ & _ & Hsz & Hwc);
             destruct (wsr2_condition1_true_keeps_classes x) as (Hq & _ & _);
               [exact Hwf|] end.
           simpl in *. rewrite Hq, Hsz.
           split; [by apply Hw2, wf_Set, Hw1, Hwc|]. split; [done|].
           pose proof (length_Delete_le (simulator.Addr trace) q). lia.
        -- split; [by apply Hw2, wf_Set, Hw1|]. done.
Qed.

Lemma wsr2_run_inv tr : ∀ o,
  wf (orderedStack o) ->
  1 <= HIRSize o -> Len (orderedList o) <= HIRSize o ->
  HIRSize (run tr o) = HIRSize o ∧
  Len (orderedList (run tr o)) <= HIRSize o.
Proof.
  induction tr as [|t tr IH]; intros o Hwf H1 Hle; simpl; [done|].
  destruct (wsr2_Get_inv t o Hwf H1 Hle) as (Hwf' & Hs & Hle').
  destruct (IH (snd (LIRSWSR2.Get t o))) as [IH1 IH2]; try done.
  - by rewrite Hs.
  - by rewrite Hs.
  - rewrite Hs in IH1, IH2. exact (conj IH1 IH2).
Qed.

End LIRSWSR2Facts.

(** ** The LRU engine *)

Module LRUFacts.
Import GoInt GoIntFacts LRU.

Lemma lru_resident_Remove a l :
  List.map lba (list_Remove a l) =
  List.filter (fun k => negb (bool_decide (k = a))) (List.map lba l).
Proof.
  induction l as [|n l IH]; simpl; [done|].
  destruct (bool_decide (lba n = a)); simpl; by rewrite IH.
Qed.

Lemma lru_elem_of_Remove a x l :
  x ∈ List.map lba (list_Remove a l) <-> x ∈ List.map lba l ∧ x ≠ a.
Proof.
  rewrite lru_resident_Remove, !list_elem_of_In, List.filter_In.
  rewrite negb_true_iff, bool_decide_eq_false. done.
Qed.

Lemma lru_NoDup_Remove a l :
  NoDup (List.map lba l) -> NoDup (List.map lba (list_Remove a l)).
Proof.
  induction l as [|n l IH]; simpl; [done|].
  intros H. apply NoDup_cons in H as [Hn Hl].
  destruct (bool_decide (lba n = a)); simpl; [by apply IH|].
  apply NoDup_cons. split; [|by apply IH].
  rewrite lru_elem_of_Remove. by intros [? _].
Qed.

Lemma lru_length_Remove a l :
  NoDup (List.map lba l) -> a ∈ List.map lba l ->
  S (length (list_Remove a l)) = length l.
Proof.
  induction l as [|n l IH]; simpl.
  - intros _ H. by apply elem_of_nil in H.
  - intros H Hin. apply NoDup_cons in H as [Hn Hl].
    destruct (decide (lba n = a)) as [Heq|Hne].
    + rewrite bool_decide_eq_true_2 by done. simpl. f_equal.
      clear IH Hin. subst a. induction l as [|m l IH]; simpl in *; [done|].
      apply not_elem_of_cons in Hn as [Hne Hn].
      apply NoDup_cons in Hl as [_ Hl].
      rewrite bool_decide_eq_false_2 by done. simpl. f_equal. by apply IH.
    + rewrite bool_decide_eq_false_2 by done. simpl. f_equal.
      apply IH; [done|]. apply elem_of_cons in Hin as [?|?]; [congruence|done].
Qed.

Lemma lru_Back_resident l el :
  list_Back l = Some el -> lba el ∈ List.map lba l.
Proof.
  unfold list_Back. intros H. apply last_Some in H as [l' ->].
  rewrite List.map_app. simpl. apply elem_of_app. right. apply list_elem_of_singleton.
  done.
Qed.

Lemma lru_Back_nonempty l : l ≠ [] -> is_Some (list_Back l).
Proof.
  unfold list_Back. intros H. destruct (last l) eqn:E; [eauto|].
  by apply last_None in E.
Qed.

Lemma lru_Get_evict_hit a opx lru dd :
  tlba lru !! a = Some dd ->
  Get_evict (simulator.mkTrace a opx) lru =
    Some (None,
          mkLRU (maxlen lru) (available lru)
            (add (totalaccess lru) 1) (add (hit lru) 1)
            (miss lru) (pagefault lru)
            (if decide (opx = "W"%string) then add (write lru) 1
             else write lru)
            (tlba lru)
            (dd :: list_Remove (lba dd) (lrulist lru))).
Proof.
  intros H. unfold Get_evict, put_evict. simpl. by rewrite H.
Qed.

Lemma lru_Get_evict_full a opx lru el :
  tlba lru !! a = None -> ¬ available lru > 0 ->
  list_Back (lrulist lru) = Some el ->
  Get_evict (simulator.mkTrace a opx) lru =
    Some (Some (lba el),
          let data := mkNodeLba a (add (totalaccess lru) 1) opx in
          mkLRU (maxlen lru) (available lru)
            (add (totalaccess lru) 1) (hit lru)
            (add (miss lru) 1) (add (pagefault lru) 1)
            (add (write lru) 1)
            (<[a := data]> (delete (lba el) (tlba lru)))
            (data :: list_Remove (lba el) (lrulist lru))).
Proof.
  intros H Hav Hb. unfold Get_evict, put_evict. simpl.
  rewrite H, decide_False, Hb by done. done.
Qed.

Lemma lru_evictions_cons t tr lru e lru' es lru'' :
  Get_evict t lru = Some (e, lru') ->
  LRU_evictions tr lru' = Some (es, lru'') ->
  LRU_evictions (t :: tr) lru = Some (e :: es, lru'').
Proof. intros H1 H2. simpl. by rewrite H1, H2. Qed.

Lemma lru_NewLRU_inv cacheSize :
  0 < cacheSize -> in_range cacheSize -> LRU_inv (NewLRU cacheSize).
Proof.
  intros Hc Hr. unfold LRU_inv, NewLRU, resident. simpl.
  split; [lia|]. split; [lia|]. split; [done|]. split; [apply NoDup_nil_2|].
  split; [|split; [|done]].
  - intros a. rewrite lookup_empty. split; [intros [? ?]; done|].
    intros H. by apply elem_of_nil in H.
  - intros a n. by rewrite lookup_empty.
Qed.

(** With a positive capacity [put] does not panic, and it keeps the state
    consistent. *)
Lemma lru_put_evict_inv data lru :
  LRU_inv lru -> 0 < maxlen lru ->
  ∃ r e lru', put_evict data lru = Some (r, e, lru') ∧
              LRU_inv lru' ∧ maxlen lru' = maxlen lru.
Proof.
  intros (Ha & Hlen & Hr & Hnd & Hdom & Hkey & Hsz) Hpos.
  unfold put_evict. unfold resident in *.
  destruct (tlba lru !! lba data) as [dd|] eqn:E.
  - eexists _, _, _. split; [reflexivity|]. split; [|done].
    pose proof (Hkey _ _ E) as Hdd.
    assert (Hin : lba dd ∈ List.map lba (lrulist lru))
      by (rewrite Hdd; apply Hdom; eauto).
    pose proof (lru_length_Remove _ _ Hnd Hin) as HL.
    unfold LRU_inv, resident. simpl.
    split; [done|]. split; [lia|]. split; [done|]. split.
    { apply NoDup_cons. split; [|by apply lru_NoDup_Remove].
      rewrite lru_elem_of_Remove. by intros [_ ?]. }
    split; [|split; [done | lia]].
    intros a. rewrite Hdom, elem_of_cons, lru_elem_of_Remove.
    destruct (decide (a = lba dd)) as [->|]; naive_solver.
  - destruct (decide (available lru > 0)) as [Hav|Hav].
    + eexists _, _, _. split; [reflexivity|]. split; [|done].
      assert (Hnin : lba data ∉ List.map lba (lrulist lru)).
      { intros Hin. apply Hdom in Hin as [? ?]. congruence. }
      unfold LRU_inv, resident. simpl.
      rewrite sub_id by (unfold in_range, min_int, max_int in *; lia).
      split; [lia|]. split; [lia|]. split; [done|].
      split; [by apply NoDup_cons|].
      split; [|split].
      * intros a. rewrite lookup_insert_is_Some', elem_of_cons, Hdom.
        naive_solver.
      * intros a n. rewrite lookup_insert_Some. naive_solver.
      * rewrite map_size_insert_None by done. lia.
    + assert (Hne : lrulist lru ≠ []).
      { intros Hnil. rewrite Hnil in Hlen. simpl in Hlen. lia. }
      destruct (lru_Back_nonempty _ Hne) as [el Hel]. rewrite Hel.
      eexists _, _, _. split; [reflexivity|]. split; [|done].
      pose proof (lru_Back_resident _ _ Hel) as Hin.
      pose proof (lru_length_Remove _ _ Hnd Hin) as HL.
      assert (Hnin : lba data ∉ List.map lba (lrulist lru)).
      { intros Hin'. apply Hdom in Hin' as [? ?]. congruence. }
      assert (Hne' : lba el ≠ lba data) by (intros Heq; by rewrite Heq in Hin).
      unfold LRU_inv, resident. simpl.
      split; [done|]. split; [lia|]. split; [done|]. split.
      { apply NoDup_cons. split; [|by apply lru_NoDup_Remove].
        rewrite lru_elem_of_Remove. by intros [? _]. }
      split; [|split].
      * intros a. rewrite lookup_insert_is_Some', lookup_delete_is_Some.
        rewrite elem_of_cons, lru_elem_of_Remove, Hdom. naive_solver.
      * intros a n. rewrite lookup_insert_Some, lookup_delete_Some.
        naive_solver.
      * rewrite map_size_insert_None by (by rewrite lookup_delete_ne).
        rewrite map_size_delete_Some by (by apply Hdom). lia.
Qed.

Lemma lru_Get_inv trace lru :
  LRU_inv lru -> 0 < maxlen lru ->
  ∃ lru', LRU.Get trace lru = Some (None, lru') ∧
          LRU_inv lru' ∧ maxlen lru' = maxlen lru.
Proof.
  intros Hinv Hpos. unfold LRU.Get, Get_evict.
  match goal with |- context [put_evict ?d ?l] =>
    destruct (lru_put_evict_inv d l) as (r & e & lru' & -> & Hinv' & Hm) end;
    [exact Hinv | exact Hpos |].
  simpl. eauto.
Qed.

Lemma lru_run_inv tr : ∀ lru,
  LRU_inv lru -> 0 < maxlen lru ->
  ∃ lru', run tr lru = Some lru' ∧ LRU_inv lru' ∧ maxlen lru' = maxlen lru.
Proof.
  induction tr as [|t tr IH]; intros lru Hinv Hpos.
  - exists lru. done.
  - destruct (lru_Get_inv t lru Hinv Hpos) as (lru1 & HG & Hinv1 & Hm1).
    destruct (IH lru1 Hinv1 ltac:(lia)) as (lru' & Hrun & Hinv' & Hm').
    exists lru'. split; [|split; [done | congruence]].
    unfold run in *. simpl. rewrite HG. simpl. exact Hrun.
Qed.

End LRUFacts.

(** * The claims that span the engines *)

Section Claims.
Import GoInt GoIntFacts.

(** ** Demotion (C1) and the dirty flag (C7) *)

(** On a stack with one entry per key, a demotion of the first variant
    never reaches list Q or the LIR and HIR sets either. *)
Lemma wsr_condition1_true_keeps_classes o :
  OrderedMap.wf (LIRSWSR.orderedStack o) ->
  let o' := snd (LIRSWSR.condition1 true o) in
  LIRSWSR.orderedList o' = LIRSWSR.orderedList o ∧
  LIRSWSR.LIR o' = LIRSWSR.LIR o ∧ LIRSWSR.HIR o' = LIRSWSR.HIR o.
Proof.
  intros Hwf. cbv zeta. rewrite LIRSWSRFacts.wsr_condition1_demote.
  destruct (LIRSWSR.orderedStack o) as [|[key v] st] eqn:E; simpl; [done|].
  match goal with |- context [LIRSWSR.stackPruning ?x] =>
    destruct (LIRSWSRFacts.wsr_stackPruning_frame x) as (st' & ->) end.
  rewrite LIRSWSRFacts.wsr_demote_absent
    by (simpl; by eapply OrderedMapFacts.Get_popped).
  done.
Qed.

(** C1, the code at the failing input: after the accesses W 1, R 2, R 3 on
    an engine of cache size 4 with 50 percent HIR, the second access of
    block 3 promotes it and calls the demotion.  The oldest entry of S is
    block 1, cold ([ColdFlag] set, no repeat touch) and dirty, yet the
    demotion leaves it in the LIR set and out of list Q and puts it back at
    the newest end of S; both variants and both [condition1] and
    [condition3] do so. *)
Theorem wsr_demotion_never_demotes :
  (∃ o, LIRSWSR.NewLIRSWSR 4 50 = Some o ∧
     let s := LIRSWSR.removeFromList 3
                (LIRSWSR.makeLIR 3 (LIRSWSR.run [W 1; R 2; R 3] o)) in
     OrderedMap.GetFirst (LIRSWSR.orderedStack s) =
       Some (1, LIRSWSR.mkBlockInfo 1 "W" true true 0) ∧
     LIRSWSR.isBlockCold 1 s = true ∧ LIRSWSR.isBlockDirty 1 s = true ∧
     ∀ first : bool,
       let s' := snd (if first then LIRSWSR.condition1 true s
                      else LIRSWSR.condition3 true s) in
       LIRSWSR.LIR s' !! 1 = Some 1 ∧ LIRSWSR.HIR s' !! 1 = None ∧
       OrderedMap.Get 1 (LIRSWSR.orderedList s') = None ∧
       OrderedMap.keys (LIRSWSR.orderedStack s') = [2; 3; 1] ∧
       OrderedMap.Get 1 (LIRSWSR.orderedStack s') = Some LIRSWSR.coldBlockInfo) ∧
  (∃ o, LIRSWSR2.NewLIRSWSR 4 50 = Some o ∧
     let s := LIRSWSR2.removeFromList 3
                (LIRSWSR2.makeLIR 3 (LIRSWSR2.run [W 1; R 2; R 3] o)) in
     OrderedMap.GetFirst (LIRSWSR2.orderedStack s) =
       Some (1, LIRSWSR2.mkBlockInfo 1 "W" true true 0) ∧
     LIRSWSR2.isColdFlag 1 s = true ∧ LIRSWSR2.isBlockColdDirty 1 s = true ∧
     ∀ first : bool,
       let s' := snd (if first then LIRSWSR2.condition1 true s
                      else LIRSWSR2.condition3 true s) in
       LIRSWSR2.LIR s' !! 1 = Some 1 ∧ LIRSWSR2.HIR s' !! 1 = None ∧
       OrderedMap.Get 1 (LIRSWSR2.orderedList s') = None ∧
       OrderedMap.keys (LIRSWSR2.orderedStack s') = [2; 3; 1] ∧
       OrderedMap.Get 1 (LIRSWSR2.orderedStack s') = Some LIRSWSR2.coldBlockInfo).
Proof.
  split; eexists; (split; [reflexivity|]); cbv zeta;
    (split; [vm_compute; reflexivity|]);
    (split; [vm_compute; reflexivity|]);
    (split; [vm_compute; reflexivity|]);
    intros [|]; vm_compute; done.
Qed.

(** C7, the code at the failing input: block 1 is written, so its entry in
    S has [DirtyPage] set; the next access is a read that finds block 1 in
    the LIR set, and [handleLIRBlock] replaces the entry by one whose
    [DirtyPage] is unset, while the block stays in the LIR set and in S.
    The retry branch of the demotion does the same to the block it puts
    back (the third conjunct). *)
Theorem wsr_lir_hit_clears_dirty :
  (∃ o, LIRSWSR.NewLIRSWSR 4 50 = Some o ∧
     let s := LIRSWSR.run [R 2; W 1] o in
     let s' := snd (LIRSWSR.Get (R 1) s) in
     LIRSWSR.LIR s !! 1 = Some 1 ∧
     LIRSWSR.DirtyPage <$> OrderedMap.Get 1 (LIRSWSR.orderedStack s) = Some true ∧
     LIRSWSR.LIR s' !! 1 = Some 1 ∧
     LIRSWSR.DirtyPage <$> OrderedMap.Get 1 (LIRSWSR.orderedStack s') = Some false) ∧
  (∃ o, LIRSWSR2.NewLIRSWSR 4 50 = Some o ∧
     let s := LIRSWSR2.run [R 2; W 1] o in
     let s' := snd (LIRSWSR2.Get (R 1) s) in
     LIRSWSR2.LIR s !! 1 = Some 1 ∧
     LIRSWSR2.DirtyPage <$> OrderedMap.Get 1 (LIRSWSR2.orderedStack s) = Some true ∧
     LIRSWSR2.LIR s' !! 1 = Some 1 ∧
     LIRSWSR2.DirtyPage <$> OrderedMap.Get 1 (LIRSWSR2.orderedStack s') = Some false) ∧
  (∃ o, LIRSWSR.NewLIRSWSR 4 50 = Some o ∧
     let s := LIRSWSR.run [W 1; R 2; R 3] o in
     let s' := snd (LIRSWSR.Get (R 3) s) in
     LIRSWSR.LIR s !! 1 = Some 1 ∧
     LIRSWSR.DirtyPage <$> OrderedMap.Get 1 (LIRSWSR.orderedStack s) = Some true ∧
     LIRSWSR.LIR s' !! 1 = Some 1 ∧
     LIRSWSR.DirtyPage <$> OrderedMap.Get 1 (LIRSWSR.orderedStack s') = Some false).
Proof.
  repeat split; eexists; (split; [reflexivity|]); cbv zeta;
    repeat split; vm_compute; reflexivity.
Qed.

(** ** Empty stack during a demotion (C5) *)







(** ** LRU eviction order (C9) *)

(** C9: with [cacheSize = 2], the accesses 1, 2, 3 evict address 1 when 3
    arrives and leave 3 and 2 in the recency list and in the tree; the
    accesses 1, 2, 1, 3 evict address 2 instead and leave 3 and 1.  This
    holds whatever the operations of the accesses are. *)
Theorem lru_eviction_order (op1 op2 op3 op4 : string) :
  (∃ lru,
     LRU_evictions [simulator.mkTrace 1 op1; simulator.mkTrace 2 op2;
                    simulator.mkTrace 3 op3] (LRU.NewLRU 2) =
       Some ([None; None; Some 1], lru) ∧
     LRU.resident lru = [3; 2] ∧
     LRU.tlba lru !! 1 = None ∧
     LRU.lba <$> LRU.tlba lru !! 2 = Some 2 ∧
     LRU.lba <$> LRU.tlba lru !! 3 = Some 3) ∧
  (∃ lru,
     LRU_evictions [simulator.mkTrace 1 op1; simulator.mkTrace 2 op2;
                    simulator.mkTrace 1 op3; simulator.mkTrace 3 op4]
                   (LRU.NewLRU 2) =
       Some ([None; None; None; Some 2], lru) ∧
     LRU.resident lru = [3; 1] ∧
     LRU.tlba lru !! 2 = None ∧
     LRU.lba <$> LRU.tlba lru !! 1 = Some 1 ∧
     LRU.lba <$> LRU.tlba lru !! 3 = Some 3).
Proof.
  split.
  - eexists. split; [vm_compute; reflexivity|].
    repeat split; vm_compute; reflexivity.
  - eexists. split.
    + eapply LRUFacts.lru_evictions_cons; [vm_compute; reflexivity|].
      eapply LRUFacts.lru_evictions_cons; [vm_compute; reflexivity|].
      eapply LRUFacts.lru_evictions_cons;
        [apply LRUFacts.lru_Get_evict_hit; vm_compute; reflexivity|].
      eapply LRUFacts.lru_evictions_cons;
        [eapply (LRUFacts.lru_Get_evict_full 3 op4 _ (LRU.mkNodeLba 2 _ _));
         vm_compute; done|].
      reflexivity.
    + repeat split; vm_compute; reflexivity.
Qed.

(** ** Capacity bounds (C2) *)

(** C2, as the code has it: whenever the HIR capacity is at least one,
    list Q never holds more entries than the HIR capacity, after any trace,
    in the LIRS engine and in both LIRS-WSR variants; the LRU engine with a
    positive [cacheSize] never panics and never holds more than
    [cacheSize] blocks, in its list or in its tree.  Of the LIR set of the
    LIRS engine only this is stated: a [Get] that starts within the LIR
    capacity with the oldest entry of S in the LIR set ends within the LIR
    capacity. *)
Theorem capacity_bounds_amended
    (cacheSize hirPercent : Z) (tr : list simulator.Trace) :
  0 < cacheSize -> in_range cacheSize -> 0 <= hirPercent <= 100 ->
  (∃ o, LIRS.NewLIRS cacheSize hirPercent = Some o ∧
        (1 <= LIRS.HIRSize o ->
         OrderedMap.Len (LIRS.orderedList (LIRS.run tr o))
           <= LIRS.HIRSize (LIRS.run tr o))) ∧
  (∃ o, LIRSWSR.NewLIRSWSR cacheSize hirPercent = Some o ∧
        (1 <= LIRSWSR.HIRSize o ->
         OrderedMap.Len (LIRSWSR.orderedList (LIRSWSR.run tr o))
           <= LIRSWSR.HIRSize (LIRSWSR.run tr o))) ∧
  (∃ o, LIRSWSR2.NewLIRSWSR cacheSize hirPercent = Some o ∧
        (1 <= LIRSWSR2.HIRSize o ->
         OrderedMap.Len (LIRSWSR2.orderedList (LIRSWSR2.run tr o))
           <= LIRSWSR2.HIRSize (LIRSWSR2.run tr o))) ∧
  (∃ lru, LRU.run tr (LRU.NewLRU cacheSize) = Some lru ∧
          Z.of_nat (length (LRU.lrulist lru)) <= cacheSize ∧
          Z.of_nat (size (LRU.tlba lru)) <= cacheSize) ∧
  (∀ trace o,
     Z.of_nat (size (LIRS.LIR o)) <= LIRS.LIRSize o ->
     bottom_in (LIRS.LIR o) (LIRS.orderedStack o) ->
     Z.of_nat (size (LIRS.LIR (snd (LIRS.Get trace o)))) <= LIRS.LIRSize o).
Proof.
  intros Hc Hr Hh.
  unfold LIRS.NewLIRS, LIRSWSR.NewLIRSWSR, LIRSWSR2.NewLIRSWSR.
  destruct (decide (hirPercent > 100 ∨ hirPercent < 0)) as [Hbad|_]; [lia|].
  split; [|split; [|split; [|split; [|exact LIRSFacts.lirs_Get_LIR_bound]]]].
  - eexists. split; [reflexivity|]. intros H1.
    match goal with |- context [LIRS.run tr ?o] =>
      destruct (LIRSFacts.lirs_run_list_bound tr o) as [-> Hle] end;
      [exact H1 | simpl in *; unfold OrderedMap.Len; simpl; lia | exact Hle].
  - eexists. split; [reflexivity|]. intros H1.
    match goal with |- context [LIRSWSR.run tr ?o] =>
      destruct (LIRSWSRFacts.wsr_run_list_bound tr o) as [-> Hle] end;
      [exact H1 | simpl in *; unfold OrderedMap.Len; simpl; lia | exact Hle].
  - eexists. split; [reflexivity|]. intros H1.
    match goal with |- context [LIRSWSR2.run tr ?o] =>
      destruct (LIRSWSR2Facts.wsr2_run_inv tr o) as [-> Hle] end;
      [apply OrderedMapFacts.wf_nil | exact H1
      | simpl in *; unfold OrderedMap.Len; simpl; lia | exact Hle].
  - destruct (LRUFacts.lru_run_inv tr (LRU.NewLRU cacheSize))
      as (lru & Hrun & Hinv & Hm); [by apply LRUFacts.lru_NewLRU_inv | done |].
    exists lru. split; [done|].
    destruct Hinv as (Ha & Hlen & _ & _ & _ & _ & Hsz).
    simpl in Hm. rewrite Hsz. lia.
Qed.

Lemma capacity_bounds_amended_witness :
  (∃ o, LIRS.NewLIRS 4 50 = Some o ∧
        (1 <= LIRS.HIRSize o ->
         OrderedMap.Len (LIRS.orderedList (LIRS.run [R 1; W 2; R 3; R 3] o))
           <= LIRS.HIRSize (LIRS.run [R 1; W 2; R 3; R 3] o))) ∧
  (∃ o, LIRSWSR.NewLIRSWSR 4 50 = Some o ∧
        (1 <= LIRSWSR.HIRSize o ->
         OrderedMap.Len (LIRSWSR.orderedList (LIRSWSR.run [R 1; W 2; R 3; R 3] o))
           <= LIRSWSR.HIRSize (LIRSWSR.run [R 1; W 2; R 3; R 3] o))) ∧
  (∃ o, LIRSWSR2.NewLIRSWSR 4 50 = Some o ∧
        (1 <= LIRSWSR2.HIRSize o ->
         OrderedMap.Len (LIRSWSR2.orderedList (LIRSWSR2.run [R 1; W 2; R 3; R 3] o))
           <= LIRSWSR2.HIRSize (LIRSWSR2.run [R 1; W 2; R 3; R 3] o))) ∧
  (∃ lru, LRU.run [R 1; W 2; R 3; R 3] (LRU.NewLRU 4) = Some lru ∧
          Z.of_nat (length (LRU.lrulist lru)) <= 4 ∧
          Z.of_nat (size (LRU.tlba lru)) <= 4) ∧
  (∀ trace o,
     Z.of_nat (size (LIRS.LIR o)) <= LIRS.LIRSize o ->
     bottom_in (LIRS.LIR o) (LIRS.orderedStack o) ->
     Z.of_nat (size (LIRS.LIR (snd (LIRS.Get trace o)))) <= LIRS.LIRSize o).
Proof.
  apply (capacity_bounds_amended 4 50 [R 1; W 2; R 3; R 3]);
    [lia | vm_compute; split; discriminate | lia].
Defined.

(** C2 as stated fails.  With [hirPercent = 0] the HIR capacity is 0 and
    the first miss of the steady state puts a block into list Q.  With the
    capacities 2 and 2 the LIR set of the LIRS engine holds 3 blocks after
    eight accesses, and that of either LIRS-WSR variant after four. *)
Lemma capacity_bounds_counterexample :
  (∃ o, LIRS.NewLIRS 1 0 = Some o ∧
     let o' := LIRS.run [R 1; R 2] o in
     ¬ within_capacity (LIRS.LIR o') (LIRS.orderedList o')
                       (LIRS.LIRSize o') (LIRS.HIRSize o')) ∧
  (∃ o, LIRS.NewLIRS 4 50 = Some o ∧
     let o' := LIRS.run [R 1; R 2; R 3; R 4; R 2; R 3; R 1; R 1] o in
     ¬ within_capacity (LIRS.LIR o') (LIRS.orderedList o')
                       (LIRS.LIRSize o') (LIRS.HIRSize o')) ∧
  (∃ o, LIRSWSR.NewLIRSWSR 4 50 = Some o ∧
     let o' := LIRSWSR.run [R 1; R 2; R 3; R 3] o in
     ¬ within_capacity (LIRSWSR.LIR o') (LIRSWSR.orderedList o')
                       (LIRSWSR.LIRSize o') (LIRSWSR.HIRSize o')) ∧
  (∃ o, LIRSWSR2.NewLIRSWSR 4 50 = Some o ∧
     let o' := LIRSWSR2.run [R 1; R 2; R 3; R 3] o in
     ¬ within_capacity (LIRSWSR2.LIR o') (LIRSWSR2.orderedList o')
                       (LIRSWSR2.LIRSize o') (LIRSWSR2.HIRSize o')).
Proof.
  repeat split; eexists; (split; [reflexivity|]); cbv zeta;
    vm_compute; intros [H1 H2]; first [by apply H1 | by apply H2].
Qed.

(** ** The oldest entry of stack S (C3) *)

(** C3, as the code has it: the oldest entry of S, if any, is in the LIR
    set whenever [stackPruning] returns, hence at the end of every
    [condition1] and [condition3] that found S non-empty, in the LIRS
    engine and in both LIRS-WSR variants.  An empty S makes [condition1]
    and [condition3] return the error and leave the state alone. *)
Theorem stack_bottom_after_pruning_amended :
  (∀ o, bottom_in (LIRS.LIR (LIRS.stackPruning o))
                  (LIRS.orderedStack (LIRS.stackPruning o))) ∧
  (∀ o, bottom_in (LIRSWSR.LIR (LIRSWSR.stackPruning o))
                  (LIRSWSR.orderedStack (LIRSWSR.stackPruning o))) ∧
  (∀ o, bottom_in (LIRSWSR2.LIR (LIRSWSR2.stackPruning o))
                  (LIRSWSR2.orderedStack (LIRSWSR2.stackPruning o))) ∧
  (∀ removeLIR o,
     match LIRS.condition1 removeLIR o with
     | (Some _, o') => o' = o ∧ LIRS.orderedStack o = []
     | (None, o') => bottom_in (LIRS.LIR o') (LIRS.orderedStack o')
     end) ∧
  (∀ (first removeLIR : bool) o,
     match (if first then LIRSWSR.condition1 removeLIR o
            else LIRSWSR.condition3 removeLIR o) with
     | (Some _, o') => o' = o ∧ LIRSWSR.orderedStack o = []
     | (None, o') => bottom_in (LIRSWSR.LIR o') (LIRSWSR.orderedStack o')
     end) ∧
  (∀ (first removeLIR : bool) o,
     match (if first then LIRSWSR2.condition1 removeLIR o
            else LIRSWSR2.condition3 removeLIR o) with
     | (Some _, o') => o' = o ∧ LIRSWSR2.orderedStack o = []
     | (None, o') => bottom_in (LIRSWSR2.LIR o') (LIRSWSR2.orderedStack o')
     end).
Proof.
  split; [exact LIRSFacts.lirs_stackPruning_bottom|].
  split; [exact LIRSWSRFacts.wsr_stackPruning_bottom|].
  split; [exact LIRSWSR2Facts.wsr2_stackPruning_bottom|].
  split; [exact LIRSFacts.lirs_condition1_bottom|].
  split.
  - intros [|] b o;
      [apply LIRSWSRFacts.wsr_condition1_bottom | apply LIRSWSRFacts.wsr_condition3_bottom].
  - intros [|] b o;
      [apply LIRSWSR2Facts.wsr2_condition1_bottom | apply LIRSWSR2Facts.wsr2_condition3_bottom].
Qed.

(** C3 as stated fails.  With [hirPercent = 100] the LIR capacity is 0 and
    the first access leaves its block, which is not in the LIR set, as the
    only entry of S.  With the capacities 2 and 2, the access of block 3
    after 1, 2, 3, 4, 2 promotes block 3, prunes, and then moves block 3
    from the oldest to the newest position of S, which leaves block 4, not
    in the LIR set, as the oldest entry. *)
Lemma stack_bottom_counterexample :
  (∃ o, LIRS.NewLIRS 1 100 = Some o ∧
     let o' := LIRS.run [R 1] o in
     ¬ bottom_in (LIRS.LIR o') (LIRS.orderedStack o')) ∧
  (∃ o, LIRSWSR.NewLIRSWSR 1 100 = Some o ∧
     let o' := LIRSWSR.run [R 1] o in
     ¬ bottom_in (LIRSWSR.LIR o') (LIRSWSR.orderedStack o')) ∧
  (∃ o, LIRS.NewLIRS 4 50 = Some o ∧
     let o' := LIRS.run [R 1; R 2; R 3; R 4; R 2; R 3] o in
     ¬ bottom_in (LIRS.LIR o') (LIRS.orderedStack o')) ∧
  (∃ o, LIRSWSR.NewLIRSWSR 4 50 = Some o ∧
     let o' := LIRSWSR.run [R 1; R 2; R 3; R 4; R 2; R 3] o in
     ¬ bottom_in (LIRSWSR.LIR o') (LIRSWSR.orderedStack o')).
Proof.
  repeat split; eexists; (split; [reflexivity|]); cbv zeta;
    vm_compute; intros [x Hx]; discriminate.
Qed.

(** ** Hit and miss counters (C4) *)

Lemma lirs_run_app tr1 tr2 o :
  LIRS.run (tr1 ++ tr2) o = LIRS.run tr2 (LIRS.run tr1 o).
Proof. unfold LIRS.run. apply fold_left_app. Qed.

Lemma wsr_run_app tr1 tr2 o :
  LIRSWSR.run (tr1 ++ tr2) o = LIRSWSR.run tr2 (LIRSWSR.run tr1 o).
Proof. unfold LIRSWSR.run. apply fold_left_app. Qed.

Lemma wsr2_run_app tr1 tr2 o :
  LIRSWSR2.run (tr1 ++ tr2) o = LIRSWSR2.run tr2 (LIRSWSR2.run tr1 o).
Proof. unfold LIRSWSR2.run. apply fold_left_app. Qed.

(** C4, as the code has it by design.  After the [n] accesses of a trace on
    a fresh engine: in the LIRS engine [hit + miss = n]; in the first
    LIRS-WSR variant every access that [Get] does not hand to
    [handleHIRResidentBlock] counts exactly once, so [hit + miss] lies
    between [n] less the number of HIR-resident accesses and [n]; in the
    second variant every access counts once and an access that reaches a
    demotion may count one more miss, so [hit + miss] lies between [n] and
    [n] plus the number of such accesses.  In the three engines no access
    leaves [hit] or [miss] lower than it found it: the counters after a
    prefix [tr1] of the trace are at most those after [tr1 ++ tr2]. *)
Theorem hit_miss_accounting_amended
    (cacheSize hirPercent : Z) (tr1 tr2 : list simulator.Trace) :
  0 <= hirPercent <= 100 ->
  2 * Z.of_nat (length (tr1 ++ tr2)) < max_int ->
  (∃ o, LIRS.NewLIRS cacheSize hirPercent = Some o ∧
     LIRS.hit (LIRS.run (tr1 ++ tr2) o) + LIRS.miss (LIRS.run (tr1 ++ tr2) o)
       = Z.of_nat (length (tr1 ++ tr2)) ∧
     LIRS.hit (LIRS.run tr1 o) <= LIRS.hit (LIRS.run (tr1 ++ tr2) o) ∧
     LIRS.miss (LIRS.run tr1 o) <= LIRS.miss (LIRS.run (tr1 ++ tr2) o)) ∧
  (∃ o, LIRSWSR.NewLIRSWSR cacheSize hirPercent = Some o ∧
     Z.of_nat (length (tr1 ++ tr2))
       - Z.of_nat (LIRSWSR_hir_resident_accesses (tr1 ++ tr2) o)
       <= LIRSWSR.hit (LIRSWSR.run (tr1 ++ tr2) o)
          + LIRSWSR.miss (LIRSWSR.run (tr1 ++ tr2) o)
       <= Z.of_nat (length (tr1 ++ tr2)) ∧
     LIRSWSR.hit (LIRSWSR.run tr1 o) <= LIRSWSR.hit (LIRSWSR.run (tr1 ++ tr2) o) ∧
     LIRSWSR.miss (LIRSWSR.run tr1 o) <= LIRSWSR.miss (LIRSWSR.run (tr1 ++ tr2) o)) ∧
  (∃ o, LIRSWSR2.NewLIRSWSR cacheSize hirPercent = Some o ∧
     Z.of_nat (length (tr1 ++ tr2))
       <= LIRSWSR2.hit (LIRSWSR2.run (tr1 ++ tr2) o)
          + LIRSWSR2.miss (LIRSWSR2.run (tr1 ++ tr2) o)
       <= Z.of_nat (length (tr1 ++ tr2))
          + Z.of_nat (LIRSWSR2_demotions (tr1 ++ tr2) o) ∧
     LIRSWSR2.hit (LIRSWSR2.run tr1 o) <= LIRSWSR2.hit (LIRSWSR2.run (tr1 ++ tr2) o) ∧
     LIRSWSR2.miss (LIRSWSR2.run tr1 o) <= LIRSWSR2.miss (LIRSWSR2.run (tr1 ++ tr2) o)).
Proof.
  intros Hh Hlen.
  unfold LIRS.NewLIRS, LIRSWSR.NewLIRSWSR, LIRSWSR2.NewLIRSWSR.
  destruct (decide (hirPercent > 100 ∨ hirPercent < 0)) as [Hbad|_]; [lia|].
  split; [|split].
  - eexists. split; [reflexivity|]. rewrite lirs_run_app.
    rewrite length_app, Nat2Z.inj_add in *.
    match goal with |- context [LIRS.run tr1 ?o] =>
      destruct (LIRSFacts.lirs_run_counts tr1 o 0) as (H1 & H2 & H3);
        [simpl; lia | simpl; lia | simpl; lia | lia |];
      destruct (LIRSFacts.lirs_run_counts tr2 (LIRS.run tr1 o) (Z.of_nat (length tr1)))
        as (H4 & H5 & H6); [simpl in *; lia | simpl in *; lia | lia | lia |]
    end.
    lia.
  - eexists. split; [reflexivity|].
    match goal with |- context [LIRSWSR.run (tr1 ++ tr2) ?o] =>
      pose proof (LIRSWSRFacts.wsr_run_counts_resident (tr1 ++ tr2) o) as HL
    end.
    rewrite wsr_run_app in *. rewrite length_app, Nat2Z.inj_add in *.
    match goal with |- context [LIRSWSR.run tr1 ?o] =>
      destruct (LIRSWSRFacts.wsr_run_counts tr1 o 0) as (H1 & H2 & H3);
        [simpl; lia | simpl; lia | simpl; lia | lia |];
      destruct (LIRSWSRFacts.wsr_run_counts tr2 (LIRSWSR.run tr1 o)
                  (Z.of_nat (length tr1)))
        as (H4 & H5 & H6); [simpl in *; lia | simpl in *; lia | lia | lia |]
    end.
    simpl in HL. lia.
  - eexists. split; [reflexivity|].
    match goal with |- context [LIRSWSR2.run (tr1 ++ tr2) ?o] =>
      pose proof (LIRSWSR2Facts.wsr2_run_counts_demotions (tr1 ++ tr2) o) as HU
    end.
    rewrite wsr2_run_app in *. rewrite length_app, Nat2Z.inj_add in *.
    match goal with |- context [LIRSWSR2.run tr1 ?o] =>
      destruct (LIRSWSR2Facts.wsr2_run_counts tr1 o 0) as (H1 & H2 & H3 & H3');
        [simpl; lia | simpl; lia | simpl; lia | lia |];
      destruct (LIRSWSR2Facts.wsr2_run_counts tr2 (LIRSWSR2.run tr1 o)
                  (2 * Z.of_nat (length tr1)))
        as (H4 & H5 & H6 & H6'); [simpl in *; lia | simpl in *; lia | lia | lia |]
    end.
    simpl in *. lia.
Qed.

Lemma hit_miss_accounting_amended_witness :
  (∃ o, LIRS.NewLIRS 4 50 = Some o ∧
     LIRS.hit (LIRS.run ([R 1; R 2; R 3] ++ [R 1; R 2; R 3]) o)
       + LIRS.miss (LIRS.run ([R 1; R 2; R 3] ++ [R 1; R 2; R 3]) o)
       = Z.of_nat (length ([R 1; R 2; R 3] ++ [R 1; R 2; R 3])) ∧
     LIRS.hit (LIRS.run [R 1; R 2; R 3] o)
       <= LIRS.hit (LIRS.run ([R 1; R 2; R 3] ++ [R 1; R 2; R 3]) o) ∧
     LIRS.miss (LIRS.run [R 1; R 2; R 3] o)
       <= LIRS.miss (LIRS.run ([R 1; R 2; R 3] ++ [R 1; R 2; R 3]) o)) ∧
  (∃ o, LIRSWSR.NewLIRSWSR 4 50 = Some o ∧
     Z.of_nat (length ([R 1; R 2; R 3] ++ [R 1; R 2; R 3]))
       - Z.of_nat (LIRSWSR_hir_resident_accesses
                     ([R 1; R 2; R 3] ++ [R 1; R 2; R 3]) o)
       <= LIRSWSR.hit (LIRSWSR.run ([R 1; R 2; R 3] ++ [R 1; R 2; R 3]) o)
          + LIRSWSR.miss (LIRSWSR.run ([R 1; R 2; R 3] ++ [R 1; R 2; R 3]) o)
       <= Z.of_nat (length ([R 1; R 2; R 3] ++ [R 1; R 2; R 3])) ∧
     LIRSWSR.hit (LIRSWSR.run [R 1; R 2; R 3] o)
       <= LIRSWSR.hit (LIRSWSR.run ([R 1; R 2; R 3] ++ [R 1; R 2; R 3]) o) ∧
     LIRSWSR.miss (LIRSWSR.run [R 1; R 2; R 3] o)
       <= LIRSWSR.miss (LIRSWSR.run ([R 1; R 2; R 3] ++ [R 1; R 2; R 3]) o)) ∧
  (∃ o, LIRSWSR2.NewLIRSWSR 4 50 = Some o ∧
     Z.of_nat (length ([R 1; R 2; R 3] ++ [R 1; R 2; R 3]))
       <= LIRSWSR2.hit (LIRSWSR2.run ([R 1; R 2; R 3] ++ [R 1; R 2; R 3]) o)
          + LIRSWSR2.miss (LIRSWSR2.run ([R 1; R 2; R 3] ++ [R 1; R 2; R 3]) o)
       <= Z.of_nat (length ([R 1; R 2; R 3] ++ [R 1; R 2; R 3]))
          + Z.of_nat (LIRSWSR2_demotions ([R 1; R 2; R 3] ++ [R 1; R 2; R 3]) o) ∧
     LIRSWSR2.hit (LIRSWSR2.run [R 1; R 2; R 3] o)
       <= LIRSWSR2.hit (LIRSWSR2.run ([R 1; R 2; R 3] ++ [R 1; R 2; R 3]) o) ∧
     LIRSWSR2.miss (LIRSWSR2.run [R 1; R 2; R 3] o)
       <= LIRSWSR2.miss (LIRSWSR2.run ([R 1; R 2; R 3] ++ [R 1; R 2; R 3]) o)).
Proof.
  apply (hit_miss_accounting_amended 4 50 [R 1; R 2; R 3] [R 1; R 2; R 3]);
    [lia | vm_compute; reflexivity].
Defined.

(** C4 as stated fails by design in the second LIRS-WSR variant, whose
    demotion counts a miss when it puts the popped block back on top of S.
    After the accesses 1, 2, 3, 3, 2, 1, 4 the bottom of S is block 3, clean
    and accessed twice, so that the test of the demotion is false for it
    also before the pop; the access of block 4 promotes it, the demotion
    puts block 3 back and counts a miss, and the one access adds two to
    [hit + miss], which then differs from the number of accesses.  The
    identity also fails in the first variant: after 1, 2, 3, 1, 2, 3 it has
    counted five, the last access, of a block in list Q and not in S,
    counting nothing. *)
Lemma hit_miss_accounting_counterexample :
  (∃ o, LIRSWSR2.NewLIRSWSR 4 50 = Some o ∧
     let s := LIRSWSR2.run [R 1; R 2; R 3; R 3; R 2; R 1; R 4] o in
     let x := LIRSWSR2.removeFromList 4
                (LIRSWSR2.makeLIR 4
                   (LIRSWSR2.with_hit (GoInt.add (LIRSWSR2.hit s) 1) s)) in
     OrderedMap.GetFirst (LIRSWSR2.orderedStack x)
       = Some (3, LIRSWSR2.mkBlockInfo 0 "" false true 2) ∧
     LIRSWSR2.isBlockColdDirty 3 x || LIRSWSR2.isColdFlag 3 x = false ∧
     LIRSWSR2.hit (snd (LIRSWSR2.Get (R 4) s))
       + LIRSWSR2.miss (snd (LIRSWSR2.Get (R 4) s))
       = LIRSWSR2.hit s + LIRSWSR2.miss s + 2 ∧
     LIRSWSR2.hit (LIRSWSR2.run [R 1; R 2; R 3; R 3; R 2; R 1; R 4; R 4] o)
       + LIRSWSR2.miss (LIRSWSR2.run [R 1; R 2; R 3; R 3; R 2; R 1; R 4; R 4] o)
       ≠ Z.of_nat (length [R 1; R 2; R 3; R 3; R 2; R 1; R 4; R 4])) ∧
  (∃ o, LIRSWSR.NewLIRSWSR 4 50 = Some o ∧
     let o' := LIRSWSR.run [R 1; R 2; R 3; R 1; R 2; R 3] o in
     LIRSWSR.hit o' + LIRSWSR.miss o' = 5 ∧
     LIRSWSR.hit o' + LIRSWSR.miss o'
       ≠ Z.of_nat (length [R 1; R 2; R 3; R 1; R 2; R 3])).
Proof.
  split; eexists; (split; [reflexivity|]); cbv zeta.
  - split; [vm_compute; reflexivity|]. split; [vm_compute; reflexivity|].
    split; [vm_compute; reflexivity | vm_compute; discriminate].
  - split; [vm_compute; reflexivity | vm_compute; discriminate].
Qed.

End Claims.

(** * Further properties of the engines *)

(** ** Keys of the ordered container *)

Module OrderedMapKeys.
Import OrderedMap OrderedMapFacts.

Section Keys.
Context {V : Type}.
Implicit Types (om : OrderedMap.t V) (k key : Z) (v : V).

Lemma Get_overwrite_ne key k v om :
  key ≠ k -> Get k (overwrite key v om) = Get k om.
Proof.
  intros Hne. induction om as [|[k' w] om IH]; simpl; [done|].
  destruct (decide (k' = key)) as [->|Hk]; simpl.
  - by rewrite !decide_False by done.
  - destruct (decide (k' = k)); [done | apply IH].
Qed.

Lemma Get_snoc_ne key k v om :
  key ≠ k -> Get k (om ++ [(key, v)]) = Get k om.
Proof.
  intros Hne. induction om as [|[k' w] om IH]; simpl.
  - by rewrite decide_False.
  - destruct (decide (k' = k)); [done | apply IH].
Qed.

Lemma Get_Set_ne key k v om : key ≠ k -> Get k (Set_ key v om) = Get k om.
Proof.
  intros Hne. unfold Set_. destruct (Get key om).
  - by apply Get_overwrite_ne.
  - by apply Get_snoc_ne.
Qed.

Lemma Get_Delete_ne key k om : key ≠ k -> Get k (Delete key om) = Get k om.
Proof.
  intros Hne. induction om as [|[k' w] om IH]; simpl; [done|].
  destruct (decide (k' = key)) as [->|Hk].
  - rewrite bool_decide_eq_true_2 by done. simpl.
    by rewrite decide_False by done.
  - rewrite bool_decide_eq_false_2 by done. simpl.
    destruct (decide (k' = k)); [done | apply IH].
Qed.

Lemma Get_MoveLast key k om : Get k (MoveLast key om) = Get k om.
Proof.
  unfold MoveLast. destruct (Get key om) as [w|] eqn:E; [|done].
  destruct (decide (key = k)) as [->|Hne].
  - rewrite Get_snoc_fresh by apply Get_Delete_eq. done.
  - rewrite Get_snoc_ne by done. by apply Get_Delete_ne.
Qed.

Lemma is_Some_Get_Set key k v om :
  is_Some (Get k (Set_ key v om)) <-> k = key ∨ is_Some (Get k om).
Proof.
  destruct (decide (key = k)) as [->|Hne].
  - rewrite Get_Set_eq. split; eauto.
  - rewrite Get_Set_ne by done. split; [eauto | intros [?|?]; [congruence | done]].
Qed.

Lemma is_Some_Get_Delete key k om :
  is_Some (Get k (Delete key om)) <-> k ≠ key ∧ is_Some (Get k om).
Proof.
  destruct (decide (key = k)) as [->|Hne].
  - rewrite Get_Delete_eq. split; [intros [? ?]; done | intros [? _]; done].
  - rewrite Get_Delete_ne by done. split; [intros ?; split; [congruence | done] | by intros [_ ?]].
Qed.

Lemma Get_app_skip k (removed om : OrderedMap.t V) :
  Forall (fun e => fst e ≠ k) removed -> Get k (removed ++ om) = Get k om.
Proof.
  induction 1 as [|[k' w] l Hk Hl IH]; simpl; [done|].
  simpl in Hk. by rewrite decide_False.
Qed.

Lemma last_keys_snoc key v om : last (keys (om ++ [(key, v)])) = Some key.
Proof. unfold keys. rewrite List.map_app. simpl. apply last_snoc. Qed.

Lemma last_keys_MoveLast key om :
  is_Some (Get key om) -> last (keys (MoveLast key om)) = Some key.
Proof.
  intros [w E]. unfold MoveLast. rewrite E. apply last_keys_snoc.
Qed.

Lemma last_keys_Set_fresh key v om :
  Get key om = None -> last (keys (Set_ key v om)) = Some key.
Proof. intros E. unfold Set_. rewrite E. apply last_keys_snoc. Qed.

Lemma keys_nonempty_last key om : last (keys om) = Some key -> om ≠ [].
Proof. by destruct om. Qed.

End Keys.
End OrderedMapKeys.

(** ** More on the keys of the ordered container *)

Module OrderedMapMore.
Import OrderedMap OrderedMapFacts OrderedMapKeys.

Section More.
Context {V : Type}.
Implicit Types (om : OrderedMap.t V) (k key : Z) (v : V).

Lemma wf_app_r (removed om : OrderedMap.t V) : wf (removed ++ om) -> wf om.
Proof.
  unfold wf, keys. rewrite List.map_app. intros H.
  by apply NoDup_app in H as (_ & _ & H).
Qed.

Lemma keys_Set_present key v om :
  is_Some (Get key om) -> keys (Set_ key v om) = keys om.
Proof. intros [w E]. unfold Set_. rewrite E. apply keys_overwrite. Qed.

Lemma last_keys_present key om : last (keys om) = Some key -> is_Some (Get key om).
Proof.
  intros H. apply Get_Some_keys. apply last_Some in H as [l ->].
  apply elem_of_app. right. by apply list_elem_of_singleton.
Qed.

Lemma is_Some_Get_overwrite key k v om :
  is_Some (Get k (overwrite key v om)) <-> is_Some (Get k om).
Proof. by rewrite !Get_Some_keys, keys_overwrite. Qed.

Lemma is_Some_Get_Set_present key k v om :
  is_Some (Get key om) ->
  is_Some (Get k (Set_ key v om)) <-> is_Some (Get k om).
Proof. intros H. by rewrite !Get_Some_keys, keys_Set_present. Qed.

End More.
End OrderedMapMore.

(** ** The LIRS engine: what every run keeps *)

Module LIRSRuns.
Import GoInt GoIntFacts OrderedMap OrderedMapFacts OrderedMapKeys LIRS LIRSFacts.

(** [stackPruning] removes a prefix of entries none of which is in the LIR
    set, and nothing else. *)
Lemma lirs_stackPruning_loop_prefix it o :
  orderedStack o = it ->
  ∃ removed,
    it = removed ++ orderedStack (stackPruning_loop it o) ∧
    Forall (fun e => LIR o !! fst e = None) removed.
Proof.
  revert o. induction it as [|[k v] it IH]; intros o Hst; simpl.
  - exists []. by rewrite Hst.
  - destruct (LIR o !! k) eqn:E.
    + exists []. by rewrite Hst.
    + destruct (IH (with_orderedStack (snd (PopFirst (orderedStack o))) o))
        as (removed & Heq & Hall); [simpl; by rewrite Hst|].
      exists ((k, v) :: removed). simpl. split; [by f_equal|].
      apply Forall_cons. split; done.
Qed.

Lemma lirs_condition1_shape (removeLIR : bool) (o : LIRS) (key v : Z) (st : OrderedMap.t Z) :
  orderedStack o = (key, v) :: st ->
  let lir := if removeLIR then delete key (LIR o) else LIR o in
  ∃ removed st',
    st = removed ++ st' ∧
    Forall (fun e => lir !! fst e = None) removed ∧
    bottom_in lir st' ∧
    condition1 removeLIR o =
      (None,
       mkLIRS (cacheSize o) (LIRSize o) (HIRSize o) (hit o) (miss o)
              (writeCount o) st'
              (if removeLIR
               then MoveLast key (Set_ key 1 (orderedList o))
               else orderedList o)
              lir
              (if removeLIR then <[key := 1]> (HIR o) else HIR o)
              (cache o)).
Proof.
  intros E lir. unfold condition1. rewrite E. simpl.
  match goal with |- context [stackPruning ?x] => set (x0 := x) end.
  destruct (lirs_stackPruning_loop_prefix (orderedStack x0) x0 eq_refl)
    as (removed & Heq & Hall).
  pose proof (lirs_stackPruning_bottom x0) as Hb.
  destruct (lirs_stackPruning_frame x0) as [st' Hfr].
  change (stackPruning_loop (orderedStack x0) x0) with (stackPruning x0) in Heq.
  rewrite Hfr in Heq, Hb |- *.
  exists removed, st'. subst x0 lir.
  destruct removeLIR; simpl in *; by destruct o.
Qed.

Lemma lirs_addToStack_shape block o :
  ∃ st, addToStack block o = with_orderedStack st o ∧
        last (keys st) = Some block ∧
        ∀ k, is_Some (OrderedMap.Get k st) <->
             k = block ∨ is_Some (OrderedMap.Get k (orderedStack o)).
Proof.
  unfold addToStack. destruct (OrderedMap.Get block (orderedStack o)) eqn:E.
  - eexists. split; [done|]. split; [apply last_keys_MoveLast; eauto|].
    intros k. rewrite Get_MoveLast. split; [eauto|].
    intros [->|?]; [rewrite E; eauto | done].
  - eexists. split; [done|]. split; [by apply last_keys_Set_fresh|].
    intros k. apply is_Some_Get_Set.
Qed.

Lemma lirs_addToList_shape block o :
  ∃ q, addToList block o = with_orderedList q o ∧
       ∀ k, is_Some (OrderedMap.Get k q) ->
            k = block ∨ is_Some (OrderedMap.Get k (orderedList o)).
Proof.
  unfold addToList.
  destruct (decide (Len (orderedList o) = HIRSize o)); simpl.
  - eexists. split; [done|]. intros k Hk.
    apply is_Some_Get_Set in Hk as [?|Hk]; [by left | right].
    destruct (orderedList o) as [|[k0 v0] q]; simpl in *; [done|].
    destruct (decide (k0 = k)); eauto.
  - eexists. split; [by destruct o|]. intros k Hk.
    by apply is_Some_Get_Set in Hk.
Qed.

Lemma lirs_cold_counters (o : LIRS) block :
  ∃ h m,
    match LIR o !! block with
    | Some _ => with_hit (add (hit o) 1)
                  (with_miss (sub (add (miss o) 1) 1)
                     (with_miss (add (miss o) 1) o))
    | None => with_miss (add (miss o) 1) o
    end = with_hit h (with_miss m o).
Proof.
  destruct (LIR o !! block).
  - by eexists _, _.
  - exists (hit o), (add (miss o) 1). by destruct o.
Qed.

Lemma classes_disjoint_makeLIR lir hir block :
  classes_disjoint lir hir ->
  classes_disjoint (<[block := 1]> lir) (delete block hir).
Proof.
  intros H k. destruct (decide (block = k)) as [->|Hne].
  - right. apply lookup_delete_eq.
  - rewrite lookup_insert_ne, lookup_delete_ne by done. apply H.
Qed.

Lemma classes_disjoint_makeHIR lir hir block :
  classes_disjoint lir hir ->
  classes_disjoint (delete block lir) (<[block := 1]> hir).
Proof.
  intros H k. destruct (decide (block = k)) as [->|Hne].
  - left. apply lookup_delete_eq.
  - rewrite lookup_insert_ne, lookup_delete_ne by done. apply H.
Qed.

Lemma removed_skip {V : Type} (lir : gmap Z Z) k (removed : OrderedMap.t V) :
  is_Some (lir !! k) ->
  Forall (fun e => lir !! fst e = None) removed ->
  Forall (fun e => fst e ≠ k) removed.
Proof.
  intros [x Hk] H. eapply Forall_impl; [exact H|].
  intros e He Heq. simpl in *. rewrite Heq in He. congruence.
Qed.

Lemma Get_tail_ne {V : Type} k key (v : V) st :
  k ≠ key -> is_Some (OrderedMap.Get k ((key, v) :: st)) ->
  is_Some (OrderedMap.Get k st).
Proof. intros Hne. simpl. by rewrite decide_False by done. Qed.

Lemma promote_size_le (lir : gmap Z Z) block key :
  lir !! block = None ->
  (size lir <= size (delete key (<[block := 1%Z]> lir)))%nat.
Proof.
  intros Hb. rewrite map_size_delete, map_size_insert, Hb.
  destruct (<[block:=1]> lir !! key); simpl; lia.
Qed.

(** What one [Get] keeps, and what it establishes. *)
Lemma lirs_Get_keeps trace o :
  classes_disjoint (LIR o) (HIR o) ->
  held_in (LIR o) (orderedStack o) ->
  keys_in (orderedList o) (HIR o) ->
  let o' := snd (LIRS.Get trace o) in
  classes_disjoint (LIR o') (HIR o') ∧
  held_in (LIR o') (orderedStack o') ∧
  keys_in (orderedList o') (HIR o') ∧
  last (keys (orderedStack o')) = Some (simulator.Addr trace) ∧
  (size (LIR o) <= size (LIR o'))%nat.
Proof.
  intros HD HJ HQ. unfold LIRS.Get.
  set (o1 := if decide (simulator.Op trace = "W"%string)
             then with_writeCount (GoInt.add (writeCount o) 1) o else o).
  assert (Hl : LIR o1 = LIR o) by (subst o1; by destruct (decide _)).
  assert (Hh : HIR o1 = HIR o) by (subst o1; by destruct (decide _)).
  assert (Hs : orderedStack o1 = orderedStack o) by (subst o1; by destruct (decide _)).
  assert (Hq : orderedList o1 = orderedList o) by (subst o1; by destruct (decide _)).
  rewrite <- Hl, <- Hh, <- Hs, <- Hq in *. clearbody o1. clear Hl Hh Hs Hq o.
  set (block := simulator.Addr trace).
  destruct (decide (Z.of_nat (size (LIR o1)) < LIRSize o1)) as [Hlt|Hge].
  - simpl.
    destruct (lirs_cold_counters o1 block) as (h & m & ->).
    destruct (lirs_addToStack_shape block (with_hit h (with_miss m o1)))
      as (st & -> & Hlast & Hst).
    simpl in *. split; [by apply classes_disjoint_makeLIR|].
    split; [|split; [|split; [done|]]].
    + intros k Hk. apply Hst. apply lookup_insert_is_Some' in Hk as [<-|Hk];
        [by left | right; by apply HJ].
    + intros k Hk. apply is_Some_Get_Delete in Hk as [Hne Hk].
      apply lookup_delete_is_Some. split; [congruence | by apply HQ].
    + rewrite map_size_insert. destruct (LIR o1 !! block); simpl; lia.
  - cbv zeta. destruct (LIR o1 !! block) eqn:EL.
    + unfold handleLIRBlock. cbv zeta. simpl orderedStack.
      destruct (orderedStack o1) as [|[key v] st] eqn:ES.
      { destruct (HJ block) as [? ?]; [eauto | done]. }
      simpl GetFirst. cbv iota beta.
      destruct (decide (key = block)) as [->|Hne].
      * destruct (lirs_condition1_shape false (with_hit (add (hit o1) 1) o1)
                    block v st ES) as (removed & st' & -> & Hall & _ & ->).
        simpl snd.
        match goal with |- context [addToStack block ?x] =>
          destruct (lirs_addToStack_shape block x) as (st2 & -> & Hlast & Hst) end.
        simpl in *. split; [done|]. split; [|split; [done | split; [done | lia]]].
        intros k Hk. apply Hst.
        destruct (decide (k = block)) as [|Hkb]; [by left | right].
        rewrite <- (Get_app_skip k removed st')
          by (eapply removed_skip; [exact Hk | exact Hall]).
        eapply Get_tail_ne; [exact Hkb|]. by apply HJ.
      * match goal with |- context [addToStack block ?x] =>
          destruct (lirs_addToStack_shape block x) as (st2 & -> & Hlast & Hst) end.
        simpl in *. split; [done|]. split; [|split; [done | split; [done | lia]]].
        intros k Hk. apply Hst. right. rewrite ES. by apply HJ.
    + assert (Hprom : ∀ (x : LIRS) q,
                LIR x = LIR o1 -> HIR x = HIR o1 ->
                orderedStack x = orderedStack o1 -> orderedList x = q ->
                (∀ k, is_Some (OrderedMap.Get k q) ->
                      k = block ∨ is_Some (OrderedMap.Get k (orderedList o1))) ->
                is_Some (OrderedMap.Get block (orderedStack x)) ->
                let o' := addToStack block
                            (snd (condition1 true
                                    (removeFromList block (makeLIR block x)))) in
                classes_disjoint (LIR o') (HIR o') ∧
                held_in (LIR o') (orderedStack o') ∧
                keys_in (orderedList o') (HIR o') ∧
                last (keys (orderedStack o')) = Some block ∧
                (size (LIR o1) <= size (LIR o'))%nat).
      { intros x q HxL HxH HxS HxQ Hqk [w Hw]. rewrite HxS in Hw.
        destruct (orderedStack o1) as [|[key v] st] eqn:ES; [done|].
        destruct (lirs_condition1_shape true
                    (removeFromList block (makeLIR block x)) key v st)
          as (removed & st' & -> & Hall & _ & ->); [simpl; by rewrite HxS|].
        cbv zeta. simpl snd.
        match goal with |- context [addToStack block ?y] =>
          destruct (lirs_addToStack_shape block y) as (st2 & -> & Hlast & Hst) end.
        simpl in *. rewrite HxL, HxH, HxQ in *.
        split; [by apply classes_disjoint_makeHIR, classes_disjoint_makeLIR|].
        split; [|split; [|split; [done | by apply promote_size_le]]].
        - intros k Hk. apply Hst.
          destruct (decide (k = block)) as [|Hkb]; [by left | right].
          pose proof Hk as Hk'.
          apply lookup_delete_is_Some in Hk' as [Hkk Hk'].
          rewrite lookup_insert_ne in Hk' by done.
          rewrite <- (Get_app_skip k removed st')
            by (eapply removed_skip; [exact Hk | exact Hall]).
          eapply (Get_tail_ne k key v); [congruence|]. by apply HJ.
        - intros k Hk. rewrite Get_MoveLast in Hk.
          apply is_Some_Get_Set in Hk as [->|Hk];
            [rewrite lookup_insert_eq; eauto|].
          apply is_Some_Get_Delete in Hk as [Hkb Hk].
          apply is_Some_Get_Delete in Hk as [_ Hk].
          apply Hqk in Hk as [?|Hk]; [done|].
          apply lookup_insert_is_Some'. right.
          apply lookup_delete_is_Some. split; [congruence | by apply HQ]. }
      destruct (OrderedMap.Get block (orderedList o1)) eqn:EQ.
      * unfold handleHIRResidentBlock. cbv zeta.
        destruct (OrderedMap.Get block
                    (orderedStack (with_hit (add (hit o1) 1) o1))) eqn:EG;
          simpl in EG.
        -- apply (Hprom (with_hit (add (hit o1) 1) o1) (orderedList o1));
             simpl; eauto.
        -- match goal with |- context [addToStack block ?x] =>
             destruct (lirs_addToStack_shape block x) as (st2 & -> & Hlast & Hst) end.
           simpl in *. split; [done|]. split; [|split; [|split; [done | lia]]].
           ++ intros k Hk. apply Hst. right. by apply HJ.
           ++ intros k Hk. rewrite Get_MoveLast in Hk. by apply HQ.
      * unfold handleHIRNonResidentBlock. cbv zeta.
        destruct (lirs_addToList_shape block (with_miss (add (miss o1) 1) o1))
          as (q & -> & Hqk).
        destruct (OrderedMap.Get block
                    (orderedStack
                       (with_orderedList q (with_miss (add (miss o1) 1) o1))))
          eqn:EG; simpl in EG.
        -- apply (Hprom (with_orderedList q (with_miss (add (miss o1) 1) o1)) q);
             simpl; eauto.
        -- match goal with |- context [addToStack block ?x] =>
             destruct (lirs_addToStack_shape block x) as (st2 & -> & Hlast & Hst) end.
           simpl in *.
           split; [by apply classes_disjoint_makeHIR|].
           split; [|split; [|split; [done|]]].
           ++ intros k Hk. apply Hst. right.
              apply lookup_delete_is_Some in Hk as [_ Hk]. by apply HJ.
           ++ intros k Hk. apply lookup_insert_is_Some'.
              apply Hqk in Hk as [->|Hk]; [by left | right; by apply HQ].
           ++ rewrite map_size_delete_None by done. lia.
Qed.

End LIRSRuns.

(** ** The first LIRS-WSR variant: what every run keeps *)

Module LIRSWSRRuns.
Import GoInt GoIntFacts OrderedMap OrderedMapFacts OrderedMapKeys.
Import OrderedMapMore LIRSWSR LIRSWSRFacts.

Lemma wsr_stackPruning_loop_prefix it o :
  orderedStack o = it ->
  ∃ removed,
    it = removed ++ orderedStack (stackPruning_loop it o) ∧
    Forall (fun e => LIR o !! fst e = None) removed.
Proof.
  revert o. induction it as [|[k v] it IH]; intros o Hst; simpl.
  - exists []. by rewrite Hst.
  - destruct (LIR o !! k) eqn:E.
    + exists []. by rewrite Hst.
    + destruct (IH (with_orderedStack (snd (PopFirst (orderedStack o))) o))
        as (removed & Heq & Hall); [simpl; by rewrite Hst|].
      exists ((k, v) :: removed). simpl. split; [by f_equal|].
      apply Forall_cons. split; done.
Qed.

Lemma wsr_stackPruning_shape o :
  ∃ removed st',
    orderedStack o = removed ++ st' ∧
    Forall (fun e => LIR o !! fst e = None) removed ∧
    stackPruning o = with_orderedStack st' o.
Proof.
  destruct (wsr_stackPruning_loop_prefix (orderedStack o) o eq_refl)
    as (removed & Heq & Hall).
  destruct (wsr_stackPruning_frame o) as [st' Hfr].
  change (stackPruning_loop (orderedStack o) o) with (stackPruning o) in Heq.
  rewrite Hfr in Heq. simpl in Heq. by exists removed, st'.
Qed.

(** On a stack with one entry per key a demotion puts the popped entry back
    and changes nothing but the stack. *)
Lemma wsr_condition_shape (first removeLIR : bool) (o : LIRSWSR)
    (key : Z) (v : BlockInfo) (st : OrderedMap.t BlockInfo) :
  orderedStack o = (key, v) :: st -> wf (orderedStack o) ->
  ∃ removed st',
    (if removeLIR then MoveLast key (Set_ key coldBlockInfo st) else st)
      = removed ++ st' ∧
    Forall (fun e => LIR o !! fst e = None) removed ∧
    (if first then condition1 removeLIR o else condition3 removeLIR o)
      = (None, with_orderedStack st' o).
Proof.
  intros E Hwf. rewrite E in Hwf.
  assert (Habs : OrderedMap.Get key st = None) by (by eapply Get_popped).
  assert (Hpre : ∀ x : LIRSWSR,
            x = (if removeLIR
                 then with_orderedStack
                        (MoveLast key (Set_ key coldBlockInfo st)) o
                 else with_orderedStack st o) ->
            ∃ removed st',
              (if removeLIR then MoveLast key (Set_ key coldBlockInfo st) else st)
                = removed ++ st' ∧
              Forall (fun e => LIR o !! fst e = None) removed ∧
              stackPruning x = with_orderedStack st' o).
  { intros x ->. destruct removeLIR.
    - destruct (wsr_stackPruning_shape
                  (with_orderedStack (MoveLast key (Set_ key coldBlockInfo st)) o))
        as (removed & st' & H1 & H2 & H3).
      exists removed, st'. by rewrite H3.
    - destruct (wsr_stackPruning_shape (with_orderedStack st o))
        as (removed & st' & H1 & H2 & H3).
      exists removed, st'. by rewrite H3. }
  destruct (Hpre _ eq_refl) as (removed & st' & H1 & H2 & H3).
  exists removed, st'. split; [done|]. split; [done|].
  destruct first.
  - rewrite wsr_condition1_demote, E. simpl.
    rewrite wsr_demote_absent by done. simpl.
    f_equal. rewrite <- H3. by destruct removeLIR.
  - rewrite wsr_condition3_demote, E. simpl.
    rewrite wsr_demote_absent by done. simpl.
    f_equal. rewrite <- H3. by destruct removeLIR.
Qed.

Lemma wsr_addToStack_shape block op o :
  ∃ st w, addToStack block op o = with_orderedStack st (with_writeCount w o) ∧
          last (keys st) = Some block ∧
          (∀ k, is_Some (OrderedMap.Get k st) <->
                k = block ∨ is_Some (OrderedMap.Get k (orderedStack o))) ∧
          (wf (orderedStack o) -> wf st).
Proof.
  unfold addToStack. destruct (OrderedMap.Get block (orderedStack o)) eqn:E.
  - eexists _, (writeCount o). split; [by destruct o|]. simpl.
    split; [apply last_keys_MoveLast, is_Some_Get_overwrite; eauto|].
    split; [|intros H; by apply wf_MoveLast, wf_overwrite].
    intros k. rewrite Get_MoveLast, is_Some_Get_overwrite. split; [eauto|].
    intros [->|?]; [rewrite E; eauto | done].
  - destruct (decide (op = "W"%string)).
    + eexists _, _. split; [done|]. split; [by apply last_keys_Set_fresh|].
      split; [intros k; apply is_Some_Get_Set | apply wf_Set].
    + eexists _, (writeCount o). split; [by destruct o|].
      split; [by apply last_keys_Set_fresh|].
      split; [intros k; apply is_Some_Get_Set | apply wf_Set].
Qed.

Lemma wsr_cold_counters (o : LIRSWSR) block :
  ∃ h m,
    match LIR o !! block with
    | Some _ => with_hit (add (hit o) 1)
                  (with_miss (sub (add (miss o) 1) 1)
                     (with_miss (add (miss o) 1) o))
    | None => with_miss (add (miss o) 1) o
    end = with_hit h (with_miss m o).
Proof.
  destruct (LIR o !! block).
  - by eexists _, _.
  - exists (hit o), (add (miss o) 1). by destruct o.
Qed.

(** What one [Get] keeps, and what it establishes. *)
Lemma wsr_Get_keeps trace o :
  wf (orderedStack o) ->
  classes_disjoint (LIR o) (HIR o) ->
  held_in (LIR o) (orderedStack o) ->
  let o' := snd (LIRSWSR.Get trace o) in
  wf (orderedStack o') ∧
  classes_disjoint (LIR o') (HIR o') ∧
  held_in (LIR o') (orderedStack o') ∧
  last (keys (orderedStack o')) = Some (simulator.Addr trace) ∧
  (∀ k, is_Some (LIR o !! k) -> is_Some (LIR o' !! k)).
Proof.
  intros Hwf HD HJ. unfold LIRSWSR.Get.
  set (block := simulator.Addr trace). set (op := simulator.Op trace).
  destruct (decide (Z.of_nat (size (LIR o)) < LIRSize o)) as [Hlt|Hge].
  - simpl.
    destruct (wsr_cold_counters o block) as (h & m & ->).
    destruct (wsr_addToStack_shape block op (with_hit h (with_miss m o)))
      as (st & w & -> & Hlast & Hst & Hwst).
    simpl in *. split; [by apply Hwst|].
    split; [by apply LIRSRuns.classes_disjoint_makeLIR|].
    split; [|split; [done|]].
    + intros k Hk. apply Hst. apply lookup_insert_is_Some' in Hk as [<-|Hk];
        [by left | right; by apply HJ].
    + intros k Hk. apply lookup_insert_is_Some'. by right.
  - cbv zeta. destruct (LIR o !! block) eqn:EL.
    + unfold handleLIRBlock. cbv zeta. simpl orderedStack.
      destruct (orderedStack o) as [|[key v] st] eqn:ES.
      { destruct (HJ block) as [? ?]; [eauto | done]. }
      simpl GetFirst. cbv iota beta.
      assert (Hfin : ∀ (x : LIRSWSR),
                LIR x = LIR o -> HIR x = HIR o ->
                wf (orderedStack x) ->
                (∀ k, is_Some (LIR o !! k) -> k ≠ block ->
                      is_Some (OrderedMap.Get k (orderedStack x))) ->
                let y := addToStack block op x in
                let o' := with_orderedStack
                            (Set_ block coldBlockInfo (orderedStack y)) y in
                wf (orderedStack o') ∧
                classes_disjoint (LIR o') (HIR o') ∧
                held_in (LIR o') (orderedStack o') ∧
                last (keys (orderedStack o')) = Some block ∧
                (∀ k, is_Some (LIR o !! k) -> is_Some (LIR o' !! k))).
      { intros x HxL HxH Hxw Hxk. cbv zeta.
        destruct (wsr_addToStack_shape block op x)
          as (st2 & w & -> & Hlast & Hst & Hwst).
        simpl. rewrite HxL, HxH.
        pose proof (last_keys_present _ _ Hlast) as Hpres.
        split; [by apply wf_Set, Hwst|]. split; [done|].
        split; [|split; [by rewrite keys_Set_present | done]].
        intros k Hk. apply is_Some_Get_Set_present; [done|]. apply Hst.
        destruct (decide (k = block)); [by left | right; by apply Hxk]. }
      destruct (decide (key = block)) as [->|Hne].
      * destruct (wsr_condition_shape true false (with_hit (add (hit o) 1) o)
                    block v st ES) as (removed & st' & Hbase & Hall & Hc);
          [simpl; by rewrite ES|].
        cbv beta iota in Hc. rewrite Hc. simpl snd.
        apply Hfin; simpl; [done | done | |].
        -- eapply wf_app_r. rewrite <- Hbase.
           by apply (wf_PopFirst ((block, v) :: st)).
        -- intros k Hk Hkb.
           rewrite <- (Get_app_skip k removed st')
             by (eapply LIRSRuns.removed_skip; [exact Hk | exact Hall]).
           rewrite <- Hbase. eapply LIRSRuns.Get_tail_ne; [exact Hkb|]. by apply HJ.
      * apply Hfin; simpl; [done | done | by rewrite ES |].
        intros k Hk _. rewrite ES. by apply HJ.
    + assert (Hprom : ∀ (first : bool) (x : LIRSWSR),
                LIR x = LIR o -> HIR x = HIR o ->
                orderedStack x = orderedStack o ->
                is_Some (OrderedMap.Get block (orderedStack x)) ->
                let o' := addToStack block op
                            (snd ((if first then condition1 true
                                   else condition3 true)
                                    (removeFromList block (makeLIR block x)))) in
                wf (orderedStack o') ∧
                classes_disjoint (LIR o') (HIR o') ∧
                held_in (LIR o') (orderedStack o') ∧
                last (keys (orderedStack o')) = Some block ∧
                (∀ k, is_Some (LIR o !! k) -> is_Some (LIR o' !! k))).
      { intros first x HxL HxH HxS [w Hw]. rewrite HxS in Hw.
        destruct (orderedStack o) as [|[key v] st] eqn:ES; [done|].
        destruct (wsr_condition_shape first true
                    (removeFromList block (makeLIR block x)) key v st)
          as (removed & st' & Hbase & Hall & Hc);
          [simpl; by rewrite HxS | simpl; by rewrite HxS|].
        cbv zeta.
        assert ((if first then condition1 true else condition3 true)
                  (removeFromList block (makeLIR block x))
                = (None, with_orderedStack st'
                           (removeFromList block (makeLIR block x)))) as ->
          by (by destruct first).
        simpl snd.
        match goal with |- context [addToStack block op ?y] =>
          destruct (wsr_addToStack_shape block op y)
            as (st2 & w2 & -> & Hlast & Hst & Hwst) end.
        simpl in *. rewrite HxL, HxH in *.
        assert (Hwb : wf (MoveLast key (Set_ key coldBlockInfo st)))
          by (apply wf_MoveLast, wf_Set; by apply (wf_PopFirst ((key, v) :: st))).
        split; [apply Hwst; eapply wf_app_r; by rewrite <- Hbase|].
        split; [by apply LIRSRuns.classes_disjoint_makeLIR|].
        split; [|split; [done|]].
        - intros k Hk. apply Hst.
          destruct (decide (k = block)) as [|Hkb]; [by left | right].
          pose proof Hk as Hk'.
          rewrite lookup_insert_ne in Hk' by done.
          rewrite <- (Get_app_skip k removed st')
            by (eapply LIRSRuns.removed_skip; [exact Hk | exact Hall]).
          rewrite <- Hbase, Get_MoveLast. apply is_Some_Get_Set.
          destruct (decide (k = key)); [by left | right].
          eapply (LIRSRuns.Get_tail_ne k key v); [done|]. by apply HJ.
        - intros k Hk. apply lookup_insert_is_Some'. by right. }
      destruct (OrderedMap.Get block (orderedList o)) eqn:EQ.
      * unfold handleHIRResidentBlock. cbv zeta.
        destruct (OrderedMap.Get block (orderedStack o)) eqn:EG.
        -- apply (Hprom true o); eauto.
        -- match goal with |- context [addToStack block op ?x] =>
             destruct (wsr_addToStack_shape block op x)
               as (st2 & w2 & -> & Hlast & Hst & Hwst) end.
           simpl in *. split; [by apply Hwst|]. split; [done|].
           split; [|done].
           intros k Hk. apply Hst. right. by apply HJ.
      * unfold handleHIRNonResidentBlock. cbv zeta.
        destruct (wsr_addToList_frame block op (with_miss (add (miss o) 1) o))
          as (q & w & ->).
        destruct (OrderedMap.Get block
                    (orderedStack
                       (with_orderedList q
                          (with_writeCount w (with_miss (add (miss o) 1) o)))))
          eqn:EG; simpl in EG.
        -- apply (Hprom false
                    (with_orderedList q
                       (with_writeCount w (with_miss (add (miss o) 1) o))));
             simpl; eauto.
        -- match goal with |- context [addToStack block op ?x] =>
             destruct (wsr_addToStack_shape block op x)
               as (st2 & w2 & -> & Hlast & Hst & Hwst) end.
           simpl in *. split; [by apply Hwst|].
           split; [by apply LIRSRuns.classes_disjoint_makeHIR|].
           split; [|split; [done|]].
           ++ intros k Hk. apply Hst. right.
              apply lookup_delete_is_Some in Hk as [_ Hk]. by apply HJ.
           ++ intros k Hk. apply lookup_delete_is_Some. split; [|done].
              intros <-. destruct Hk. congruence.
Qed.

End LIRSWSRRuns.

(** ** The second LIRS-WSR variant: what every run keeps *)

Module LIRSWSR2Runs.
Import GoInt GoIntFacts OrderedMap OrderedMapFacts OrderedMapKeys.
Import OrderedMapMore LIRSWSR2 LIRSWSR2Facts.

Lemma wsr2_stackPruning_loop_prefix it o :
  orderedStack o = it ->
  ∃ removed,
    it = removed ++ orderedStack (stackPruning_loop it o) ∧
    Forall (fun e => LIR o !! fst e = None) removed.
Proof.
  revert o. induction it as [|[k v] it IH]; intros o Hst; simpl.
  - exists []. by rewrite Hst.
  - destruct (LIR o !! k) eqn:E.
    + exists []. by rewrite Hst.
    + destruct (IH (with_orderedStack (snd (PopFirst (orderedStack o))) o))
        as (removed & Heq & Hall); [simpl; by rewrite Hst|].
      exists ((k, v) :: removed). simpl. split; [by f_equal|].
      apply Forall_cons. split; done.
Qed.

Lemma wsr2_stackPruning_shape o :
  ∃ removed st',
    orderedStack o = removed ++ st' ∧
    Forall (fun e => LIR o !! fst e = None) removed ∧
    stackPruning o = with_orderedStack st' o.
Proof.
  destruct (wsr2_stackPruning_loop_prefix (orderedStack o) o eq_refl)
    as (removed & Heq & Hall).
  destruct (wsr2_stackPruning_frame o) as (st' & Hfr & _).
  change (stackPruning_loop (orderedStack o) o) with (stackPruning o) in Heq.
  rewrite Hfr in Heq. simpl in Heq. by exists removed, st'.
Qed.

(** On a stack with one entry per key a demotion puts the popped entry back,
    counts a miss, and changes nothing else but the stack. *)
Lemma wsr2_condition_shape (first removeLIR : bool) (o : LIRSWSR)
    (key : Z) (v : BlockInfo) (st : OrderedMap.t BlockInfo) :
  orderedStack o = (key, v) :: st -> wf (orderedStack o) ->
  ∃ removed st',
    (if removeLIR then MoveLast key (Set_ key coldBlockInfo st) else st)
      = removed ++ st' ∧
    Forall (fun e => LIR o !! fst e = None) removed ∧
    (if first then condition1 removeLIR o else condition3 removeLIR o)
      = (None, with_orderedStack st'
                 (if removeLIR then with_miss (add (miss o) 1) o else o)).
Proof.
  intros E Hwf. rewrite E in Hwf.
  assert (Habs : OrderedMap.Get key st = None) by (by eapply Get_popped).
  assert ((if first then condition1 removeLIR o else condition3 removeLIR o)
          = condition1 removeLIR o) as -> by (by destruct first).
  rewrite wsr2_condition1_demote, E. simpl.
  destruct removeLIR.
  - rewrite wsr2_demote_absent by done. simpl.
    match goal with |- context [stackPruning ?x] =>
      destruct (wsr2_stackPruning_shape x) as (removed & st' & H1 & H2 & H3) end.
    exists removed, st'. by rewrite H3.
  - destruct (wsr2_stackPruning_shape (with_orderedStack st o))
      as (removed & st' & H1 & H2 & H3).
    exists removed, st'. by rewrite H3.
Qed.

Lemma wsr2_condition_empty (first removeLIR : bool) (o : LIRSWSR) :
  orderedStack o = [] ->
  (if first then condition1 removeLIR o else condition3 removeLIR o)
    = (Some "orderedStack is empty"%string, o).
Proof.
  intros E. destruct first; [unfold condition1 | unfold condition3];
    by rewrite E.
Qed.

Lemma wsr2_addToStack_shape block op o :
  ∃ st w, addToStack block op o = with_orderedStack st (with_writeCount w o) ∧
          last (keys st) = Some block ∧
          (∀ k, is_Some (OrderedMap.Get k st) <->
                k = block ∨ is_Some (OrderedMap.Get k (orderedStack o))) ∧
          (wf (orderedStack o) -> wf st).
Proof.
  unfold addToStack. destruct (OrderedMap.Get block (orderedStack o)) eqn:E.
  - eexists _, (writeCount o). split; [by destruct o|]. simpl.
    split; [apply last_keys_MoveLast; eauto|].
    split; [|apply wf_MoveLast].
    intros k. rewrite Get_MoveLast. split; [eauto|].
    intros [->|?]; [rewrite E; eauto | done].
  - destruct (decide (op = "W"%string)).
    + eexists _, _. split; [done|]. split; [by apply last_keys_Set_fresh|].
      split; [intros k; apply is_Some_Get_Set | apply wf_Set].
    + eexists _, (writeCount o). split; [by destruct o|].
      split; [by apply last_keys_Set_fresh|].
      split; [intros k; apply is_Some_Get_Set | apply wf_Set].
Qed.

Lemma wsr2_incrementAccess_shape block o :
  ∃ st, incrementAccess block o = with_orderedStack st o ∧
        keys st = keys (orderedStack o).
Proof.
  unfold incrementAccess. destruct (OrderedMap.Get block (orderedStack o)).
  - eexists. split; [done | apply keys_overwrite].
  - exists (orderedStack o). by destruct o.
Qed.

Lemma wsr2_cold_counters (o : LIRSWSR) block :
  ∃ h m,
    match LIR o !! block with
    | Some _ => with_hit (add (hit o) 1)
                  (with_miss (sub (add (miss o) 1) 1)
                     (with_miss (add (miss o) 1) o))
    | None => with_miss (add (miss o) 1) o
    end = with_hit h (with_miss m o).
Proof.
  destruct (LIR o !! block).
  - by eexists _, _.
  - exists (hit o), (add (miss o) 1). by destruct o.
Qed.

(** The end of the three handlers: the accessed block is touched in S, its
    entry is replaced when [reset] is set, and its access count goes up. *)
Lemma wsr2_finish (reset : bool) block op (x : LIRSWSR) (lir : gmap Z Z) :
  wf (orderedStack x) ->
  (∀ k, is_Some (lir !! k) -> k ≠ block ->
        is_Some (OrderedMap.Get k (orderedStack x))) ->
  let y := addToStack block op x in
  let o' := incrementAccess block
              (if reset
               then with_orderedStack
                      (Set_ block coldBlockInfo (orderedStack y)) y
               else y) in
  LIR o' = LIR x ∧ HIR o' = HIR x ∧
  wf (orderedStack o') ∧
  (∀ k, is_Some (lir !! k) -> is_Some (OrderedMap.Get k (orderedStack o'))) ∧
  (is_Some (OrderedMap.Get block (orderedStack o'))) ∧
  last (keys (orderedStack o')) = Some block.
Proof.
  intros Hxw Hxk. cbv zeta.
  destruct (wsr2_addToStack_shape block op x)
    as (st2 & w & -> & Hlast & Hst & Hwst).
  pose proof (last_keys_present _ _ Hlast) as Hpres.
  match goal with |- context [incrementAccess block ?y] =>
    destruct (wsr2_incrementAccess_shape block y) as (st3 & -> & Hkeys) end.
  assert (Hk3 : keys st3 = keys st2).
  { rewrite Hkeys. destruct reset; simpl; [by apply keys_Set_present | done]. }
  assert (Hgoal : wf st3 ∧
            (∀ k, is_Some (lir !! k) -> is_Some (OrderedMap.Get k st3)) ∧
            is_Some (OrderedMap.Get block st3) ∧
            last (keys st3) = Some block).
  { split; [unfold wf; rewrite Hk3; by apply Hwst|].
    split; [|split; [apply Get_Some_keys; rewrite Hk3; by apply Get_Some_keys
                    | by rewrite Hk3]].
    intros k Hk. apply Get_Some_keys. rewrite Hk3. apply Get_Some_keys, Hst.
    destruct (decide (k = block)); [by left | right; by apply Hxk]. }
  destruct reset; simpl; (split; [done|]); (split; [done|]); exact Hgoal.
Qed.

(** What one [Get] keeps, and what it establishes. *)
Lemma wsr2_Get_keeps trace o :
  wf (orderedStack o) ->
  classes_disjoint (LIR o) (HIR o) ->
  held_in (LIR o) (orderedStack o) ->
  let o' := snd (LIRSWSR2.Get trace o) in
  wf (orderedStack o') ∧
  classes_disjoint (LIR o') (HIR o') ∧
  held_in (LIR o') (orderedStack o') ∧
  last (keys (orderedStack o')) = Some (simulator.Addr trace) ∧
  (∀ k, is_Some (LIR o !! k) -> is_Some (LIR o' !! k)).
Proof.
  intros Hwf HD HJ. unfold LIRSWSR2.Get.
  set (block := simulator.Addr trace). set (op := simulator.Op trace).
  assert (Hpack : ∀ (reset : bool) (x : LIRSWSR),
            wf (orderedStack x) ->
            classes_disjoint (LIR x) (HIR x) ->
            (∀ k, is_Some (LIR x !! k) -> k ≠ block ->
                  is_Some (OrderedMap.Get k (orderedStack x))) ->
            (∀ k, is_Some (LIR o !! k) -> is_Some (LIR x !! k)) ->
            let y := addToStack block op x in
            let o' := incrementAccess block
                        (if reset
                         then with_orderedStack
                                (Set_ block coldBlockInfo (orderedStack y)) y
                         else y) in
            wf (orderedStack o') ∧
            classes_disjoint (LIR o') (HIR o') ∧
            held_in (LIR o') (orderedStack o') ∧
            last (keys (orderedStack o')) = Some block ∧
            (∀ k, is_Some (LIR o !! k) -> is_Some (LIR o' !! k))).
  { intros reset x Hxw HxD Hxk Hxm.
    destruct (wsr2_finish reset block op x (LIR x) Hxw Hxk)
      as (HL & HH & Hw' & Hheld & _ & Hlast).
    cbv zeta. rewrite HL, HH. split; [done|]. split; [done|].
    split; [exact Hheld|]. split; [done|]. done. }
  assert (Hprom : ∀ (first : bool) (x : LIRSWSR),
            LIR x = LIR o -> HIR x = HIR o ->
            orderedStack x = orderedStack o ->
            is_Some (OrderedMap.Get block (orderedStack x)) ->
            LIR o !! block = None ->
            let z := snd ((if first then condition1 true else condition3 true)
                            (removeFromList block (makeLIR block x))) in
            wf (orderedStack z) ∧
            classes_disjoint (LIR z) (HIR z) ∧
            (∀ k, is_Some (LIR z !! k) -> k ≠ block ->
                  is_Some (OrderedMap.Get k (orderedStack z))) ∧
            (∀ k, is_Some (LIR o !! k) -> is_Some (LIR z !! k))).
  { intros first x HxL HxH HxS [w Hw] EL. rewrite HxS in Hw.
    destruct (orderedStack o) as [|[key v] st] eqn:ES; [done|].
    destruct (wsr2_condition_shape first true
                (removeFromList block (makeLIR block x)) key v st)
      as (removed & st' & Hbase & Hall & Hc);
      [simpl; by rewrite HxS | simpl; by rewrite HxS|].
    cbv zeta.
    assert ((if first then condition1 true else condition3 true)
              (removeFromList block (makeLIR block x))
            = (None, with_orderedStack st'
                       (with_miss
                          (add (miss (removeFromList block (makeLIR block x))) 1)
                          (removeFromList block (makeLIR block x))))) as ->
      by (by destruct first).
    simpl in *. rewrite HxL, HxH in *.
    assert (Hwb : wf (MoveLast key (Set_ key coldBlockInfo st)))
      by (apply wf_MoveLast, wf_Set; by apply (wf_PopFirst ((key, v) :: st))).
    split; [eapply wf_app_r; by rewrite <- Hbase|].
    split; [by apply LIRSRuns.classes_disjoint_makeLIR|].
    split.
    - intros k Hk Hkb. pose proof Hk as Hk'.
      rewrite lookup_insert_ne in Hk' by done.
      rewrite <- (Get_app_skip k removed st')
        by (eapply LIRSRuns.removed_skip; [exact Hk | exact Hall]).
      rewrite <- Hbase, Get_MoveLast. apply is_Some_Get_Set.
      destruct (decide (k = key)); [by left | right].
      eapply (LIRSRuns.Get_tail_ne k key v); [done|]. by apply HJ.
    - intros k Hk. apply lookup_insert_is_Some'. by right. }
  destruct (decide (Z.of_nat (size (LIR o)) < LIRSize o)) as [Hlt|Hge].
  - simpl.
    destruct (wsr2_cold_counters o block) as (h & m & ->).
    destruct (wsr2_addToStack_shape block op (with_hit h (with_miss m o)))
      as (st & w & -> & Hlast & Hst & Hwst).
    simpl in *. split; [by apply Hwst|].
    split; [by apply LIRSRuns.classes_disjoint_makeLIR|].
    split; [|split; [done|]].
    + intros k Hk. apply Hst. apply lookup_insert_is_Some' in Hk as [<-|Hk];
        [by left | right; by apply HJ].
    + intros k Hk. apply lookup_insert_is_Some'. by right.
  - cbv zeta. destruct (LIR o !! block) eqn:EL.
    + unfold handleLIRBlock. cbv zeta. simpl orderedStack.
      destruct (orderedStack o) as [|[key v] st] eqn:ES.
      { destruct (HJ block) as [? ?]; [eauto | done]. }
      simpl GetFirst. cbv iota beta. simpl snd.
      destruct (decide (key = block)) as [->|Hne].
      * destruct (wsr2_condition_shape true false (with_hit (add (hit o) 1) o)
                    block v st ES) as (removed & st' & Hbase & Hall & Hc);
          [simpl; by rewrite ES|].
        cbv beta iota in Hc. rewrite Hc. simpl snd.
        apply (Hpack true); simpl; [| done | | done].
        -- eapply wf_app_r. rewrite <- Hbase.
           by apply (wf_PopFirst ((block, v) :: st)).
        -- intros k Hk Hkb.
           rewrite <- (Get_app_skip k removed st')
             by (eapply LIRSRuns.removed_skip; [exact Hk | exact Hall]).
           rewrite <- Hbase. eapply LIRSRuns.Get_tail_ne; [exact Hkb|]. by apply HJ.
      * apply (Hpack true); simpl; [by rewrite ES | done | | done].
        intros k Hk _. rewrite ES. by apply HJ.
    + destruct (OrderedMap.Get block (orderedList o)) eqn:EQ.
      * unfold handleHIRResidentBlock. cbv zeta.
        destruct (OrderedMap.Get block
                    (orderedStack (with_hit (add (hit o) 1) o))) eqn:EG;
          simpl in EG.
        -- destruct (Hprom true (with_hit (add (hit o) 1) o))
             as (H1 & H2 & H3 & H4); simpl; eauto.
           by apply (Hpack false).
        -- set (y0 := with_orderedList
                        (MoveLast block (orderedList (with_hit (add (hit o) 1) o)))
                        (with_hit (add (hit o) 1) o)).
           assert (Hz : ∃ st' m,
                     snd (condition1 true y0)
                       = with_orderedStack st' (with_miss m y0) ∧
                     wf st' ∧
                     (∀ k, is_Some (LIR o !! k) ->
                           is_Some (OrderedMap.Get k st'))).
           { destruct (orderedStack o) as [|[key v] st] eqn:ES.
             - exists [], (miss y0).
               rewrite (wsr2_condition_empty true true y0) by (subst y0; by simpl).
               split; [subst y0; destruct o; simpl in *; by subst|].
               split; [done|]. intros k Hk. by apply HJ.
             - destruct (wsr2_condition_shape true true y0 key v st)
                 as (removed & st' & Hbase & Hall & Hc);
                 [subst y0; by simpl | subst y0; simpl; by rewrite ES|].
               cbv beta iota in Hc. rewrite Hc. simpl snd.
               exists st', (add (miss y0) 1). split; [done|].
               assert (Hwb : wf (MoveLast key (Set_ key coldBlockInfo st)))
                 by (apply wf_MoveLast, wf_Set;
                     by apply (wf_PopFirst ((key, v) :: st))).
               split; [eapply wf_app_r; by rewrite <- Hbase|].
               intros k Hk.
               rewrite <- (Get_app_skip k removed st')
                 by (eapply LIRSRuns.removed_skip; [exact Hk | exact Hall]).
               rewrite <- Hbase, Get_MoveLast. apply is_Some_Get_Set.
               destruct (decide (k = key)); [by left | right].
               eapply (LIRSRuns.Get_tail_ne k key v); [done|]. by apply HJ. }
           destruct Hz as (st' & m & -> & Hw' & Hheld).
           apply (Hpack false); subst y0; simpl; [done | done | | done].
           intros k Hk _. by apply Hheld.
      * unfold handleHIRNonResidentBlock. cbv zeta.
        destruct (wsr2_addToList_frame block op (with_miss (add (miss o) 1) o))
          as (q & w & ->).
        destruct (OrderedMap.Get block
                    (orderedStack
                       (with_orderedList q
                          (with_writeCount w (with_miss (add (miss o) 1) o)))))
          eqn:EG; simpl in EG.
        -- destruct (Hprom false
                       (with_orderedList q
                          (with_writeCount w (with_miss (add (miss o) 1) o))))
             as (H1 & H2 & H3 & H4); simpl; eauto.
           by apply (Hpack true).
        -- apply (Hpack true); simpl.
           ++ done.
           ++ by apply LIRSRuns.classes_disjoint_makeHIR.
           ++ intros k Hk _. apply lookup_delete_is_Some in Hk as [_ Hk].
              by apply HJ.
           ++ intros k Hk. apply lookup_delete_is_Some. split; [|done].
              intros <-. destruct Hk. congruence.
Qed.

End LIRSWSR2Runs.

(** ** Runs from a fresh engine *)

Section FreshRuns.
Import OrderedMap OrderedMapFacts OrderedMapKeys OrderedMapMore.

Lemma classes_disjoint_empty : classes_disjoint ∅ ∅.
Proof. intros k. left. apply lookup_empty. Qed.

Lemma held_in_empty {V : Type} (om : OrderedMap.t V) : held_in ∅ om.
Proof. intros k [x Hx]. by rewrite lookup_empty in Hx. Qed.

Lemma keys_in_nil {V : Type} (cls : gmap Z Z) : keys_in (@nil (Z * V)) cls.
Proof. intros k [x Hx]. done. Qed.

Lemma lirs_New_fresh c h o :
  LIRS.NewLIRS c h = Some o ->
  LIRS.orderedStack o = [] ∧ LIRS.orderedList o = [] ∧
  LIRS.LIR o = ∅ ∧ LIRS.HIR o = ∅ ∧
  LIRS.hit o = 0 ∧ LIRS.miss o = 0 ∧ LIRS.writeCount o = 0 ∧
  GoInt.in_range (LIRS.LIRSize o).
Proof.
  unfold LIRS.NewLIRS. destruct (decide _); [done|].
  intros [= <-]. simpl. repeat (split; [done|]). apply GoIntFacts.wrap_in_range.
Qed.

Lemma wsr_New_fresh c h o :
  LIRSWSR.NewLIRSWSR c h = Some o ->
  LIRSWSR.orderedStack o = [] ∧ LIRSWSR.orderedList o = [] ∧
  LIRSWSR.LIR o = ∅ ∧ LIRSWSR.HIR o = ∅.
Proof.
  unfold LIRSWSR.NewLIRSWSR. destruct (decide _); [done|].
  by intros [= <-].
Qed.

Lemma wsr2_New_fresh c h o :
  LIRSWSR2.NewLIRSWSR c h = Some o ->
  LIRSWSR2.orderedStack o = [] ∧ LIRSWSR2.orderedList o = [] ∧
  LIRSWSR2.LIR o = ∅ ∧ LIRSWSR2.HIR o = ∅.
Proof.
  unfold LIRSWSR2.NewLIRSWSR. destruct (decide _); [done|].
  by intros [= <-].
Qed.

Lemma lirs_run_snoc tr t o :
  LIRS.run (tr ++ [t]) o = snd (LIRS.Get t (LIRS.run tr o)).
Proof. unfold LIRS.run. by rewrite fold_left_app. Qed.

Lemma wsr_run_snoc tr t o :
  LIRSWSR.run (tr ++ [t]) o = snd (LIRSWSR.Get t (LIRSWSR.run tr o)).
Proof. unfold LIRSWSR.run. by rewrite fold_left_app. Qed.

Lemma wsr2_run_snoc tr t o :
  LIRSWSR2.run (tr ++ [t]) o = snd (LIRSWSR2.Get t (LIRSWSR2.run tr o)).
Proof. unfold LIRSWSR2.run. by rewrite fold_left_app. Qed.

Lemma lirs_run_keeps tr : ∀ o,
  classes_disjoint (LIRS.LIR o) (LIRS.HIR o) ->
  held_in (LIRS.LIR o) (LIRS.orderedStack o) ->
  keys_in (LIRS.orderedList o) (LIRS.HIR o) ->
  classes_disjoint (LIRS.LIR (LIRS.run tr o)) (LIRS.HIR (LIRS.run tr o)) ∧
  held_in (LIRS.LIR (LIRS.run tr o)) (LIRS.orderedStack (LIRS.run tr o)) ∧
  keys_in (LIRS.orderedList (LIRS.run tr o)) (LIRS.HIR (LIRS.run tr o)) ∧
  (size (LIRS.LIR o) <= size (LIRS.LIR (LIRS.run tr o)))%nat.
Proof.
  induction tr as [|t tr IH]; intros o HD HJ HQ; simpl.
  - repeat (split; [done|]). lia.
  - destruct (LIRSRuns.lirs_Get_keeps t o HD HJ HQ) as (H1 & H2 & H3 & _ & H5).
    destruct (IH _ H1 H2 H3) as (I1 & I2 & I3 & I4).
    repeat (split; [done|]). exact (Nat.le_trans _ _ _ H5 I4).
Qed.

Lemma wsr_run_keeps tr : ∀ o,
  wf (LIRSWSR.orderedStack o) ->
  classes_disjoint (LIRSWSR.LIR o) (LIRSWSR.HIR o) ->
  held_in (LIRSWSR.LIR o) (LIRSWSR.orderedStack o) ->
  wf (LIRSWSR.orderedStack (LIRSWSR.run tr o)) ∧
  classes_disjoint (LIRSWSR.LIR (LIRSWSR.run tr o)) (LIRSWSR.HIR (LIRSWSR.run tr o)) ∧
  held_in (LIRSWSR.LIR (LIRSWSR.run tr o)) (LIRSWSR.orderedStack (LIRSWSR.run tr o)) ∧
  (∀ k, is_Some (LIRSWSR.LIR o !! k) ->
        is_Some (LIRSWSR.LIR (LIRSWSR.run tr o) !! k)).
Proof.
  induction tr as [|t tr IH]; intros o Hw HD HJ; simpl.
  - done.
  - destruct (LIRSWSRRuns.wsr_Get_keeps t o Hw HD HJ) as (H0 & H1 & H2 & _ & H5).
    destruct (IH _ H0 H1 H2) as (I0 & I1 & I2 & I4).
    repeat (split; [done|]). intros k Hk. by apply I4, H5.
Qed.

Lemma wsr2_run_keeps tr : ∀ o,
  wf (LIRSWSR2.orderedStack o) ->
  classes_disjoint (LIRSWSR2.LIR o) (LIRSWSR2.HIR o) ->
  held_in (LIRSWSR2.LIR o) (LIRSWSR2.orderedStack o) ->
  wf (LIRSWSR2.orderedStack (LIRSWSR2.run tr o)) ∧
  classes_disjoint (LIRSWSR2.LIR (LIRSWSR2.run tr o)) (LIRSWSR2.HIR (LIRSWSR2.run tr o)) ∧
  held_in (LIRSWSR2.LIR (LIRSWSR2.run tr o)) (LIRSWSR2.orderedStack (LIRSWSR2.run tr o)) ∧
  (∀ k, is_Some (LIRSWSR2.LIR o !! k) ->
        is_Some (LIRSWSR2.LIR (LIRSWSR2.run tr o) !! k)).
Proof.
  induction tr as [|t tr IH]; intros o Hw HD HJ; simpl.
  - done.
  - destruct (LIRSWSR2Runs.wsr2_Get_keeps t o Hw HD HJ) as (H0 & H1 & H2 & _ & H5).
    destruct (IH _ H0 H1 H2) as (I0 & I1 & I2 & I4).
    repeat (split; [done|]). intros k Hk. by apply I4, H5.
Qed.

(** The invariants hold of every state a fresh engine reaches. *)
Lemma lirs_fresh_keeps c h o tr :
  LIRS.NewLIRS c h = Some o ->
  classes_disjoint (LIRS.LIR (LIRS.run tr o)) (LIRS.HIR (LIRS.run tr o)) ∧
  held_in (LIRS.LIR (LIRS.run tr o)) (LIRS.orderedStack (LIRS.run tr o)) ∧
  keys_in (LIRS.orderedList (LIRS.run tr o)) (LIRS.HIR (LIRS.run tr o)).
Proof.
  intros HN. destruct (lirs_New_fresh c h o HN) as (Hs & Hq & Hl & Hh & _).
  destruct (lirs_run_keeps tr o) as (H1 & H2 & H3 & _);
    rewrite ?Hs, ?Hq, ?Hl, ?Hh;
    [apply classes_disjoint_empty | apply held_in_empty | apply keys_in_nil|].
  done.
Qed.

Lemma wsr_fresh_keeps c h o tr :
  LIRSWSR.NewLIRSWSR c h = Some o ->
  wf (LIRSWSR.orderedStack (LIRSWSR.run tr o)) ∧
  classes_disjoint (LIRSWSR.LIR (LIRSWSR.run tr o)) (LIRSWSR.HIR (LIRSWSR.run tr o)) ∧
  held_in (LIRSWSR.LIR (LIRSWSR.run tr o)) (LIRSWSR.orderedStack (LIRSWSR.run tr o)).
Proof.
  intros HN. destruct (wsr_New_fresh c h o HN) as (Hs & Hq & Hl & Hh).
  destruct (wsr_run_keeps tr o) as (H1 & H2 & H3 & _);
    rewrite ?Hs, ?Hq, ?Hl, ?Hh;
    [apply wf_nil | apply classes_disjoint_empty | apply held_in_empty|].
  done.
Qed.

Lemma wsr2_fresh_keeps c h o tr :
  LIRSWSR2.NewLIRSWSR c h = Some o ->
  wf (LIRSWSR2.orderedStack (LIRSWSR2.run tr o)) ∧
  classes_disjoint (LIRSWSR2.LIR (LIRSWSR2.run tr o)) (LIRSWSR2.HIR (LIRSWSR2.run tr o)) ∧
  held_in (LIRSWSR2.LIR (LIRSWSR2.run tr o)) (LIRSWSR2.orderedStack (LIRSWSR2.run tr o)).
Proof.
  intros HN. destruct (wsr2_New_fresh c h o HN) as (Hs & Hq & Hl & Hh).
  destruct (wsr2_run_keeps tr o) as (H1 & H2 & H3 & _);
    rewrite ?Hs, ?Hq, ?Hl, ?Hh;
    [apply wf_nil | apply classes_disjoint_empty | apply held_in_empty|].
  done.
Qed.

End FreshRuns.

(** ** What holds of every state a fresh engine reaches *)

Section Reachable.
Import OrderedMap OrderedMapFacts OrderedMapKeys OrderedMapMore.

Lemma lirs_New_total c h :
  0 <= h <= 100 -> ∃ o, LIRS.NewLIRS c h = Some o.
Proof. intros Hh. unfold LIRS.NewLIRS. rewrite decide_False by lia. eauto. Qed.

Lemma wsr_New_total c h :
  0 <= h <= 100 -> ∃ o, LIRSWSR.NewLIRSWSR c h = Some o.
Proof. intros Hh. unfold LIRSWSR.NewLIRSWSR. rewrite decide_False by lia. eauto. Qed.

Lemma wsr2_New_total c h :
  0 <= h <= 100 -> ∃ o, LIRSWSR2.NewLIRSWSR c h = Some o.
Proof. intros Hh. unfold LIRSWSR2.NewLIRSWSR. rewrite decide_False by lia. eauto. Qed.

(** X1.  No address is ever in the LIR set and in the HIR set at once: in
    every state that a run of [Get] reaches from a freshly built engine the
    two residency classes are disjoint, in the LIRS engine and in both
    LIRS-WSR variants. *)
Theorem residency_classes_disjoint (c h : Z) (tr : list simulator.Trace) :
  0 <= h <= 100 ->
  (∃ o, LIRS.NewLIRS c h = Some o ∧
        classes_disjoint (LIRS.LIR (LIRS.run tr o)) (LIRS.HIR (LIRS.run tr o))) ∧
  (∃ o, LIRSWSR.NewLIRSWSR c h = Some o ∧
        classes_disjoint (LIRSWSR.LIR (LIRSWSR.run tr o))
                         (LIRSWSR.HIR (LIRSWSR.run tr o))) ∧
  (∃ o, LIRSWSR2.NewLIRSWSR c h = Some o ∧
        classes_disjoint (LIRSWSR2.LIR (LIRSWSR2.run tr o))
                         (LIRSWSR2.HIR (LIRSWSR2.run tr o))).
Proof.
  intros Hh. split; [|split].
  - destruct (lirs_New_total c h Hh) as [o Ho]. exists o. split; [done|].
    by destruct (lirs_fresh_keeps c h o tr Ho) as (? & _).
  - destruct (wsr_New_total c h Hh) as [o Ho]. exists o. split; [done|].
    by destruct (wsr_fresh_keeps c h o tr Ho) as (_ & ? & _).
  - destruct (wsr2_New_total c h Hh) as [o Ho]. exists o. split; [done|].
    by destruct (wsr2_fresh_keeps c h o tr Ho) as (_ & ? & _).
Qed.

Lemma residency_classes_disjoint_witness :
  (∃ o, LIRS.NewLIRS 4 50 = Some o ∧
        classes_disjoint (LIRS.LIR (LIRS.run [R 1; W 2; R 3; R 1; W 4] o))
                         (LIRS.HIR (LIRS.run [R 1; W 2; R 3; R 1; W 4] o))) ∧
  (∃ o, LIRSWSR.NewLIRSWSR 4 50 = Some o ∧
        classes_disjoint (LIRSWSR.LIR (LIRSWSR.run [R 1; W 2; R 3; R 1; W 4] o))
                         (LIRSWSR.HIR (LIRSWSR.run [R 1; W 2; R 3; R 1; W 4] o))) ∧
  (∃ o, LIRSWSR2.NewLIRSWSR 4 50 = Some o ∧
        classes_disjoint (LIRSWSR2.LIR (LIRSWSR2.run [R 1; W 2; R 3; R 1; W 4] o))
                         (LIRSWSR2.HIR (LIRSWSR2.run [R 1; W 2; R 3; R 1; W 4] o))).
Proof. apply (residency_classes_disjoint 4 50 [R 1; W 2; R 3; R 1; W 4]). lia. Defined.

(** X2.  Every LIR block has an entry in stack S: in every state reached
    from a freshly built engine each address of the LIR set is a key of the
    recency stack, in the three engines; in both LIRS-WSR variants the stack
    moreover holds no key twice. *)
Theorem lir_blocks_stay_in_stack (c h : Z) (tr : list simulator.Trace) :
  0 <= h <= 100 ->
  (∃ o, LIRS.NewLIRS c h = Some o ∧
        held_in (LIRS.LIR (LIRS.run tr o)) (LIRS.orderedStack (LIRS.run tr o))) ∧
  (∃ o, LIRSWSR.NewLIRSWSR c h = Some o ∧
        held_in (LIRSWSR.LIR (LIRSWSR.run tr o))
                (LIRSWSR.orderedStack (LIRSWSR.run tr o)) ∧
        wf (LIRSWSR.orderedStack (LIRSWSR.run tr o))) ∧
  (∃ o, LIRSWSR2.NewLIRSWSR c h = Some o ∧
        held_in (LIRSWSR2.LIR (LIRSWSR2.run tr o))
                (LIRSWSR2.orderedStack (LIRSWSR2.run tr o)) ∧
        wf (LIRSWSR2.orderedStack (LIRSWSR2.run tr o))).
Proof.
  intros Hh. split; [|split].
  - destruct (lirs_New_total c h Hh) as [o Ho]. exists o. split; [done|].
    by destruct (lirs_fresh_keeps c h o tr Ho) as (_ & ? & _).
  - destruct (wsr_New_total c h Hh) as [o Ho]. exists o. split; [done|].
    by destruct (wsr_fresh_keeps c h o tr Ho) as (? & _ & ?).
  - destruct (wsr2_New_total c h Hh) as [o Ho]. exists o. split; [done|].
    by destruct (wsr2_fresh_keeps c h o tr Ho) as (? & _ & ?).
Qed.

Lemma lir_blocks_stay_in_stack_witness :
  (∃ o, LIRS.NewLIRS 4 50 = Some o ∧
        held_in (LIRS.LIR (LIRS.run [R 1; W 2; R 3; R 1; W 4] o))
                (LIRS.orderedStack (LIRS.run [R 1; W 2; R 3; R 1; W 4] o))) ∧
  (∃ o, LIRSWSR.NewLIRSWSR 4 50 = Some o ∧
        held_in (LIRSWSR.LIR (LIRSWSR.run [R 1; W 2; R 3; R 1; W 4] o))
                (LIRSWSR.orderedStack (LIRSWSR.run [R 1; W 2; R 3; R 1; W 4] o)) ∧
        wf (LIRSWSR.orderedStack (LIRSWSR.run [R 1; W 2; R 3; R 1; W 4] o))) ∧
  (∃ o, LIRSWSR2.NewLIRSWSR 4 50 = Some o ∧
        held_in (LIRSWSR2.LIR (LIRSWSR2.run [R 1; W 2; R 3; R 1; W 4] o))
                (LIRSWSR2.orderedStack (LIRSWSR2.run [R 1; W 2; R 3; R 1; W 4] o)) ∧
        wf (LIRSWSR2.orderedStack (LIRSWSR2.run [R 1; W 2; R 3; R 1; W 4] o))).
Proof. apply (lir_blocks_stay_in_stack 4 50 [R 1; W 2; R 3; R 1; W 4]). lia. Defined.

(** X3.  In the LIRS engine list Q holds HIR blocks only: in every state
    reached from a freshly built engine each key of [orderedList] is in the
    HIR set and none is in the LIR set. *)
Theorem lirs_list_holds_hir_only (c h : Z) (tr : list simulator.Trace) :
  0 <= h <= 100 ->
  ∃ o, LIRS.NewLIRS c h = Some o ∧
       ∀ k, is_Some (OrderedMap.Get k (LIRS.orderedList (LIRS.run tr o))) ->
            is_Some (LIRS.HIR (LIRS.run tr o) !! k) ∧
            LIRS.LIR (LIRS.run tr o) !! k = None.
Proof.
  intros Hh. destruct (lirs_New_total c h Hh) as [o Ho]. exists o. split; [done|].
  destruct (lirs_fresh_keeps c h o tr Ho) as (HD & _ & HQ).
  intros k Hk. pose proof (HQ k Hk) as [x Hx]. split; [eauto|].
  destruct (HD k) as [?|Hn]; [done | congruence].
Qed.

Lemma lirs_list_holds_hir_only_witness :
  ∃ o, LIRS.NewLIRS 4 50 = Some o ∧
       ∀ k, is_Some (OrderedMap.Get k
                       (LIRS.orderedList (LIRS.run [R 1; W 2; R 3; R 1; W 4] o))) ->
            is_Some (LIRS.HIR (LIRS.run [R 1; W 2; R 3; R 1; W 4] o) !! k) ∧
            LIRS.LIR (LIRS.run [R 1; W 2; R 3; R 1; W 4] o) !! k = None.
Proof. apply (lirs_list_holds_hir_only 4 50 [R 1; W 2; R 3; R 1; W 4]). lia. Defined.

Lemma lirs_fresh_newest c h o tr t :
  LIRS.NewLIRS c h = Some o ->
  last (keys (LIRS.orderedStack (LIRS.run (tr ++ [t]) o))) = Some (simulator.Addr t).
Proof.
  intros Ho. rewrite lirs_run_snoc.
  destruct (lirs_fresh_keeps c h o tr Ho) as (H1 & H2 & H3).
  by destruct (LIRSRuns.lirs_Get_keeps t _ H1 H2 H3) as (_ & _ & _ & ? & _).
Qed.

Lemma wsr_fresh_newest c h o tr t :
  LIRSWSR.NewLIRSWSR c h = Some o ->
  last (keys (LIRSWSR.orderedStack (LIRSWSR.run (tr ++ [t]) o)))
    = Some (simulator.Addr t).
Proof.
  intros Ho. rewrite wsr_run_snoc.
  destruct (wsr_fresh_keeps c h o tr Ho) as (H1 & H2 & H3).
  by destruct (LIRSWSRRuns.wsr_Get_keeps t _ H1 H2 H3) as (_ & _ & _ & ? & _).
Qed.

Lemma wsr2_fresh_newest c h o tr t :
  LIRSWSR2.NewLIRSWSR c h = Some o ->
  last (keys (LIRSWSR2.orderedStack (LIRSWSR2.run (tr ++ [t]) o)))
    = Some (simulator.Addr t).
Proof.
  intros Ho. rewrite wsr2_run_snoc.
  destruct (wsr2_fresh_keeps c h o tr Ho) as (H1 & H2 & H3).
  by destruct (LIRSWSR2Runs.wsr2_Get_keeps t _ H1 H2 H3) as (_ & _ & _ & ? & _).
Qed.

(** X4.  After every [Get] the block just accessed is the newest entry of
    stack S: from a freshly built engine, whatever came before, the last key
    of [orderedStack] after the access of [t] is the address of [t], in the
    three engines. *)
Theorem accessed_block_tops_stack (c h : Z) (tr : list simulator.Trace)
    (t : simulator.Trace) :
  0 <= h <= 100 ->
  (∃ o, LIRS.NewLIRS c h = Some o ∧
        last (keys (LIRS.orderedStack (LIRS.run (tr ++ [t]) o)))
          = Some (simulator.Addr t)) ∧
  (∃ o, LIRSWSR.NewLIRSWSR c h = Some o ∧
        last (keys (LIRSWSR.orderedStack (LIRSWSR.run (tr ++ [t]) o)))
          = Some (simulator.Addr t)) ∧
  (∃ o, LIRSWSR2.NewLIRSWSR c h = Some o ∧
        last (keys (LIRSWSR2.orderedStack (LIRSWSR2.run (tr ++ [t]) o)))
          = Some (simulator.Addr t)).
Proof.
  intros Hh. split; [|split].
  - destruct (lirs_New_total c h Hh) as [o Ho]. exists o. split; [done|].
    by eapply lirs_fresh_newest.
  - destruct (wsr_New_total c h Hh) as [o Ho]. exists o. split; [done|].
    by eapply wsr_fresh_newest.
  - destruct (wsr2_New_total c h Hh) as [o Ho]. exists o. split; [done|].
    by eapply wsr2_fresh_newest.
Qed.

Lemma accessed_block_tops_stack_witness :
  (∃ o, LIRS.NewLIRS 4 50 = Some o ∧
        last (keys (LIRS.orderedStack (LIRS.run ([R 1; W 2; R 3; R 1] ++ [W 4]) o)))
          = Some (simulator.Addr (W 4))) ∧
  (∃ o, LIRSWSR.NewLIRSWSR 4 50 = Some o ∧
        last (keys (LIRSWSR.orderedStack
                      (LIRSWSR.run ([R 1; W 2; R 3; R 1] ++ [W 4]) o)))
          = Some (simulator.Addr (W 4))) ∧
  (∃ o, LIRSWSR2.NewLIRSWSR 4 50 = Some o ∧
        last (keys (LIRSWSR2.orderedStack
                      (LIRSWSR2.run ([R 1; W 2; R 3; R 1] ++ [W 4]) o)))
          = Some (simulator.Addr (W 4))).
Proof. apply (accessed_block_tops_stack 4 50 [R 1; W 2; R 3; R 1] (W 4)). lia. Defined.

Lemma last_keys_nonempty {V : Type} (om : OrderedMap.t V) k :
  last (keys om) = Some k -> ∃ e st, om = e :: st.
Proof. destruct om as [|e st]; [done | eauto]. Qed.

(** X5.  The empty-stack error is out of reach of the driver: once a
    freshly built engine has served one access, stack S is not empty, so
    [handleLIRBlock], [condition1] and [condition3] return no error in any
    state the run reaches, in the three engines. *)
Theorem empty_stack_error_unreachable (c h : Z) (tr : list simulator.Trace)
    (t : simulator.Trace) (block : Z) (op : string) (removeLIR : bool) :
  0 <= h <= 100 ->
  (∃ o, LIRS.NewLIRS c h = Some o ∧
        LIRS.orderedStack (LIRS.run (tr ++ [t]) o) ≠ [] ∧
        fst (LIRS.handleLIRBlock block (LIRS.run (tr ++ [t]) o)) = None ∧
        fst (LIRS.condition1 removeLIR (LIRS.run (tr ++ [t]) o)) = None) ∧
  (∃ o, LIRSWSR.NewLIRSWSR c h = Some o ∧
        LIRSWSR.orderedStack (LIRSWSR.run (tr ++ [t]) o) ≠ [] ∧
        fst (LIRSWSR.handleLIRBlock block op (LIRSWSR.run (tr ++ [t]) o)) = None ∧
        fst (LIRSWSR.condition1 removeLIR (LIRSWSR.run (tr ++ [t]) o)) = None ∧
        fst (LIRSWSR.condition3 removeLIR (LIRSWSR.run (tr ++ [t]) o)) = None) ∧
  (∃ o, LIRSWSR2.NewLIRSWSR c h = Some o ∧
        LIRSWSR2.orderedStack (LIRSWSR2.run (tr ++ [t]) o) ≠ [] ∧
        fst (LIRSWSR2.handleLIRBlock block op (LIRSWSR2.run (tr ++ [t]) o)) = None ∧
        fst (LIRSWSR2.condition1 removeLIR (LIRSWSR2.run (tr ++ [t]) o)) = None ∧
        fst (LIRSWSR2.condition3 removeLIR (LIRSWSR2.run (tr ++ [t]) o)) = None).
Proof.
  intros Hh. split; [|split].
  - destruct (lirs_New_total c h Hh) as [o Ho]. exists o. split; [done|].
    destruct (last_keys_nonempty _ _ (lirs_fresh_newest c h o tr t Ho))
      as ([k v] & st & E).
    unfold LIRS.handleLIRBlock, LIRS.condition1. simpl. rewrite E. done.
  - destruct (wsr_New_total c h Hh) as [o Ho]. exists o. split; [done|].
    destruct (last_keys_nonempty _ _ (wsr_fresh_newest c h o tr t Ho))
      as ([k v] & st & E).
    unfold LIRSWSR.handleLIRBlock, LIRSWSR.condition1, LIRSWSR.condition3.
    simpl. rewrite E. done.
  - destruct (wsr2_New_total c h Hh) as [o Ho]. exists o. split; [done|].
    destruct (last_keys_nonempty _ _ (wsr2_fresh_newest c h o tr t Ho))
      as ([k v] & st & E).
    unfold LIRSWSR2.handleLIRBlock, LIRSWSR2.condition1, LIRSWSR2.condition3.
    simpl. rewrite E. done.
Qed.

Lemma empty_stack_error_unreachable_witness :
  (∃ o, LIRS.NewLIRS 4 50 = Some o ∧
        LIRS.orderedStack (LIRS.run ([R 1; W 2] ++ [R 3]) o) ≠ [] ∧
        fst (LIRS.handleLIRBlock 1 (LIRS.run ([R 1; W 2] ++ [R 3]) o)) = None ∧
        fst (LIRS.condition1 true (LIRS.run ([R 1; W 2] ++ [R 3]) o)) = None) ∧
  (∃ o, LIRSWSR.NewLIRSWSR 4 50 = Some o ∧
        LIRSWSR.orderedStack (LIRSWSR.run ([R 1; W 2] ++ [R 3]) o) ≠ [] ∧
        fst (LIRSWSR.handleLIRBlock 1 "R" (LIRSWSR.run ([R 1; W 2] ++ [R 3]) o)) = None ∧
        fst (LIRSWSR.condition1 true (LIRSWSR.run ([R 1; W 2] ++ [R 3]) o)) = None ∧
        fst (LIRSWSR.condition3 true (LIRSWSR.run ([R 1; W 2] ++ [R 3]) o)) = None) ∧
  (∃ o, LIRSWSR2.NewLIRSWSR 4 50 = Some o ∧
        LIRSWSR2.orderedStack (LIRSWSR2.run ([R 1; W 2] ++ [R 3]) o) ≠ [] ∧
        fst (LIRSWSR2.handleLIRBlock 1 "R" (LIRSWSR2.run ([R 1; W 2] ++ [R 3]) o)) = None ∧
        fst (LIRSWSR2.condition1 true (LIRSWSR2.run ([R 1; W 2] ++ [R 3]) o)) = None ∧
        fst (LIRSWSR2.condition3 true (LIRSWSR2.run ([R 1; W 2] ++ [R 3]) o)) = None).
Proof.
  apply (empty_stack_error_unreachable 4 50 [R 1; W 2] (R 3) 1 "R" true). lia.
Defined.

(** X6.  The LIR set of the LIRS engine never shrinks: along a run from a
    freshly built engine the number of LIR blocks after a longer trace is
    at least the number after any prefix of it, so once the LIR set is
    full the start-up branch of [Get] is never taken again. *)
Theorem lirs_lir_set_never_shrinks (c h : Z) (tr1 tr2 : list simulator.Trace) :
  0 <= h <= 100 ->
  ∃ o, LIRS.NewLIRS c h = Some o ∧
       (size (LIRS.LIR (LIRS.run tr1 o))
          <= size (LIRS.LIR (LIRS.run (tr1 ++ tr2) o)))%nat ∧
       (¬ Z.of_nat (size (LIRS.LIR (LIRS.run tr1 o))) < LIRS.LIRSize o ->
        ¬ Z.of_nat (size (LIRS.LIR (LIRS.run (tr1 ++ tr2) o))) < LIRS.LIRSize o).
Proof.
  intros Hh. destruct (lirs_New_total c h Hh) as [o Ho]. exists o. split; [done|].
  destruct (lirs_fresh_keeps c h o tr1 Ho) as (H1 & H2 & H3).
  destruct (lirs_run_keeps tr2 _ H1 H2 H3) as (_ & _ & _ & Hle).
  unfold LIRS.run in *. rewrite fold_left_app. split; [done | lia].
Qed.

Lemma lirs_lir_set_never_shrinks_witness :
  ∃ o, LIRS.NewLIRS 4 50 = Some o ∧
       (size (LIRS.LIR (LIRS.run [R 1; W 2] o))
          <= size (LIRS.LIR (LIRS.run ([R 1; W 2] ++ [R 3; R 1; W 4]) o)))%nat ∧
       (¬ Z.of_nat (size (LIRS.LIR (LIRS.run [R 1; W 2] o))) < LIRS.LIRSize o ->
        ¬ Z.of_nat (size (LIRS.LIR (LIRS.run ([R 1; W 2] ++ [R 3; R 1; W 4]) o)))
          < LIRS.LIRSize o).
Proof. apply (lirs_lir_set_never_shrinks 4 50 [R 1; W 2] [R 3; R 1; W 4]). lia. Defined.

(** X7.  In both LIRS-WSR variants no address ever leaves the LIR set:
    along a run from a freshly built engine an address that is LIR after a
    prefix of the trace is LIR after the whole trace. *)
Theorem wsr_lir_membership_permanent (c h : Z) (tr1 tr2 : list simulator.Trace)
    (k : Z) :
  0 <= h <= 100 ->
  (∃ o, LIRSWSR.NewLIRSWSR c h = Some o ∧
        (is_Some (LIRSWSR.LIR (LIRSWSR.run tr1 o) !! k) ->
         is_Some (LIRSWSR.LIR (LIRSWSR.run (tr1 ++ tr2) o) !! k))) ∧
  (∃ o, LIRSWSR2.NewLIRSWSR c h = Some o ∧
        (is_Some (LIRSWSR2.LIR (LIRSWSR2.run tr1 o) !! k) ->
         is_Some (LIRSWSR2.LIR (LIRSWSR2.run (tr1 ++ tr2) o) !! k))).
Proof.
  intros Hh. split.
  - destruct (wsr_New_total c h Hh) as [o Ho]. exists o. split; [done|].
    destruct (wsr_fresh_keeps c h o tr1 Ho) as (H1 & H2 & H3).
    destruct (wsr_run_keeps tr2 _ H1 H2 H3) as (_ & _ & _ & Hle).
    unfold LIRSWSR.run in *. rewrite fold_left_app. apply Hle.
  - destruct (wsr2_New_total c h Hh) as [o Ho]. exists o. split; [done|].
    destruct (wsr2_fresh_keeps c h o tr1 Ho) as (H1 & H2 & H3).
    destruct (wsr2_run_keeps tr2 _ H1 H2 H3) as (_ & _ & _ & Hle).
    unfold LIRSWSR2.run in *. rewrite fold_left_app. apply Hle.
Qed.

Lemma wsr_lir_membership_permanent_witness :
  (∃ o, LIRSWSR.NewLIRSWSR 4 50 = Some o ∧
        (is_Some (LIRSWSR.LIR (LIRSWSR.run [R 1; W 2] o) !! 1) ->
         is_Some (LIRSWSR.LIR (LIRSWSR.run ([R 1; W 2] ++ [R 3; R 4; R 3]) o) !! 1))) ∧
  (∃ o, LIRSWSR2.NewLIRSWSR 4 50 = Some o ∧
        (is_Some (LIRSWSR2.LIR (LIRSWSR2.run [R 1; W 2] o) !! 1) ->
         is_Some (LIRSWSR2.LIR (LIRSWSR2.run ([R 1; W 2] ++ [R 3; R 4; R 3]) o) !! 1))).
Proof.
  apply (wsr_lir_membership_permanent 4 50 [R 1; W 2] [R 3; R 4; R 3] 1). lia.
Defined.

End Reachable.

(** ** What one call does, in any state *)

Section Pruning.
Import OrderedMap OrderedMapFacts.

Lemma lirs_stackPruning_settled o :
  bottom_in (LIRS.LIR o) (LIRS.orderedStack o) -> LIRS.stackPruning o = o.
Proof.
  unfold bottom_in, LIRS.stackPruning, Iter.
  destruct (LIRS.orderedStack o) as [|[k v] st]; simpl; [done|].
  by intros [x ->].
Qed.

Lemma wsr_stackPruning_settled o :
  bottom_in (LIRSWSR.LIR o) (LIRSWSR.orderedStack o) -> LIRSWSR.stackPruning o = o.
Proof.
  unfold bottom_in, LIRSWSR.stackPruning, Iter.
  destruct (LIRSWSR.orderedStack o) as [|[k v] st]; simpl; [done|].
  by intros [x ->].
Qed.

Lemma wsr2_stackPruning_settled o :
  bottom_in (LIRSWSR2.LIR o) (LIRSWSR2.orderedStack o) -> LIRSWSR2.stackPruning o = o.
Proof.
  unfold bottom_in, LIRSWSR2.stackPruning, Iter.
  destruct (LIRSWSR2.orderedStack o) as [|[k v] st]; simpl; [done|].
  by intros [x ->].
Qed.

(** X8.  [stackPruning] removes exactly the entries at the bottom of stack
    S that are not in the LIR set: the stack before the call is the removed
    entries, none of them in the LIR set, followed by the stack after it,
    and the stack after it is empty or has an LIR block at its bottom.  No
    other field changes, and a second call changes nothing.  This holds in
    every state of the three engines. *)
Theorem stackPruning_removes_cold_bottom :
  (∀ o, ∃ removed,
      LIRS.orderedStack o = removed ++ LIRS.orderedStack (LIRS.stackPruning o) ∧
      Forall (fun e => LIRS.LIR o !! fst e = None) removed ∧
      bottom_in (LIRS.LIR o) (LIRS.orderedStack (LIRS.stackPruning o)) ∧
      LIRS.stackPruning o
        = LIRS.with_orderedStack (LIRS.orderedStack (LIRS.stackPruning o)) o ∧
      LIRS.stackPruning (LIRS.stackPruning o) = LIRS.stackPruning o) ∧
  (∀ o, ∃ removed,
      LIRSWSR.orderedStack o
        = removed ++ LIRSWSR.orderedStack (LIRSWSR.stackPruning o) ∧
      Forall (fun e => LIRSWSR.LIR o !! fst e = None) removed ∧
      bottom_in (LIRSWSR.LIR o) (LIRSWSR.orderedStack (LIRSWSR.stackPruning o)) ∧
      LIRSWSR.stackPruning o
        = LIRSWSR.with_orderedStack
            (LIRSWSR.orderedStack (LIRSWSR.stackPruning o)) o ∧
      LIRSWSR.stackPruning (LIRSWSR.stackPruning o) = LIRSWSR.stackPruning o) ∧
  (∀ o, ∃ removed,
      LIRSWSR2.orderedStack o
        = removed ++ LIRSWSR2.orderedStack (LIRSWSR2.stackPruning o) ∧
      Forall (fun e => LIRSWSR2.LIR o !! fst e = None) removed ∧
      bottom_in (LIRSWSR2.LIR o)
                (LIRSWSR2.orderedStack (LIRSWSR2.stackPruning o)) ∧
      LIRSWSR2.stackPruning o
        = LIRSWSR2.with_orderedStack
            (LIRSWSR2.orderedStack (LIRSWSR2.stackPruning o)) o ∧
      LIRSWSR2.stackPruning (LIRSWSR2.stackPruning o) = LIRSWSR2.stackPruning o).
Proof.
  split; [|split]; intros o.
  - destruct (LIRSRuns.lirs_stackPruning_loop_prefix (LIRS.orderedStack o) o eq_refl)
      as (removed & Heq & Hall).
    pose proof (LIRSFacts.lirs_stackPruning_bottom o) as Hb.
    destruct (LIRSFacts.lirs_stackPruning_frame o) as [st Hfr].
    exists removed. split; [exact Heq|]. split; [exact Hall|].
    split; [|split].
    + rewrite Hfr in Hb |- *. exact Hb.
    + rewrite Hfr. by destruct o.
    + apply lirs_stackPruning_settled, LIRSFacts.lirs_stackPruning_bottom.
  - destruct (LIRSWSRRuns.wsr_stackPruning_loop_prefix (LIRSWSR.orderedStack o) o eq_refl)
      as (removed & Heq & Hall).
    pose proof (LIRSWSRFacts.wsr_stackPruning_bottom o) as Hb.
    destruct (LIRSWSRFacts.wsr_stackPruning_frame o) as [st Hfr].
    exists removed. split; [exact Heq|]. split; [exact Hall|].
    split; [|split].
    + rewrite Hfr in Hb |- *. exact Hb.
    + rewrite Hfr. by destruct o.
    + apply wsr_stackPruning_settled, LIRSWSRFacts.wsr_stackPruning_bottom.
  - destruct (LIRSWSR2Runs.wsr2_stackPruning_loop_prefix (LIRSWSR2.orderedStack o) o eq_refl)
      as (removed & Heq & Hall).
    pose proof (LIRSWSR2Facts.wsr2_stackPruning_bottom o) as Hb.
    destruct (LIRSWSR2Facts.wsr2_stackPruning_frame o) as (st & Hfr & _).
    exists removed. split; [exact Heq|]. split; [exact Hall|].
    split; [|split].
    + rewrite Hfr in Hb |- *. exact Hb.
    + rewrite Hfr. by destruct o.
    + apply wsr2_stackPruning_settled, LIRSWSR2Facts.wsr2_stackPruning_bottom.
Qed.

End Pruning.

Section Hits.
Import GoInt GoIntFacts OrderedMap OrderedMapFacts.

Lemma lirs_condition1_false_frame o :
  ∃ st, snd (LIRS.condition1 false o) = LIRS.with_orderedStack st o.
Proof.
  unfold LIRS.condition1.
  destruct (PopFirst (LIRS.orderedStack o)) as [[[key v]|] st]; simpl.
  - match goal with |- context [LIRS.stackPruning ?x] =>
      destruct (LIRSFacts.lirs_stackPruning_frame x) as [st' ->] end.
    by exists st'.
  - exists (LIRS.orderedStack o). by destruct o.
Qed.

Lemma wsr_condition1_false_frame o :
  ∃ st, snd (LIRSWSR.condition1 false o) = LIRSWSR.with_orderedStack st o.
Proof.
  unfold LIRSWSR.condition1.
  destruct (PopFirst (LIRSWSR.orderedStack o)) as [[[key v]|] st]; simpl.
  - match goal with |- context [LIRSWSR.stackPruning ?x] =>
      destruct (LIRSWSRFacts.wsr_stackPruning_frame x) as [st' ->] end.
    by exists st'.
  - exists (LIRSWSR.orderedStack o). by destruct o.
Qed.

Lemma wsr2_condition1_false_frame o :
  ∃ st, snd (LIRSWSR2.condition1 false o) = LIRSWSR2.with_orderedStack st o.
Proof.
  unfold LIRSWSR2.condition1.
  destruct (PopFirst (LIRSWSR2.orderedStack o)) as [[[key v]|] st]; simpl.
  - match goal with |- context [LIRSWSR2.stackPruning ?x] =>
      destruct (LIRSWSR2Facts.wsr2_stackPruning_frame x) as (st' & -> & _) end.
    by exists st'.
  - exists (LIRSWSR2.orderedStack o). by destruct o.
Qed.

Lemma lirs_hit_frame trace o :
  ¬ Z.of_nat (size (LIRS.LIR o)) < LIRS.LIRSize o ->
  is_Some (LIRS.LIR o !! simulator.Addr trace) ->
  LIRS.LIR (snd (LIRS.Get trace o)) = LIRS.LIR o ∧
  LIRS.HIR (snd (LIRS.Get trace o)) = LIRS.HIR o ∧
  LIRS.orderedList (snd (LIRS.Get trace o)) = LIRS.orderedList o ∧
  LIRS.miss (snd (LIRS.Get trace o)) = LIRS.miss o ∧
  LIRS.hit (snd (LIRS.Get trace o)) = add (LIRS.hit o) 1.
Proof.
  intros Hge [x Hx]. unfold LIRS.Get.
  destruct (decide (simulator.Op trace = "W"%string)); simpl;
    rewrite decide_False by done; rewrite Hx; unfold LIRS.handleLIRBlock; simpl;
    (destruct (LIRS.orderedStack o) as [|[k v] st] eqn:ES; simpl; [done|]);
    (destruct (decide (k = simulator.Addr trace)); simpl;
     [match goal with |- context [LIRS.condition1 false ?y] =>
        destruct (lirs_condition1_false_frame y) as [st1 ->] end|]);
    match goal with |- context [LIRS.addToStack ?b ?y] =>
      destruct (LIRSFacts.lirs_addToStack_frame b y) as [st2 ->] end; done.
Qed.

Lemma wsr_hit_frame trace o :
  ¬ Z.of_nat (size (LIRSWSR.LIR o)) < LIRSWSR.LIRSize o ->
  is_Some (LIRSWSR.LIR o !! simulator.Addr trace) ->
  LIRSWSR.LIR (snd (LIRSWSR.Get trace o)) = LIRSWSR.LIR o ∧
  LIRSWSR.HIR (snd (LIRSWSR.Get trace o)) = LIRSWSR.HIR o ∧
  LIRSWSR.orderedList (snd (LIRSWSR.Get trace o)) = LIRSWSR.orderedList o ∧
  LIRSWSR.miss (snd (LIRSWSR.Get trace o)) = LIRSWSR.miss o ∧
  LIRSWSR.hit (snd (LIRSWSR.Get trace o)) = add (LIRSWSR.hit o) 1.
Proof.
  intros Hge [x Hx]. unfold LIRSWSR.Get.
  rewrite decide_False by done. rewrite Hx. unfold LIRSWSR.handleLIRBlock. simpl.
  destruct (LIRSWSR.orderedStack o) as [|[k v] st] eqn:ES; simpl; [done|].
  destruct (decide (k = simulator.Addr trace)); simpl;
    [match goal with |- context [LIRSWSR.condition1 false ?y] =>
       destruct (wsr_condition1_false_frame y) as [st1 ->] end|];
    match goal with |- context [LIRSWSR.addToStack ?b ?op ?y] =>
      destruct (LIRSWSRFacts.wsr_addToStack_frame b op y) as (st2 & w & ->) end;
    done.
Qed.

Lemma wsr2_hit_frame trace o :
  ¬ Z.of_nat (size (LIRSWSR2.LIR o)) < LIRSWSR2.LIRSize o ->
  is_Some (LIRSWSR2.LIR o !! simulator.Addr trace) ->
  LIRSWSR2.LIR (snd (LIRSWSR2.Get trace o)) = LIRSWSR2.LIR o ∧
  LIRSWSR2.HIR (snd (LIRSWSR2.Get trace o)) = LIRSWSR2.HIR o ∧
  LIRSWSR2.orderedList (snd (LIRSWSR2.Get trace o)) = LIRSWSR2.orderedList o ∧
  LIRSWSR2.miss (snd (LIRSWSR2.Get trace o)) = LIRSWSR2.miss o ∧
  LIRSWSR2.hit (snd (LIRSWSR2.Get trace o)) = add (LIRSWSR2.hit o) 1.
Proof.
  intros Hge [x Hx]. unfold LIRSWSR2.Get.
  rewrite decide_False by done. rewrite Hx. unfold LIRSWSR2.handleLIRBlock. simpl.
  destruct (LIRSWSR2.orderedStack o) as [|[k v] st] eqn:ES; simpl; [done|].
  destruct (decide (k = simulator.Addr trace)); simpl;
    [match goal with |- context [LIRSWSR2.condition1 false ?y] =>
       destruct (wsr2_condition1_false_frame y) as [st1 ->] end|];
    match goal with |- context [LIRSWSR2.addToStack ?b ?op ?y] =>
      destruct (LIRSWSR2Facts.wsr2_addToStack_frame b op y) as (st2 & w & -> & _) end;
    match goal with |- context [LIRSWSR2.incrementAccess ?b ?y] =>
      destruct (LIRSWSR2Facts.wsr2_incrementAccess_frame b y) as (st3 & -> & _) end;
    done.
Qed.

(** X9.  A hit on an LIR block changes the recency stack only: when the
    LIR set is full and the accessed address is in it, [Get] leaves the LIR
    set, the HIR set and list Q as they are, adds one hit and no miss.
    This holds in every such state of the three engines. *)
Theorem lir_hit_keeps_residency :
  (∀ trace o,
     ¬ Z.of_nat (size (LIRS.LIR o)) < LIRS.LIRSize o ->
     is_Some (LIRS.LIR o !! simulator.Addr trace) ->
     LIRS.LIR (snd (LIRS.Get trace o)) = LIRS.LIR o ∧
     LIRS.HIR (snd (LIRS.Get trace o)) = LIRS.HIR o ∧
     LIRS.orderedList (snd (LIRS.Get trace o)) = LIRS.orderedList o ∧
     LIRS.miss (snd (LIRS.Get trace o)) = LIRS.miss o ∧
     LIRS.hit (snd (LIRS.Get trace o)) = GoInt.add (LIRS.hit o) 1) ∧
  (∀ trace o,
     ¬ Z.of_nat (size (LIRSWSR.LIR o)) < LIRSWSR.LIRSize o ->
     is_Some (LIRSWSR.LIR o !! simulator.Addr trace) ->
     LIRSWSR.LIR (snd (LIRSWSR.Get trace o)) = LIRSWSR.LIR o ∧
     LIRSWSR.HIR (snd (LIRSWSR.Get trace o)) = LIRSWSR.HIR o ∧
     LIRSWSR.orderedList (snd (LIRSWSR.Get trace o)) = LIRSWSR.orderedList o ∧
     LIRSWSR.miss (snd (LIRSWSR.Get trace o)) = LIRSWSR.miss o ∧
     LIRSWSR.hit (snd (LIRSWSR.Get trace o)) = GoInt.add (LIRSWSR.hit o) 1) ∧
  (∀ trace o,
     ¬ Z.of_nat (size (LIRSWSR2.LIR o)) < LIRSWSR2.LIRSize o ->
     is_Some (LIRSWSR2.LIR o !! simulator.Addr trace) ->
     LIRSWSR2.LIR (snd (LIRSWSR2.Get trace o)) = LIRSWSR2.LIR o ∧
     LIRSWSR2.HIR (snd (LIRSWSR2.Get trace o)) = LIRSWSR2.HIR o ∧
     LIRSWSR2.orderedList (snd (LIRSWSR2.Get trace o)) = LIRSWSR2.orderedList o ∧
     LIRSWSR2.miss (snd (LIRSWSR2.Get trace o)) = LIRSWSR2.miss o ∧
     LIRSWSR2.hit (snd (LIRSWSR2.Get trace o)) = GoInt.add (LIRSWSR2.hit o) 1).
Proof.
  split; [|split]; intros trace o.
  - apply lirs_hit_frame.
  - apply wsr_hit_frame.
  - apply wsr2_hit_frame.
Qed.

Lemma lir_hit_keeps_residency_witness :
  (LIRS.LIR (snd (LIRS.Get (R 1) LIRS_filled)) = LIRS.LIR LIRS_filled ∧
   LIRS.HIR (snd (LIRS.Get (R 1) LIRS_filled)) = LIRS.HIR LIRS_filled ∧
   LIRS.orderedList (snd (LIRS.Get (R 1) LIRS_filled))
     = LIRS.orderedList LIRS_filled ∧
   LIRS.miss (snd (LIRS.Get (R 1) LIRS_filled)) = LIRS.miss LIRS_filled ∧
   LIRS.hit (snd (LIRS.Get (R 1) LIRS_filled))
     = GoInt.add (LIRS.hit LIRS_filled) 1) ∧
  (LIRSWSR.LIR (snd (LIRSWSR.Get (W 2) LIRSWSR_filled))
     = LIRSWSR.LIR LIRSWSR_filled ∧
   LIRSWSR.HIR (snd (LIRSWSR.Get (W 2) LIRSWSR_filled))
     = LIRSWSR.HIR LIRSWSR_filled ∧
   LIRSWSR.orderedList (snd (LIRSWSR.Get (W 2) LIRSWSR_filled))
     = LIRSWSR.orderedList LIRSWSR_filled ∧
   LIRSWSR.miss (snd (LIRSWSR.Get (W 2) LIRSWSR_filled))
     = LIRSWSR.miss LIRSWSR_filled ∧
   LIRSWSR.hit (snd (LIRSWSR.Get (W 2) LIRSWSR_filled))
     = GoInt.add (LIRSWSR.hit LIRSWSR_filled) 1) ∧
  (LIRSWSR2.LIR (snd (LIRSWSR2.Get (R 2) LIRSWSR2_filled))
     = LIRSWSR2.LIR LIRSWSR2_filled ∧
   LIRSWSR2.HIR (snd (LIRSWSR2.Get (R 2) LIRSWSR2_filled))
     = LIRSWSR2.HIR LIRSWSR2_filled ∧
   LIRSWSR2.orderedList (snd (LIRSWSR2.Get (R 2) LIRSWSR2_filled))
     = LIRSWSR2.orderedList LIRSWSR2_filled ∧
   LIRSWSR2.miss (snd (LIRSWSR2.Get (R 2) LIRSWSR2_filled))
     = LIRSWSR2.miss LIRSWSR2_filled ∧
   LIRSWSR2.hit (snd (LIRSWSR2.Get (R 2) LIRSWSR2_filled))
     = GoInt.add (LIRSWSR2.hit LIRSWSR2_filled) 1).
Proof.
  destruct lir_hit_keeps_residency as (H1 & H2 & H3).
  split; [|split]; [apply H1 | apply H2 | apply H3];
    vm_compute; first [discriminate | eexists; reflexivity].
Defined.

End Hits.

Section WriteCounts.
Import GoInt GoIntFacts OrderedMap OrderedMapFacts.

Lemma wsr_addToStack_writes block op o :
  ∃ st w, LIRSWSR.addToStack block op o
            = LIRSWSR.with_orderedStack st (LIRSWSR.with_writeCount w o) ∧
          (op ≠ "W"%string -> w = LIRSWSR.writeCount o) ∧
          (w = LIRSWSR.writeCount o ∨ w = add (LIRSWSR.writeCount o) 1).
Proof.
  unfold LIRSWSR.addToStack. destruct (OrderedMap.Get block (LIRSWSR.orderedStack o)).
  - eexists _, (LIRSWSR.writeCount o). split; [by destruct o | eauto].
  - destruct (decide (op = "W"%string)).
    + eexists _, _. split; [done|]. split; [done | eauto].
    + eexists _, (LIRSWSR.writeCount o). split; [by destruct o | eauto].
Qed.

Lemma wsr_addToList_writes block op o :
  ∃ q w, LIRSWSR.addToList block op o
           = LIRSWSR.with_orderedList q (LIRSWSR.with_writeCount w o) ∧
         (op ≠ "W"%string -> w = LIRSWSR.writeCount o) ∧
         (w = LIRSWSR.writeCount o ∨ w = add (LIRSWSR.writeCount o) 1).
Proof.
  unfold LIRSWSR.addToList.
  destruct (decide (Len (LIRSWSR.orderedList o) = LIRSWSR.HIRSize o));
    destruct (decide (op = "W"%string)); simpl.
  - eexists _, _. split; [done|]. split; [done | eauto].
  - eexists _, (LIRSWSR.writeCount o). split; [by destruct o | eauto].
  - eexists _, _. split; [done|]. split; [done | eauto].
  - eexists _, (LIRSWSR.writeCount o). split; [by destruct o | eauto].
Qed.

Lemma wsr2_addToStack_writes block op o :
  ∃ st w, LIRSWSR2.addToStack block op o
            = LIRSWSR2.with_orderedStack st (LIRSWSR2.with_writeCount w o) ∧
          (op ≠ "W"%string -> w = LIRSWSR2.writeCount o) ∧
          (w = LIRSWSR2.writeCount o ∨ w = add (LIRSWSR2.writeCount o) 1).
Proof.
  unfold LIRSWSR2.addToStack. destruct (OrderedMap.Get block (LIRSWSR2.orderedStack o)).
  - eexists _, (LIRSWSR2.writeCount o). split; [by destruct o | eauto].
  - destruct (decide (op = "W"%string)).
    + eexists _, _. split; [done|]. split; [done | eauto].
    + eexists _, (LIRSWSR2.writeCount o). split; [by destruct o | eauto].
Qed.

Lemma wsr2_addToList_writes block op o :
  ∃ q w, LIRSWSR2.addToList block op o
           = LIRSWSR2.with_orderedList q (LIRSWSR2.with_writeCount w o) ∧
         (op ≠ "W"%string -> w = LIRSWSR2.writeCount o) ∧
         (w = LIRSWSR2.writeCount o ∨ w = add (LIRSWSR2.writeCount o) 1).
Proof.
  unfold LIRSWSR2.addToList.
  destruct (decide (Len (LIRSWSR2.orderedList o) = LIRSWSR2.HIRSize o));
    destruct (decide (op = "W"%string)); simpl.
  - eexists _, _. split; [done|]. split; [done | eauto].
  - eexists _, (LIRSWSR2.writeCount o). split; [by destruct o | eauto].
  - eexists _, _. split; [done|]. split; [done | eauto].
  - eexists _, (LIRSWSR2.writeCount o). split; [by destruct o | eauto].
Qed.

Lemma wsr_condition1_writeCount r o :
  LIRSWSR.writeCount (snd (LIRSWSR.condition1 r o)) = LIRSWSR.writeCount o.
Proof. apply LIRSWSRFacts.wsr_condition1_counters. Qed.

Lemma wsr_condition3_writeCount r o :
  LIRSWSR.writeCount (snd (LIRSWSR.condition3 r o)) = LIRSWSR.writeCount o.
Proof. apply LIRSWSRFacts.wsr_condition3_counters. Qed.

Lemma wsr2_condition1_writeCount r o :
  LIRSWSR2.writeCount (snd (LIRSWSR2.condition1 r o)) = LIRSWSR2.writeCount o.
Proof. apply LIRSWSR2Facts.wsr2_condition1_counters. Qed.

Lemma wsr2_condition3_writeCount r o :
  LIRSWSR2.writeCount (snd (LIRSWSR2.condition3 r o)) = LIRSWSR2.writeCount o.
Proof. apply wsr2_condition1_writeCount. Qed.

Ltac wsr_stack_writes :=
  match goal with |- context [LIRSWSR.addToStack ?b ?op ?y] =>
    let st := fresh "st" in let w := fresh "w" in
    let Hq := fresh "Hq" in let Hw := fresh "Hw" in
    destruct (wsr_addToStack_writes b op y) as (st & w & -> & Hq & Hw)
  end.

Ltac wsr2_stack_writes :=
  match goal with |- context [LIRSWSR2.addToStack ?b ?op ?y] =>
    let st := fresh "st" in let w := fresh "w" in
    let Hq := fresh "Hq" in let Hw := fresh "Hw" in
    destruct (wsr2_addToStack_writes b op y) as (st & w & -> & Hq & Hw)
  end.

Lemma wsr_Get_writes trace o :
  (simulator.Op trace ≠ "W"%string ->
   LIRSWSR.writeCount (snd (LIRSWSR.Get trace o)) = LIRSWSR.writeCount o) ∧
  (LIRSWSR.writeCount (snd (LIRSWSR.Get trace o)) = LIRSWSR.writeCount o ∨
   LIRSWSR.writeCount (snd (LIRSWSR.Get trace o)) = add (LIRSWSR.writeCount o) 1 ∨
   LIRSWSR.writeCount (snd (LIRSWSR.Get trace o))
     = add (add (LIRSWSR.writeCount o) 1) 1).
Proof.
  unfold LIRSWSR.Get.
  destruct (decide (Z.of_nat (size (LIRSWSR.LIR o)) < LIRSWSR.LIRSize o)).
  - cbv zeta. wsr_stack_writes. simpl in *.
    destruct (LIRSWSR.LIR o !! simulator.Addr trace); simpl in *; naive_solver.
  - cbv zeta. destruct (LIRSWSR.LIR o !! simulator.Addr trace).
    + unfold LIRSWSR.handleLIRBlock. cbv zeta.
      destruct (GetFirst (LIRSWSR.orderedStack
                            (LIRSWSR.with_hit (add (LIRSWSR.hit o) 1) o)))
        as [[key v]|]; [|simpl; eauto].
      wsr_stack_writes. simpl in *.
      destruct (decide (key = simulator.Addr trace)); simpl in *;
        rewrite ?wsr_condition1_writeCount in *; simpl in *; naive_solver.
    + destruct (OrderedMap.Get (simulator.Addr trace) (LIRSWSR.orderedList o)).
      * unfold LIRSWSR.handleHIRResidentBlock. cbv zeta.
        wsr_stack_writes. simpl in *.
        destruct (OrderedMap.Get (simulator.Addr trace) (LIRSWSR.orderedStack o));
          simpl in *; rewrite ?wsr_condition1_writeCount in *; simpl in *;
          naive_solver.
      * unfold LIRSWSR.handleHIRNonResidentBlock. cbv zeta.
        wsr_stack_writes. simpl in *.
        match goal with H : context [LIRSWSR.addToList ?b ?op ?y] |- _ =>
          destruct (wsr_addToList_writes b op y) as (q & w1 & Hl & Hq1 & Hw1) end.
        rewrite Hl in *. simpl in *.
        destruct (OrderedMap.Get (simulator.Addr trace) (LIRSWSR.orderedStack o));
          simpl in *; rewrite ?wsr_condition3_writeCount in *; simpl in *;
          naive_solver.
Qed.

Lemma wsr2_Get_writes trace o :
  (simulator.Op trace ≠ "W"%string ->
   LIRSWSR2.writeCount (snd (LIRSWSR2.Get trace o)) = LIRSWSR2.writeCount o) ∧
  (LIRSWSR2.writeCount (snd (LIRSWSR2.Get trace o)) = LIRSWSR2.writeCount o ∨
   LIRSWSR2.writeCount (snd (LIRSWSR2.Get trace o)) = add (LIRSWSR2.writeCount o) 1 ∨
   LIRSWSR2.writeCount (snd (LIRSWSR2.Get trace o))
     = add (add (LIRSWSR2.writeCount o) 1) 1).
Proof.
  unfold LIRSWSR2.Get.
  destruct (decide (Z.of_nat (size (LIRSWSR2.LIR o)) < LIRSWSR2.LIRSize o)).
  - cbv zeta. wsr2_stack_writes. simpl in *.
    destruct (LIRSWSR2.LIR o !! simulator.Addr trace); simpl in *; naive_solver.
  - cbv zeta. destruct (LIRSWSR2.LIR o !! simulator.Addr trace).
    + unfold LIRSWSR2.handleLIRBlock. cbv zeta.
      destruct (GetFirst (LIRSWSR2.orderedStack
                            (LIRSWSR2.with_hit (add (LIRSWSR2.hit o) 1) o)))
        as [[key v]|]; [|simpl; eauto].
      match goal with |- context [LIRSWSR2.incrementAccess ?b ?y] =>
        destruct (LIRSWSR2Facts.wsr2_incrementAccess_frame b y) as (st3 & -> & _) end.
      wsr2_stack_writes. simpl in *.
      destruct (decide (key = simulator.Addr trace)); simpl in *;
        rewrite ?wsr2_condition1_writeCount in *; simpl in *; naive_solver.
    + destruct (OrderedMap.Get (simulator.Addr trace) (LIRSWSR2.orderedList o)).
      * unfold LIRSWSR2.handleHIRResidentBlock. cbv zeta.
        match goal with |- context [LIRSWSR2.incrementAccess ?b ?y] =>
          destruct (LIRSWSR2Facts.wsr2_incrementAccess_frame b y) as (st3 & -> & _) end.
        wsr2_stack_writes. simpl in *.
        destruct (OrderedMap.Get (simulator.Addr trace) (LIRSWSR2.orderedStack o));
          simpl in *; rewrite ?wsr2_condition1_writeCount in *; simpl in *;
          naive_solver.
      * unfold LIRSWSR2.handleHIRNonResidentBlock. cbv zeta.
        match goal with |- context [LIRSWSR2.incrementAccess ?b ?y] =>
          destruct (LIRSWSR2Facts.wsr2_incrementAccess_frame b y) as (st3 & -> & _) end.
        wsr2_stack_writes. simpl in *.
        match goal with H : context [LIRSWSR2.addToList ?b ?op ?y] |- _ =>
          destruct (wsr2_addToList_writes b op y) as (q & w1 & Hl & Hq1 & Hw1) end.
        rewrite Hl in *. simpl in *.
        destruct (OrderedMap.Get (simulator.Addr trace) (LIRSWSR2.orderedStack o));
          simpl in *; rewrite ?wsr2_condition3_writeCount in *; simpl in *;
          naive_solver.
Qed.

(** X10.  In both LIRS-WSR variants a read is never counted as a write, and
    one access counts at most two: [Get] of a record whose [Op] is not
    "W" leaves [writeCount] as it is, and [Get] of any record leaves it
    unchanged or increments it once or twice.  This holds in every
    state. *)
Theorem wsr_write_count_step :
  (∀ trace o,
     (simulator.Op trace ≠ "W"%string ->
      LIRSWSR.writeCount (snd (LIRSWSR.Get trace o)) = LIRSWSR.writeCount o) ∧
     (LIRSWSR.writeCount (snd (LIRSWSR.Get trace o)) = LIRSWSR.writeCount o ∨
      LIRSWSR.writeCount (snd (LIRSWSR.Get trace o))
        = GoInt.add (LIRSWSR.writeCount o) 1 ∨
      LIRSWSR.writeCount (snd (LIRSWSR.Get trace o))
        = GoInt.add (GoInt.add (LIRSWSR.writeCount o) 1) 1)) ∧
  (∀ trace o,
     (simulator.Op trace ≠ "W"%string ->
      LIRSWSR2.writeCount (snd (LIRSWSR2.Get trace o)) = LIRSWSR2.writeCount o) ∧
     (LIRSWSR2.writeCount (snd (LIRSWSR2.Get trace o)) = LIRSWSR2.writeCount o ∨
      LIRSWSR2.writeCount (snd (LIRSWSR2.Get trace o))
        = GoInt.add (LIRSWSR2.writeCount o) 1 ∨
      LIRSWSR2.writeCount (snd (LIRSWSR2.Get trace o))
        = GoInt.add (GoInt.add (LIRSWSR2.writeCount o) 1) 1)).
Proof. split; [exact wsr_Get_writes | exact wsr2_Get_writes]. Qed.

Lemma wsr_write_count_step_witness :
  LIRSWSR.writeCount (snd (LIRSWSR.Get (R 3) LIRSWSR_filled))
    = LIRSWSR.writeCount LIRSWSR_filled ∧
  LIRSWSR2.writeCount (snd (LIRSWSR2.Get (R 3) LIRSWSR2_filled))
    = LIRSWSR2.writeCount LIRSWSR2_filled.
Proof.
  destruct wsr_write_count_step as (H1 & H2).
  split; [apply (H1 (R 3) LIRSWSR_filled) | apply (H2 (R 3) LIRSWSR2_filled)];
    discriminate.
Defined.

End WriteCounts.

Section ColdStart.
Import GoInt GoIntFacts OrderedMap OrderedMapFacts OrderedMapKeys.

(** One access of the start-up phase: the address is new and the LIR set
    has room. *)
Lemma lirs_cold_Get trace o :
  LIRS.orderedList o = [] -> LIRS.HIR o = ∅ ->
  LIRS.LIR o !! simulator.Addr trace = None ->
  OrderedMap.Get (simulator.Addr trace) (LIRS.orderedStack o) = None ->
  Z.of_nat (size (LIRS.LIR o)) < LIRS.LIRSize o ->
  let o' := snd (LIRS.Get trace o) in
  LIRS.orderedList o' = [] ∧ LIRS.HIR o' = ∅ ∧
  LIRS.LIR o' = <[simulator.Addr trace := 1]> (LIRS.LIR o) ∧
  LIRS.orderedStack o' = LIRS.orderedStack o ++ [(simulator.Addr trace, 1)] ∧
  LIRS.hit o' = LIRS.hit o ∧ LIRS.miss o' = add (LIRS.miss o) 1 ∧
  LIRS.LIRSize o' = LIRS.LIRSize o.
Proof.
  intros Hq Hh Hl Hs Hlt. unfold LIRS.Get.
  destruct (decide (simulator.Op trace = "W"%string)); simpl;
    rewrite decide_True by done; rewrite Hl; unfold LIRS.addToStack; simpl;
    rewrite Hs; simpl; rewrite Hq, Hh; unfold Set_; rewrite Hs;
    rewrite delete_empty; done.
Qed.

Lemma lirs_cold_run tr : ∀ pre o,
  LIRS.orderedList o = [] -> LIRS.HIR o = ∅ ->
  keys (LIRS.orderedStack o) = pre ->
  (∀ k, is_Some (LIRS.LIR o !! k) <-> k ∈ pre) ->
  size (LIRS.LIR o) = length pre ->
  LIRS.miss o = Z.of_nat (length pre) ->
  in_range (LIRS.LIRSize o) ->
  NoDup (pre ++ List.map simulator.Addr tr) ->
  Z.of_nat (length pre + length tr) <= LIRS.LIRSize o ->
  let s := LIRS.run tr o in
  LIRS.orderedList s = [] ∧ LIRS.HIR s = ∅ ∧
  keys (LIRS.orderedStack s) = pre ++ List.map simulator.Addr tr ∧
  (∀ k, is_Some (LIRS.LIR s !! k) <-> k ∈ pre ++ List.map simulator.Addr tr) ∧
  LIRS.hit s = LIRS.hit o ∧
  LIRS.miss s = Z.of_nat (length pre + length tr).
Proof.
  induction tr as [|t tr IH]; intros pre o Hq Hh Hk Hdom Hsz Hm Hr Hnd Hlen; simpl.
  - rewrite app_nil_r, Nat.add_0_r. done.
  - simpl in Hnd, Hlen.
    assert (Hnew : simulator.Addr t ∉ pre).
    { apply NoDup_app in Hnd as (_ & Hx & _). intros Hin.
      apply (Hx _ Hin). by left. }
    assert (Hl : LIRS.LIR o !! simulator.Addr t = None).
    { destruct (LIRS.LIR o !! simulator.Addr t) eqn:E; [|done].
      exfalso. apply Hnew, Hdom. eauto. }
    assert (Hs : OrderedMap.Get (simulator.Addr t) (LIRS.orderedStack o) = None).
    { apply Get_None_keys. by rewrite Hk. }
    destruct (lirs_cold_Get t o Hq Hh Hl Hs ltac:(lia))
      as (Hq' & Hh' & Hl' & Hs' & Hhit & Hmiss & HL).
    destruct (IH (pre ++ [simulator.Addr t]) (snd (LIRS.Get t o)))
      as (I1 & I2 & I3 & I4 & I5 & I6); try done.
    + rewrite Hs'. unfold keys. rewrite List.map_app. simpl. unfold keys in Hk.
      by rewrite Hk.
    + intros k. rewrite Hl', lookup_insert_is_Some', elem_of_app,
        list_elem_of_singleton, Hdom. naive_solver.
    + rewrite Hl', map_size_insert_None by done. rewrite length_app. simpl. lia.
    + rewrite Hmiss, Hm, length_app. simpl.
      rewrite add_id by (unfold in_range, min_int, max_int in *; lia). lia.
    + by rewrite HL.
    + by rewrite <- app_assoc.
    + rewrite HL, length_app. simpl. lia.
    + rewrite <- app_assoc in I3, I4. simpl in I3, I4.
      rewrite length_app in I6. simpl in I6.
      unfold LIRS.run in *. repeat (split; [done|]).
      split; [congruence|]. rewrite I6. f_equal. lia.
Qed.

(** X11.  The start-up phase of the LIRS engine: a trace of distinct
    addresses that is no longer than the LIR capacity is served by the
    start-up branch of [Get] alone.  From a freshly built engine every
    access is a miss and none a hit, the addresses are the keys of stack S
    in trace order and exactly the LIR set, and list Q and the HIR set
    stay empty. *)
Theorem lirs_start_up_fills_lir (c h : Z) (tr : list simulator.Trace) :
  0 <= h <= 100 ->
  NoDup (List.map simulator.Addr tr) ->
  ∃ o, LIRS.NewLIRS c h = Some o ∧
       (Z.of_nat (length tr) <= LIRS.LIRSize o ->
        LIRS.miss (LIRS.run tr o) = Z.of_nat (length tr) ∧
        LIRS.hit (LIRS.run tr o) = 0 ∧
        OrderedMap.keys (LIRS.orderedStack (LIRS.run tr o))
          = List.map simulator.Addr tr ∧
        (∀ k, is_Some (LIRS.LIR (LIRS.run tr o) !! k)
              <-> k ∈ List.map simulator.Addr tr) ∧
        LIRS.orderedList (LIRS.run tr o) = [] ∧
        LIRS.HIR (LIRS.run tr o) = ∅).
Proof.
  intros Hh Hnd. destruct (lirs_New_total c h Hh) as [o Ho]. exists o.
  split; [done|]. intros Hlen.
  destruct (lirs_New_fresh c h o Ho) as (Hs & Hq & Hl & Hhir & Hhit & Hmiss & _ & Hr).
  destruct (lirs_cold_run tr [] o) as (I1 & I2 & I3 & I4 & I5 & I6); try done.
  - by rewrite Hs.
  - intros k. rewrite Hl, lookup_empty. split; [by intros [? ?]|].
    intros Hin. by apply elem_of_nil in Hin.
  - by rewrite Hl, map_size_empty.
  - simpl in *. repeat (split; [done|]). split; [congruence|]. done.
Qed.

Lemma lirs_start_up_fills_lir_witness :
  ∃ o, LIRS.NewLIRS 6 50 = Some o ∧
       (Z.of_nat (length [R 7; W 5; R 9]) <= LIRS.LIRSize o ->
        LIRS.miss (LIRS.run [R 7; W 5; R 9] o) = Z.of_nat (length [R 7; W 5; R 9]) ∧
        LIRS.hit (LIRS.run [R 7; W 5; R 9] o) = 0 ∧
        OrderedMap.keys (LIRS.orderedStack (LIRS.run [R 7; W 5; R 9] o))
          = List.map simulator.Addr [R 7; W 5; R 9] ∧
        (∀ k, is_Some (LIRS.LIR (LIRS.run [R 7; W 5; R 9] o) !! k)
              <-> k ∈ List.map simulator.Addr [R 7; W 5; R 9]) ∧
        LIRS.orderedList (LIRS.run [R 7; W 5; R 9] o) = [] ∧
        LIRS.HIR (LIRS.run [R 7; W 5; R 9] o) = ∅).
Proof.
  apply (lirs_start_up_fills_lir 6 50 [R 7; W 5; R 9]); [lia|].
  simpl. repeat constructor; set_solver.
Defined.

End ColdStart.

Section LRUMore.
Import GoInt GoIntFacts LRU LRUFacts.

(** X12.  With a positive capacity the LRU engine serves every trace
    without a panic and ends in a consistent state: the recency list holds
    each resident address once, the tree indexes exactly the addresses of
    the list, each under its own [lba], and the length of the list plus
    [available] is [maxlen]. *)
Theorem lru_run_consistent (cacheSize : Z) (tr : list simulator.Trace) :
  0 < cacheSize -> GoInt.in_range cacheSize ->
  ∃ lru, LRU.run tr (LRU.NewLRU cacheSize) = Some lru ∧ LRU_inv lru ∧
         LRU.maxlen lru = cacheSize.
Proof.
  intros Hc Hr.
  destruct (lru_run_inv tr (NewLRU cacheSize)) as (lru & Hrun & Hinv & Hm);
    [by apply lru_NewLRU_inv | done |].
  exists lru. done.
Qed.

Lemma lru_run_consistent_witness :
  ∃ lru, LRU.run [R 1; W 2; R 3; R 1; W 4] (LRU.NewLRU 2) = Some lru ∧
         LRU_inv lru ∧ LRU.maxlen lru = 2.
Proof.
  apply (lru_run_consistent 2 [R 1; W 2; R 3; R 1; W 4]); [lia|].
  unfold GoInt.in_range, GoInt.min_int, GoInt.max_int. lia.
Defined.

Lemma lru_Get_counted t lru n :
  LRU_inv lru -> 0 < maxlen lru -> LRU_counted lru n -> n < max_int ->
  ∃ lru', LRU.Get t lru = Some (None, lru') ∧ LRU_inv lru' ∧
          maxlen lru' = maxlen lru ∧ LRU_counted lru' (n + 1).
Proof.
  intros Hinv Hpos (Ht & Hhm & Hh & Hp & Hml & Hw1 & Hw2) Hn.
  destruct (lru_Get_inv t lru Hinv Hpos) as (lru' & HG & Hinv' & Hm).
  exists lru'. split; [done|]. split; [done|]. split; [done|].
  destruct Hinv as (Ha & Hlen & Hr & Hnd & Hdom & Hkey & Hsz).
  unfold resident in *.
  assert (Hlist : 0 <= Z.of_nat (length (lrulist lru))) by lia.
  revert HG. unfold LRU.Get, Get_evict, put_evict. simpl.
  destruct (tlba lru !! simulator.Addr t) as [dd|] eqn:E.
  - simpl. intros [= <-]. unfold LRU_counted. simpl.
    pose proof (Hkey _ _ E) as Hdd.
    assert (Hin : lba dd ∈ List.map lba (lrulist lru))
      by (rewrite Hdd; apply Hdom; eauto).
    pose proof (lru_length_Remove _ _ Hnd Hin) as HL.
    destruct (decide (simulator.Op t = "W"%string));
      rewrite !add_id by (unfold in_range, min_int, max_int in *; lia); lia.
  - destruct (decide (available lru > 0)) as [Hav|Hav].
    + simpl. intros [= <-]. unfold LRU_counted. simpl.
      rewrite !add_id by (unfold in_range, min_int, max_int in *; lia). lia.
    + destruct (list_Back (lrulist lru)) as [el|] eqn:Hel; simpl; [|done].
      intros [= <-]. unfold LRU_counted. simpl.
      pose proof (lru_Back_resident _ _ Hel) as Hin.
      pose proof (lru_length_Remove _ _ Hnd Hin) as HL.
      rewrite !add_id by (unfold in_range, min_int, max_int in *; lia). lia.
Qed.

Lemma lru_run_counted tr : ∀ lru n,
  LRU_inv lru -> 0 < maxlen lru -> LRU_counted lru n ->
  n + Z.of_nat (length tr) <= max_int ->
  ∃ lru', run tr lru = Some lru' ∧ LRU_counted lru' (n + Z.of_nat (length tr)).
Proof.
  induction tr as [|t tr IH]; intros lru n Hinv Hpos Hc Hn.
  - exists lru. simpl. rewrite Z.add_0_r. done.
  - simpl length in *.
    destruct (lru_Get_counted t lru n Hinv Hpos Hc ltac:(lia))
      as (lru1 & HG & Hinv1 & Hm1 & Hc1).
    destruct (IH lru1 (n + 1) Hinv1 ltac:(lia) Hc1 ltac:(lia))
      as (lru' & Hrun & Hc').
    exists lru'. split.
    + unfold run in *. simpl. rewrite HG. simpl. exact Hrun.
    + replace (n + Z.of_nat (S (length tr))) with (n + 1 + Z.of_nat (length tr)) by lia.
      done.
Qed.

(** X13.  The counters of the LRU engine after a trace of [n] records, with
    a positive capacity: [totalaccess] is [n], hits and misses add up to
    [n], every miss is either still in the list or was paid for by a page
    fault ([miss] is the length of the list plus [pagefault]), and [write]
    lies between [miss] and [n]. *)
Theorem lru_counters_account (cacheSize : Z) (tr : list simulator.Trace) :
  0 < cacheSize -> GoInt.in_range cacheSize ->
  Z.of_nat (length tr) <= GoInt.max_int ->
  ∃ lru, LRU.run tr (LRU.NewLRU cacheSize) = Some lru ∧
         LRU_counted lru (Z.of_nat (length tr)).
Proof.
  intros Hc Hr Hn.
  destruct (lru_run_counted tr (NewLRU cacheSize) 0) as (lru & Hrun & Hcnt);
    [by apply lru_NewLRU_inv | done | | lia |].
  - unfold LRU_counted, NewLRU. simpl. lia.
  - exists lru. done.
Qed.

Lemma lru_counters_account_witness :
  ∃ lru, LRU.run [R 1; W 2; R 3; R 1; W 4] (LRU.NewLRU 2) = Some lru ∧
         LRU_counted lru (Z.of_nat (length [R 1; W 2; R 3; R 1; W 4])).
Proof.
  apply (lru_counters_account 2 [R 1; W 2; R 3; R 1; W 4]); [lia| |].
  - unfold GoInt.in_range, GoInt.min_int, GoInt.max_int. lia.
  - unfold GoInt.max_int. simpl. lia.
Defined.

Lemma lru_run_None tr :
  fold_left (fun o t => o ≫= fun lru => snd <$> LRU.Get t lru) tr None = None.
Proof. induction tr as [|t tr IH]; simpl; done. Qed.

(** X14.  An LRU engine built with a capacity that is not positive cannot
    serve a single access: the first [Get] has no free slot and no entry
    to evict, [lrulist.Back()] is nil and reading its [Value] panics, so
    no run of one record or more returns. *)
Theorem lru_no_capacity_panics (cacheSize : Z) (t : simulator.Trace)
    (tr : list simulator.Trace) :
  cacheSize <= 0 ->
  LRU.Get t (LRU.NewLRU cacheSize) = None ∧
  LRU.run (t :: tr) (LRU.NewLRU cacheSize) = None.
Proof.
  intros Hc.
  assert (HG : LRU.Get t (NewLRU cacheSize) = None).
  { unfold LRU.Get, Get_evict, put_evict, NewLRU. simpl.
    rewrite lookup_empty, decide_False by lia. done. }
  split; [done|]. unfold run. simpl. rewrite HG. simpl. apply lru_run_None.
Qed.

Lemma lru_no_capacity_panics_witness :
  LRU.Get (R 1) (LRU.NewLRU 0) = None ∧
  LRU.run (R 1 :: [W 2]) (LRU.NewLRU 0) = None.
Proof. apply (lru_no_capacity_panics 0 (R 1) [W 2]). lia. Defined.

Lemma lru_filter_absent a (l : list Z) :
  a ∉ l -> List.filter (fun k => negb (bool_decide (k = a))) l = l.
Proof.
  induction l as [|x l IH]; simpl; [done|].
  intros Hn. apply not_elem_of_cons in Hn as [Hne Hn].
  rewrite bool_decide_eq_false_2 by done. simpl. f_equal. by apply IH.
Qed.

Lemma lru_filter_last v (l : list Z) :
  NoDup (l ++ [v]) ->
  List.filter (fun k => negb (bool_decide (k = v))) (l ++ [v]) = l.
Proof.
  intros Hnd. apply NoDup_app in Hnd as (_ & Hx & _).
  rewrite List.filter_app. simpl. rewrite bool_decide_eq_true_2 by done. simpl.
  rewrite app_nil_r. apply lru_filter_absent. intros Hin.
  apply (Hx _ Hin). by apply list_elem_of_singleton.
Qed.

(** X15.  The recency order of the LRU engine, in a consistent state with
    a positive capacity.  [Get] puts the accessed address at the front of
    the list and keeps the order of the others.  Nothing is evicted when
    the address is resident or a slot is free; otherwise the address at
    the back of the list, and only that one, is evicted.  On a hit the
    tree is left as it is. *)
Theorem lru_recency_order (t : simulator.Trace) (lru : LRU.LRU) :
  LRU_inv lru -> 0 < LRU.maxlen lru ->
  ∃ e lru', LRU.Get_evict t lru = Some (e, lru') ∧
    (match e with
    | None =>
        (simulator.Addr t ∈ LRU.resident lru ∨ LRU.available lru > 0) ∧
        LRU.resident lru'
          = simulator.Addr t
              :: List.filter (fun k => negb (bool_decide (k = simulator.Addr t)))
                             (LRU.resident lru)
    | Some v =>
        (simulator.Addr t ∉ LRU.resident lru) ∧
        ¬ (LRU.available lru > 0) ∧
        ∃ l, LRU.resident lru = l ++ [v] ∧
             LRU.resident lru' = simulator.Addr t :: l
    end) ∧
    (simulator.Addr t ∈ LRU.resident lru -> LRU.tlba lru' = LRU.tlba lru).
Proof.
  intros (Ha & Hlen & Hr & Hnd & Hdom & Hkey & Hsz) Hpos.
  unfold Get_evict, put_evict. simpl.
  destruct (tlba lru !! simulator.Addr t) as [dd|] eqn:E.
  - eexists _, _. split; [reflexivity|]. simpl.
    pose proof (Hkey _ _ E) as Hdd.
    assert (Hin : simulator.Addr t ∈ resident lru) by (apply Hdom; eauto).
    split; [|done]. split; [by left|].
    unfold resident. simpl. rewrite Hdd. f_equal. apply lru_resident_Remove.
  - assert (Hnin : simulator.Addr t ∉ resident lru).
    { intros Hin. apply Hdom in Hin as [? ?]. congruence. }
    destruct (decide (available lru > 0)) as [Hav|Hav].
    + eexists _, _. split; [reflexivity|]. simpl.
      split; [|done]. split; [by right|].
      unfold resident in *. simpl. f_equal. symmetry. by apply lru_filter_absent.
    + assert (Hne : lrulist lru ≠ []).
      { intros Hnil. rewrite Hnil in Hlen. simpl in Hlen. lia. }
      destruct (lru_Back_nonempty _ Hne) as [el Hel]. rewrite Hel.
      eexists _, _. split; [reflexivity|]. simpl.
      split; [|done]. split; [done|]. split; [done|].
      unfold list_Back in Hel. apply last_Some in Hel as [l' Hl'].
      exists (List.map lba l'). unfold resident in *. simpl.
      rewrite lru_resident_Remove, Hl', List.map_app. simpl.
      split; [done|]. f_equal. apply lru_filter_last.
      rewrite Hl', List.map_app in Hnd. exact Hnd.
Qed.

Lemma lru_recency_order_witness :
  ∃ e lru', LRU.Get_evict (R 3) LRU_filled = Some (e, lru') ∧
    (match e with
     | None =>
         (simulator.Addr (R 3) ∈ LRU.resident LRU_filled ∨
          LRU.available LRU_filled > 0) ∧
         LRU.resident lru'
           = simulator.Addr (R 3)
               :: List.filter
                    (fun k => negb (bool_decide (k = simulator.Addr (R 3))))
                    (LRU.resident LRU_filled)
     | Some v =>
         (simulator.Addr (R 3) ∉ LRU.resident LRU_filled) ∧
         ¬ (LRU.available LRU_filled > 0) ∧
         ∃ l, LRU.resident LRU_filled = l ++ [v] ∧
              LRU.resident lru' = simulator.Addr (R 3) :: l
     end) ∧
    (simulator.Addr (R 3) ∈ LRU.resident LRU_filled ->
     LRU.tlba lru' = LRU.tlba LRU_filled).
Proof.
  apply (lru_recency_order (R 3) LRU_filled); [|simpl; lia].
  unfold LRU_inv, LRU.resident, LRU_filled. simpl.
  split; [lia|]. split; [lia|].
  split; [unfold GoInt.in_range, GoInt.min_int, GoInt.max_int; lia|].
  split; [repeat constructor; set_solver|].
  split; [|split].
  - intros a. unfold is_Some. setoid_rewrite lookup_insert_Some.
    setoid_rewrite lookup_singleton_Some.
    rewrite !elem_of_cons, elem_of_nil. naive_solver.
  - intros a n. rewrite lookup_insert_Some, lookup_singleton_Some. naive_solver.
  - vm_compute. reflexivity.
Defined.

(** X16.  The tree orders its nodes by address alone: [Less] is a strict
    order, and two nodes are tied under it, so that the tree takes them for
    the same item, exactly when they have the same [lba], whatever their
    [lastaccess] and [op]. *)
Theorem lru_Less_orders_by_lba :
  (∀ x, LRU.Less x x = false) ∧
  (∀ x y z, LRU.Less x y = true -> LRU.Less y z = true -> LRU.Less x z = true) ∧
  (∀ x y, LRU.Less x y = false ∧ LRU.Less y x = false <-> LRU.lba x = LRU.lba y).
Proof.
  unfold LRU.Less. split; [|split].
  - intros x. apply Z.ltb_irrefl.
  - intros x y z. rewrite !Z.ltb_lt. lia.
  - intros x y. rewrite !Z.ltb_ge. lia.
Qed.

Lemma lru_Less_orders_by_lba_witness :
  LRU.Less (LRU.mkNodeLba 1 5 "R") (LRU.mkNodeLba 3 2 "W") = true ∧
  (LRU.Less (LRU.mkNodeLba 3 2 "W") (LRU.mkNodeLba 3 7 "R") = false ∧
   LRU.Less (LRU.mkNodeLba 3 7 "R") (LRU.mkNodeLba 3 2 "W") = false).
Proof.
  destruct lru_Less_orders_by_lba as (_ & Htrans & Htie). split.
  - apply (Htrans _ (LRU.mkNodeLba 2 0 "R")); reflexivity.
  - apply Htie. reflexivity.
Defined.

End LRUMore.
